(** * kgpy.sampling: samplers for knowledge-graph training batches

    A shallow embedding of [kgpy/sampling.py] (the abstract class
    [Sampler] and its subclasses [One_to_K], the pairwise sampler, and
    [One_to_N], the multi-label sampler) and the properties its
    specification states about index construction, shuffling,
    batching, negative sampling and label construction.

    Conventions of the embedding:
    - Python ints are [Z]; the int64 range of tensor cells is not
      modelled (ids are assumed to fit), the single-precision
      constructor [torch.Tensor] is.
    - A method is a statement of the monad [Py]: it runs on the object
      and on the ambient state (the generators of [random] and
      [numpy.random], the tensor storages) and returns or raises.
    - [self.index] is a [defaultdict(list)], an association list in
      insertion order whose reads insert missing keys.
    - Tensors that are copied and written to live in a store of
      storages; label matrices and numpy arrays, which are written by
      their creator only, are values.
    - numpy is the one the module was written for: [np.float] is
      [float], and an array built from strs and ints has a unicode
      dtype. *)

From stdpp Require Import base decidable countable option list gmap sets
  strings pretty.
From Stdlib Require Import ZArith Lia.

Local Open Scope Z_scope.

(** ** Python values *)

(** The components of an index key are Python ints and strs:
    [("head", r, t)], [("tail", r, h)] or [(r, h)]. *)
Inductive pyval : Type :=
  | PInt (z : Z)
  | PStr (s : string).

Global Instance pyval_eq_dec : EqDecision pyval.
Proof. solve_decision. Defined.

Global Instance pyval_countable : Countable pyval.
Proof.
  refine (inj_countable'
            (λ v, match v with PInt z => inl z | PStr s => inr s end)
            (λ x, match x with inl z => PInt z | inr s => PStr s end) _).
  by intros [z|s].
Defined.

(** A Python tuple used as a dict key. *)
Definition Key : Type := list pyval.

(** A triplet [(head, relation, tail)]; [t[0]], [t[1]], [t[2]] below. *)
Record Triplet : Type := mkTriplet { t0 : Z; t1 : Z; t2 : Z }.

Global Instance Triplet_eq_dec : EqDecision Triplet.
Proof. solve_decision. Defined.

(** [list(x)] for a triplet [x]. *)
Definition list_of_triplet (t : Triplet) : list Z := [t0 t; t1 t; t2 t].

(** ** [collections.defaultdict(list)]

    A Python dict keeps its keys in insertion order, and
    [list(self.index.keys())] exposes that order, so the dict is an
    association list: one entry per key, new keys at the end. *)
Module DefaultDict.

Definition t : Type := list (Key * list Z).

Definition empty : t := [].

(** [k in d] *)
Fixpoint mem (d : t) (k : Key) : bool :=
  match d with
  | [] => false
  | (k', _) :: d' => if decide (k' = k) then true else mem d' k
  end.

(** What is stored under [k]; the missing-key factory value [[]]
    when [k] is absent. *)
Fixpoint peek (d : t) (k : Key) : list Z :=
  match d with
  | [] => []
  | (k', v) :: d' => if decide (k' = k) then v else peek d' k
  end.

(** [d[k]]: a missing key is first inserted with the factory value
    [list() = []], then the stored list is returned. *)
Definition getitem (d : t) (k : Key) : list Z * t :=
  if mem d k then (peek d k, d) else ([], d ++ [(k, [])]).

(** [d[k] = v] *)
Fixpoint setitem (d : t) (k : Key) (v : list Z) : t :=
  match d with
  | [] => [(k, v)]
  | (k', v') :: d' =>
      if decide (k' = k) then (k', v) :: d' else (k', v') :: setitem d' k v
  end.

(** [d[k].append(x)] *)
Definition append (d : t) (k : Key) (x : Z) : t :=
  let '(v, d1) := getitem d k in
  setitem d1 k (v ++ [x]).

(** [list(d.keys())] *)
Definition keys (d : t) : list Key := d.*1.

(** [len(d)] *)
Definition len (d : t) : Z := Z.of_nat (length d).

(** The mapping a dict denotes: key to the set of entities in its
    bucket. *)
Definition view (d : t) : gmap Key (gset Z) :=
  list_to_map (prod_map id list_to_set <$> d).

End DefaultDict.

(** [list(set(v))]: the elements of [v], each once. Adding an element
    that a set already holds leaves the set as it is, so the result is
    determined by the first occurrences in [v]; the iteration order of
    a Python set is an implementation detail, and every statement below
    about a bucket is about its members, or compares two buckets built
    from lists with the same first occurrences. *)
Fixpoint list_set (v : list Z) : list Z :=
  match v with
  | [] => []
  | x :: v' => x :: filter (λ y, y ≠ x) (list_set v')
  end.

(** ** [Sampler._build_index] *)

Definition head_key (r t : Z) : Key := [PStr "head"; PInt r; PInt t].
Definition tail_key (r h : Z) : Key := [PStr "tail"; PInt r; PInt h].
Definition inverse_key (r h : Z) : Key := [PInt r; PInt h].

(** The body of [for t in self.triplets]. *)
Definition index_add (inverse : bool) (d : DefaultDict.t) (t : Triplet)
  : DefaultDict.t :=
  if inverse then
    DefaultDict.append d (inverse_key (t1 t) (t0 t)) (t2 t)
  else
    let d1 := DefaultDict.append d (head_key (t1 t) (t2 t)) (t0 t) in
    DefaultDict.append d1 (tail_key (t1 t) (t0 t)) (t2 t).

(** [for k, v in self.index.items(): self.index[k] = list(set(v))].
    Every [k] is already a key, so the assignments replace the stored
    lists in place. *)
Definition remove_duplicates (d : DefaultDict.t) : DefaultDict.t :=
  prod_map id list_set <$> d.

Definition _build_index (triplets : list Triplet) (inverse : bool)
  : DefaultDict.t :=
  remove_duplicates (foldl (index_add inverse) DefaultDict.empty triplets).

(** ** Exceptions and the method monad *)

Inductive exn : Type :=
  | StopIteration
  | ZeroDivisionError
  | IndexError
  | AttributeError
  | ValueError
  | TypeError
  | RuntimeError
  | InvalidBatch.

Inductive result (A : Type) : Type :=
  | Ok (a : A)
  | Raise (e : exn).
Arguments Ok {A} a.
Arguments Raise {A} e.

(** A Python statement run on a state [S]: it returns or raises, and
    the state keeps every mutation done before the raise. *)
Definition Py (S A : Type) : Type := S → result A * S.

Global Instance Py_ret {S} : MRet (Py S) := λ A a s, (Ok a, s).

Global Instance Py_bind {S} : MBind (Py S) := λ A B f m s,
  match m s with
  | (Ok a, s') => f a s'
  | (Raise e, s') => (Raise e, s')
  end.

Definition raise {S A} (e : exn) : Py S A := λ s, (Raise e, s).
Definition get {S} : Py S S := λ s, (Ok s, s).
Definition put {S} (s : S) : Py S unit := λ _, (Ok tt, s).
Definition modify {S} (f : S → S) : Py S unit := λ s, (Ok tt, f s).

(** Run a statement of a component of the state ([fst]/[snd] below). *)
Definition zoom {S S' A} (proj : S → S') (inj : S' → S → S) (m : Py S' A)
  : Py S A := λ s,
  let '(r, s') := m (proj s) in (r, inj s' s).

(** [for x in l: acc = body(x, acc)] *)
Fixpoint for_each {S A B} (l : list A) (body : A → B → Py S B) (acc : B)
  : Py S B :=
  match l with
  | [] => mret acc
  | x :: l' => acc' ← body x acc; for_each l' body acc'
  end.

(** [range(n)] *)
Definition range (n : Z) : list Z := Z.of_nat <$> seq 0 (Z.to_nat n).

(** [l[a:b]] with Python's treatment of negative and out-of-range
    bounds. *)
Definition slice_bound (n i : Z) : Z :=
  if i <? 0 then Z.max (i + n) 0 else Z.min i n.

Definition py_slice {A} (l : list A) (a b : Z) : list A :=
  let n := Z.of_nat (length l) in
  let a' := slice_bound n a in
  let b' := slice_bound n b in
  take (Z.to_nat (b' - a')) (drop (Z.to_nat a') l).

(** ** Random sources

    [random] and [numpy.random] are process-wide generators. A
    generator is the sequence of its raw outputs and a cursor into
    it. *)
Record Rng : Type := mkRng { raw : nat → nat; cursor : nat }.

Definition next_raw (g : Rng) : nat * Rng :=
  (raw g (cursor g), mkRng (raw g) (S (cursor g))).

(** A draw from [[0, n)], for [0 < n]. *)
Definition randbelow (n : nat) : Py Rng nat := λ g,
  let '(u, g') := next_raw g in (Ok (u `mod` n)%nat, g').

(** [x[i], x[j] = x[j], x[i]] on a list: both reads, then the two
    stores, left one first. *)
Definition swap {A} (x : list A) (i j : nat) : list A :=
  match x !! j, x !! i with
  | Some xj, Some xi => <[j := xi]> (<[i := xj]> x)
  | _, _ => x
  end.

(** [numpy.random.shuffle] on a Python list (Fisher-Yates):
    [for i in reversed(range(1, n)): j = random_interval(i);
     x[i], x[j] = x[j], x[i]], with [j] drawn from [[0, i]]. *)
Fixpoint shuffle_from {A} (i : nat) (x : list A) : Py Rng (list A) :=
  match i with
  | O => mret x
  | S i' => j ← randbelow (S i); shuffle_from i' (swap x i j)
  end.

Definition np_random_shuffle {A} (x : list A) : Py Rng (list A) :=
  shuffle_from (length x - 1) x.

(** ** Tensors

    A tensor is a view into a storage: row views obtained by iterating
    a matrix share the matrix's storage, [copy.deepcopy] and
    [torch.stack] allocate a new one. *)
Abbreviation loc := nat (only parsing).
Abbreviation Store := (list (list Z)) (only parsing).

Record Tensor : Type := mkTensor
  { storage : loc; offset : nat; shape : list nat }.

Definition numel (sh : list nat) : nat := foldr Nat.mul 1%nat sh.

(** The elements a view covers, in order. *)
Definition contents (st : Store) (t : Tensor) : list Z :=
  take (numel (shape t)) (drop (offset t) (default [] (st !! storage t))).

Fixpoint chunks {A} (k : nat) (n : nat) (l : list A) : list (list A) :=
  match n with
  | O => []
  | S n' => take k l :: chunks k n' (drop k l)
  end.

(** The rows of a matrix view. *)
Definition rows_of (st : Store) (t : Tensor) : list (list Z) :=
  match shape t with
  | [b; c] => chunks c b (contents st t)
  | _ => []
  end.

Definition alloc (c : list Z) (sh : list nat) : Py Store Tensor := λ st,
  (Ok (mkTensor (length st) 0 sh), st ++ [c]).

(** Rounding an integer to [p] significant bits, ties to even: the
    value an integer takes when stored in a binary float of precision
    [p] (24 for single, 53 for double). *)
Definition round_to_bits (p : Z) (z : Z) : Z :=
  let a := Z.abs z in
  if a <? 2 ^ p then z
  else
    let e := Z.log2 a + 1 - p in
    let q := a / 2 ^ e in
    let r := a mod 2 ^ e in
    let half := 2 ^ (e - 1) in
    let q' := if r <? half then q
              else if half <? r then q + 1
              else if Z.even q then q else q + 1 in
    Z.sgn z * (q' * 2 ^ e).

(** [torch.Tensor(data).long()] on one Python int: [torch.Tensor] is
    the single-precision constructor, reached through a double. *)
Definition float_tensor_long (z : Z) : Z :=
  round_to_bits 24 (round_to_bits 53 z).

Definition long_row (r : list Z) : list Z := float_tensor_long <$> r.

(** [torch.Tensor([list(x) for x in batch]).to(device).long()].
    An empty batch gives a one-dimensional empty tensor. *)
Definition tensor_of_rows (rows : list (list Z)) : Py Store Tensor :=
  match rows with
  | [] => alloc [] [0%nat]
  | r :: _ => alloc (long_row (concat rows)) [length rows; length r]
  end.

(** [for t in samples]: the views of the rows along dimension 0. *)
Definition iter_rows (t : Tensor) : list Tensor :=
  match shape t with
  | [] => []
  | b :: sh =>
      (λ i, mkTensor (storage t) (offset t + i * numel sh) sh) <$> seq 0 b
  end.

(** [copy.deepcopy(t)]: the storage is cloned, and the copy views the
    clone the way [t] views the original. *)
Definition deepcopy (t : Tensor) : Py Store Tensor := λ st,
  (Ok (mkTensor (length st) (offset t) (shape t)),
   st ++ [default [] (st !! storage t)]).

(** [t[j]] for a one-dimensional [t] and [0 <= j]. *)
Definition tensor_get (t : Tensor) (j : nat) : Py Store Z := λ st,
  match shape t with
  | [n] =>
      if decide (j < n)%nat then
        match contents st t !! j with
        | Some v => (Ok v, st)
        | None => (Raise IndexError, st)
        end
      else (Raise IndexError, st)
  | _ => (Raise IndexError, st)
  end.

(** [t[j] = v] for a one-dimensional [t] and [0 <= j]. *)
Definition tensor_set (t : Tensor) (j : nat) (v : Z) : Py Store unit := λ st,
  match shape t with
  | [n] =>
      if decide (j < n)%nat then
        (Ok tt, alter (λ c, <[(offset t + j)%nat := v]> c) (storage t) st)
      else (Raise IndexError, st)
  | _ => (Raise IndexError, st)
  end.

(** [torch.stack(ts, dim=0)]: an empty list, or tensors of different
    shapes, are refused. *)
Definition stack (ts : list Tensor) : Py Store Tensor := λ st,
  match ts with
  | [] => (Raise RuntimeError, st)
  | t :: _ =>
      if forallb (λ t', bool_decide (shape t' = shape t)) ts then
        alloc (concat (contents st <$> ts)) (length ts :: shape t) st
      else (Raise RuntimeError, st)
  end.

(** The ambient state of a run: the two generators and the tensor
    storages. *)
Record World : Type := mkWorld
  { np_random : Rng; py_random : Rng; store : Store }.

Definition with_np {A} (m : Py Rng A) : Py World A :=
  zoom np_random (λ g w, mkWorld g (py_random w) (store w)) m.
Definition with_py {A} (m : Py Rng A) : Py World A :=
  zoom py_random (λ g w, mkWorld (np_random w) g (store w)) m.
Definition with_store {A} (m : Py Store A) : Py World A :=
  zoom store (λ st w, mkWorld (np_random w) (py_random w) st) m.

(** ** numpy arrays of key rows

    [np.array([list(x) for x in batch])]: when every cell is an int the
    array holds ints; as soon as one cell is a str, numpy gives the
    array a unicode dtype and every cell is stored as its [str()]. The
    rows are kept as built, and the cells are read through the dtype. *)
Abbreviation NpArray := (list (list pyval)) (only parsing).

Definition is_str (v : pyval) : bool :=
  match v with PStr _ => true | PInt _ => false end.

Definition unicode_dtype (a : NpArray) : bool := existsb (existsb is_str) a.

(** [str(v)] *)
Definition py_str (v : pyval) : string :=
  match v with PInt z => pretty z | PStr s => s end.

(** The cell as it is read back from the array. *)
Definition np_cell (a : NpArray) (v : pyval) : pyval :=
  if unicode_dtype a then PStr (py_str v) else v.

(** [tuple(x)] for a row [x] of [a]. *)
Definition np_tuple (a : NpArray) (x : list pyval) : Key := np_cell a <$> x.

(** [a[:, 0]]: refused on the one-dimensional empty array. *)
Definition np_column0 {S} (a : NpArray) : Py S (list pyval) :=
  match a with
  | [] => raise IndexError
  | _ => mret ((λ x, np_cell a (default (PInt 0) (head x))) <$> a)
  end.

(** [torch.Tensor(a).long()] on a cell of an int array; a unicode
    array is refused. *)
Definition int_cell_to_long {S} (a : NpArray) (v : pyval) : Py S Z :=
  match v with
  | PInt z => if unicode_dtype a then raise TypeError
              else mret (round_to_bits 24 z)
  | PStr _ => raise TypeError
  end.

(** [torch.Tensor(a.astype(np.float)).long()] on a cell: the number a
    numeral denotes, as a double and then in single precision. The str
    components of keys are the tags ["head"] and ["tail"], which are no
    numerals. *)
Definition cell_to_long {S} (v : pyval) : Py S Z :=
  match v with
  | PInt z => mret (float_tensor_long z)
  | PStr _ => raise ValueError
  end.

Fixpoint mapM {S A B} (f : A → Py S B) (l : list A) : Py S (list B) :=
  match l with
  | [] => mret []
  | x :: l' => y ← f x; ys ← mapM f l'; mret (y :: ys)
  end.

(** ** Class [Sampler] *)

Record Sampler : Type := mkSampler
  { bs : Z;
    triplets : list Triplet;
    num_ents : Z;
    inverse : bool;
    device : string;
    index : DefaultDict.t;
    keys : list Key;
    (** set by [__iter__] and [reset] only *)
    trip_iter : option Z }.

Definition set_triplets (l : list Triplet) (s : Sampler) : Sampler :=
  mkSampler (bs s) l (num_ents s) (inverse s) (device s) (index s) (keys s)
            (trip_iter s).
Definition set_index (d : DefaultDict.t) (s : Sampler) : Sampler :=
  mkSampler (bs s) (triplets s) (num_ents s) (inverse s) (device s) d (keys s)
            (trip_iter s).
Definition set_keys (l : list Key) (s : Sampler) : Sampler :=
  mkSampler (bs s) (triplets s) (num_ents s) (inverse s) (device s) (index s) l
            (trip_iter s).
Definition set_trip_iter (i : Z) (s : Sampler) : Sampler :=
  mkSampler (bs s) (triplets s) (num_ents s) (inverse s) (device s) (index s)
            (keys s) (Some i).

(** [Sampler.__init__] *)
Definition Sampler_init (triplets : list Triplet) (batch_size num_ents : Z)
    (device : string) (inverse : bool) : Sampler :=
  let index := _build_index triplets inverse in
  mkSampler batch_size triplets num_ents inverse device index
            (DefaultDict.keys index) None.

(** A subclass holds the fields of [Sampler]. *)
Class Extends (T : Type) : Type :=
  { super : T → Sampler;
    with_super : Sampler → T → T }.

(** The abstract methods. A method runs on the object and the
    ambient state. *)
Class SamplerClass (T : Type) `{Extends T} : Type :=
  { _shuffle : Py (T * World) unit;
    _increment_iter : Py (T * World) unit }.

Definition py_len {A} (l : list A) : Z := Z.of_nat (length l).

Section Sampler.
Context {T : Type} `{Extends T}.

Definition self : Py (T * World) Sampler := λ s, (Ok (super s.1), s).

Definition update (f : Sampler → Sampler) : Py (T * World) unit :=
  modify (λ s, (with_super (f (super s.1)) s.1, s.2)).

Definition in_world {A} (m : Py World A) : Py (T * World) A :=
  zoom snd (λ w s, (s.1, w)) m.

(** Reading [self.trip_iter] *)
Definition get_trip_iter : Py (T * World) Z :=
  s ← self;
  match trip_iter s with
  | Some i => mret i
  | None => raise AttributeError
  end.

(** [torch.zeros(b, n)] *)
Definition zeros (b : nat) (n : Z) : Py (T * World) (list (list Z)) :=
  if n <? 0 then raise RuntimeError
  else mret (replicate b (replicate (Z.to_nat n) 0)).

(** [row[lbls] = 1]: an index outside [[-n, n)] is refused, a
    negative one counts from the end. *)
Fixpoint set_ones (row : list Z) (lbls : list Z) : Py (T * World) (list Z) :=
  match lbls with
  | [] => mret row
  | l :: lbls' =>
      let n := py_len row in
      if decide (- n ≤ l < n) then
        set_ones (<[Z.to_nat (if l <? 0 then l + n else l) := 1]> row) lbls'
      else raise IndexError
  end.

(** [self.index[k]] *)
Definition index_getitem (k : Key) : Py (T * World) (list Z) :=
  s ← self;
  let '(v, d) := DefaultDict.getitem (index s) k in
  update (set_index d);;
  mret v.

(** [Sampler._get_labels] *)
Definition _get_labels (samples : NpArray) : Py (T * World) (list (list Z)) :=
  s ← self;
  y ← zeros (length samples) (num_ents s);
  for_each (imap pair samples) (λ '(i, x) y,
    lbls ← index_getitem (np_tuple samples x);
    row ← set_ones (default [] (y !! i)) lbls;
    mret (<[i := row]> y)) y.

Context `{!SamplerClass T}.

(** [Sampler.__iter__] *)
Definition __iter__ : Py (T * World) unit :=
  update (set_trip_iter 0).

(** [Sampler.reset] *)
Definition reset : Py (T * World) unit :=
  update (set_trip_iter 0);;
  _shuffle.

End Sampler.

(** Calling a constructor: the body runs on the new object. *)
Definition construct {T} (obj : T) (body : Py (T * World) unit) : Py World T :=
  λ w, match body (obj, w) with
       | (Ok _, (obj', w')) => (Ok obj', w')
       | (Raise e, (_, w')) => (Raise e, w')
       end.

(** [random.choice(seq)] for a non-empty [seq] *)
Definition random_choice (seq : list nat) : Py Rng nat :=
  i ← randbelow (length seq); mret (default 0%nat (seq !! i)).

(** Modelled from the spec: [kgpy.utils.randint_exclude] is not among
    the sources. It draws a replacement uniformly from [[lo, hi)]
    excluding [exclude], by exclusion-aware sampling, and never returns
    [exclude]; with fewer than two values in the range no
    exclusion-respecting replacement is promised and the draw fails
    with [InvalidBatch]. *)
Definition randint_exclude (lo hi exclude : Z) : Py Rng Z :=
  if hi - lo <? 2 then raise InvalidBatch
  else
    let inside := (lo <=? exclude) && (exclude <? hi) in
    let count := if inside then hi - lo - 1 else hi - lo in
    u ← randbelow (Z.to_nat count);
    let r := lo + Z.of_nat u in
    mret (if inside && (exclude <=? r) then r + 1 else r).

(** ** Class [One_to_K] *)

Record One_to_K : Type := mkOne_to_K
  { K_super : Sampler; num_negative : Z }.

Global Instance One_to_K_extends : Extends One_to_K :=
  { super := K_super;
    with_super s k := mkOne_to_K s (num_negative k) }.

Global Instance One_to_K_class : SamplerClass One_to_K :=
  { _shuffle :=
      s ← self;
      l ← in_world (with_np (np_random_shuffle (triplets s)));
      update (set_triplets l);
    _increment_iter :=
      i ← get_trip_iter;
      s ← self;
      update (set_trip_iter (Z.min (i + bs s) (py_len (triplets s)))) }.

Module One_to_K.

Definition __init__ (triplets : list Triplet) (batch_size num_ents : Z)
    (device : string) (num_negative : Z) (inverse : bool)
  : Py World One_to_K :=
  construct
    (mkOne_to_K (Sampler_init triplets batch_size num_ents device inverse)
                num_negative)
    _shuffle.

Definition __len__ : Py (One_to_K * World) Z :=
  s ← self;
  if decide (bs s = 0) then raise ZeroDivisionError
  else mret (py_len (triplets s) / bs s).

(** One pass of the inner loop body of [_sample_negative]. *)
Definition corrupt (num_ents : Z) (t : Tensor) : Py World Tensor :=
  new_triplet ← with_store (deepcopy t);
  head_tail ← with_py (random_choice [0; 2]%nat);
  original ← with_store (tensor_get t head_tail);
  replacement ← with_py (randint_exclude 0 num_ents original);
  with_store (tensor_set new_triplet head_tail replacement);;
  mret new_triplet.

Definition _sample_negative (samples : Tensor)
  : Py (One_to_K * World) Tensor :=
  s ← get;
  corrupted_triplets ←
    for_each (range (num_negative s.1)) (λ _ acc,
      for_each (iter_rows samples) (λ t acc,
        new_triplet ← in_world (corrupt (num_ents (super s.1)) t);
        mret (acc ++ [new_triplet])) acc) [];
  in_world (with_store (stack corrupted_triplets)).

Definition __next__ : Py (One_to_K * World) (Tensor * Tensor) :=
  i ← get_trip_iter;
  s ← self;
  let n := py_len (triplets s) in
  if decide (i >= n - 1) then raise StopIteration
  else
    let batch := py_slice (triplets s) i (Z.min (i + bs s) n) in
    batch_samples ←
      in_world (with_store (tensor_of_rows (list_of_triplet <$> batch)));
    neg_samples ← _sample_negative batch_samples;
    _increment_iter;;
    mret (batch_samples, neg_samples).

End One_to_K.

(** ** Class [One_to_N] *)

Record One_to_N : Type := mkOne_to_N { N_super : Sampler }.

Global Instance One_to_N_extends : Extends One_to_N :=
  { super := N_super;
    with_super s _ := mkOne_to_N s }.

Global Instance One_to_N_class : SamplerClass One_to_N :=
  { _shuffle :=
      s ← self;
      l ← in_world (with_np (np_random_shuffle (keys s)));
      update (set_keys l);
    _increment_iter :=
      i ← get_trip_iter;
      s ← self;
      update (set_trip_iter (Z.min (i + bs s) (py_len (keys s)))) }.

Module One_to_N.

(** What [__next__] returns: [(batch_ix, batch_lbls)] in inverse
    mode, [(batch_ix, batch_lbls, trip_type)] otherwise. *)
Record Batch : Type := mkBatch
  { batch_ix : list (list Z);
    batch_lbls : list (list Z);
    trip_type : option (list pyval) }.

Definition __init__ (triplets : list Triplet) (batch_size num_ents : Z)
    (device : string) (inverse : bool) : Py World One_to_N :=
  construct
    (mkOne_to_N (Sampler_init triplets batch_size num_ents device inverse))
    _shuffle.

Definition __len__ : Py (One_to_N * World) Z :=
  s ← self;
  if decide (bs s = 0) then raise ZeroDivisionError
  else mret (DefaultDict.len (index s) / bs s).

Definition __next__ : Py (One_to_N * World) Batch :=
  i ← get_trip_iter;
  s ← self;
  let n := py_len (keys s) in
  if decide (i >= n - 1) then raise StopIteration
  else
    let batch_samples : NpArray :=
      py_slice (keys s) i (Z.min (i + bs s) n) in
    _increment_iter;;
    if inverse s then
      batch_ix ← mapM (mapM (int_cell_to_long batch_samples)) batch_samples;
      batch_lbls ← _get_labels batch_samples;
      mret (mkBatch batch_ix batch_lbls None)
    else
      trip_type ← np_column0 batch_samples;
      batch_ix ← mapM (mapM cell_to_long) (drop 1 <$> batch_samples);
      batch_lbls ← _get_labels batch_samples;
      mret (mkBatch batch_ix batch_lbls (Some trip_type)).

End One_to_N.

(** ** Vocabulary of the statements *)

(** The [(key, entity)] insertions one triplet contributes to the
    index, in the order [_build_index] performs them. *)
Definition emits (inverse : bool) (t : Triplet) : list (Key * Z) :=
  if inverse then [(inverse_key (t1 t) (t0 t), t2 t)]
  else [(head_key (t1 t) (t2 t), t0 t); (tail_key (t1 t) (t0 t), t2 t)].

Definition append_all (d : DefaultDict.t) (es : list (Key * Z))
  : DefaultDict.t :=
  foldl (λ d e, DefaultDict.append d e.1 e.2) d es.

(** The triplets of the specification's concrete scenario. *)
Definition scenario_triplets : list Triplet :=
  [mkTriplet 0 0 1; mkTriplet 1 0 2; mkTriplet 0 1 2].

(** [Index[k]] read as a set of entities. *)
Definition bucket (d : DefaultDict.t) (k : Key) : gset Z :=
  list_to_set (DefaultDict.peek d k).

(** A one-dimensional view of [c] elements that lies inside its
    storage. *)
Definition valid_row (st : Store) (c : nat) (t : Tensor) : Prop :=
  shape t = [c] ∧
  ∃ data, st !! storage t = Some data ∧ (offset t + c ≤ length data)%nat.

(** A matrix view of [b] rows and [c] columns inside its storage. *)
Definition valid_matrix (st : Store) (b c : nat) (t : Tensor) : Prop :=
  shape t = [b; c] ∧
  ∃ data, st !! storage t = Some data ∧
          (offset t + b * c ≤ length data)%nat.

(** [neg] is [pos] with the head (position 0) or the tail (position 2)
    replaced by an entity of [[0, num_ents)] other than the original
    one. *)
Definition corrupted_from (num_ents : Z) (pos neg : list Z) : Prop :=
  ∃ (head_tail : nat) (v : Z),
    (head_tail = 0 ∨ head_tail = 2)%nat ∧
    neg = <[head_tail := v]> pos ∧
    pos !! head_tail ≠ Some v ∧
    0 ≤ v < num_ents.

(** A small pairwise sampler and a world holding one batch of two
    triplets, used to instantiate the statements below. *)
Definition example_rng : Rng := mkRng (λ n, (7 * n + 3)%nat) 0.

Definition example_sampler : One_to_K :=
  mkOne_to_K
    (mkSampler 2 scenario_triplets 3 false "cpu"
               (_build_index scenario_triplets false)
               (DefaultDict.keys (_build_index scenario_triplets false))
               (Some 0))
    2.

Definition example_world : World :=
  mkWorld example_rng example_rng [[0; 0; 1; 1; 0; 2]].

Definition example_batch : Tensor := mkTensor 0 0 [2%nat; 3%nat].

(** [n] successive calls of a method, collecting what they return. *)
Fixpoint repeatM {S A} (n : nat) (m : Py S A) : Py S (list A) :=
  match n with
  | O => mret []
  | S n' => x ← m; xs ← repeatM n' m; mret (x :: xs)
  end.

(** Three triplets over more than [2^24] entities. *)
Definition big_id_triplets : list Triplet :=
  [mkTriplet 16777217 0 1; mkTriplet 0 0 2; mkTriplet 1 0 2].

(** What a caller can do with a sampler after construction. A call
    that raises leaves the sampler as it was at the raise; the caller
    goes on with the next call. *)
Inductive call : Type :=
  | CallReset
  | CallIter
  | CallNext
  | CallLen
  | CallGetLabels (samples : NpArray).

Definition call_K (c : call) : Py (One_to_K * World) unit :=
  match c with
  | CallReset => reset
  | CallIter => __iter__
  | CallNext => One_to_K.__next__ ;; mret tt
  | CallLen => One_to_K.__len__ ;; mret tt
  | CallGetLabels samples => _get_labels samples ;; mret tt
  end.

Definition call_N (c : call) : Py (One_to_N * World) unit :=
  match c with
  | CallReset => reset
  | CallIter => __iter__
  | CallNext => One_to_N.__next__ ;; mret tt
  | CallLen => One_to_N.__len__ ;; mret tt
  | CallGetLabels samples => _get_labels samples ;; mret tt
  end.

Definition run_calls {S} (step : call → Py S unit) (cs : list call) (s : S)
  : S :=
  foldl (λ s c, (step c s).2) s cs.

(** A statement keeps an invariant of the state, whether it returns
    or raises. *)
Definition keeps {S A} (I : S → Prop) (m : Py S A) : Prop :=
  ∀ s, I s → I (m s).2.

(** A statement keeps an invariant and, when it returns, returns a
    value that satisfies [Q]. *)
Definition ensures {S A} (I : S → Prop) (m : Py S A) (Q : A → Prop) : Prop :=
  ∀ s, I s → I (m s).2 ∧ ∀ a, (m s).1 = Ok a → Q a.

(** A key whose components are all strs. *)
Definition all_str (key : Key) : Prop := Forall (λ v, is_str v = true) key.

(** Every such key reads as empty. *)
Definition no_str_bucket (d : DefaultDict.t) : Prop :=
  ∀ key, all_str key → DefaultDict.peek d key = [].

(** The label row the index prescribes for a key: 1 at the entities
    of its bucket, 0 elsewhere. *)
Definition label_row (d : DefaultDict.t) (num_ents : Z) (key : Key) : list Z :=
  (λ e, if decide (Z.of_nat e ∈ DefaultDict.peek d key) then 1 else 0)
    <$> seq 0 (Z.to_nat num_ents).

(** A multi-label sampler in inverse mode whose keys are int tuples
    present in the index, with every indexed entity in
    [[0, num_ents)]. *)
Definition inverse_ready (n : One_to_N) : Prop :=
  inverse (super n) = true ∧
  0 ≤ num_ents (super n) ∧
  Forall (λ key, existsb is_str key = false ∧
                 DefaultDict.mem (index (super n)) key = true)
         (keys (super n)) ∧
  ∀ key, Forall (λ e, 0 ≤ e < num_ents (super n))
                (DefaultDict.peek (index (super n)) key).

(** The query indices [torch.Tensor(batch_samples).long()] of an int
    array. *)
Definition int_cell (v : pyval) : Z :=
  match v with PInt z => round_to_bits 24 z | PStr _ => 0 end.

Definition int_row (x : list pyval) : list Z := int_cell <$> x.

(** A key of non-inverse mode: a tag and two ints. *)
Definition tagged (key : Key) : Prop :=
  ∃ (tag : string) (r e : Z), key = [PStr tag; PInt r; PInt e].

(** A multi-label sampler in non-inverse mode, as construction and
    later batch requests leave it. *)
Definition non_inverse_ready (n : One_to_N) : Prop :=
  inverse (super n) = false ∧
  0 ≤ num_ents (super n) ∧
  Forall tagged (keys (super n)) ∧
  no_str_bucket (index (super n)).

(** The index after the reads of one label construction. *)
Definition index_after_reads (a : NpArray) (d : DefaultDict.t)
  : DefaultDict.t :=
  foldl (λ d x, (DefaultDict.getitem d (np_tuple a x)).2) d a.

(** A multi-label sampler as construction and later calls leave it,
    in either mode. *)
Definition ready (n : One_to_N) : Prop :=
  inverse_ready n ∨ non_inverse_ready n.

(** The row [row[lbls] = 1] leaves when every label is inside
    [[-n, n)] for a row of [n] cells. *)
Definition ones_at (row lbls : list Z) : list Z :=
  foldl (λ r l, <[Z.to_nat (if l <? 0 then l + py_len row else l) := 1]> r)
        row lbls.

(** A bucket whose entities can all index a label row of [num_ents]
    cells. *)
Definition indexable (num_ents : Z) (lbls : list Z) : Prop :=
  Forall (λ e, - num_ents ≤ e < num_ents) lbls.

(** A multi-label sampler over the scenario's triplets in inverse
    mode, after [__iter__]; its keys are (0,0), (0,1) and (1,0). *)
Definition example_multilabel : One_to_N :=
  mkOne_to_N (set_trip_iter 0 (Sampler_init scenario_triplets 2 3 "cpu" true)).

(** The same sampler told that there are two entities only, although
    entity 2 occurs as a tail. *)
Definition example_short_multilabel : One_to_N :=
  mkOne_to_N (set_trip_iter 0 (Sampler_init scenario_triplets 2 2 "cpu" true)).

(** The elementary changes the methods of a pairwise sampler make to
    the fields of [Sampler]: [__iter__] and [reset] set the position
    to 0, the shuffle permutes the triplets, a batch request below the
    boundary advances the position, and label construction reads keys
    from the index. *)
Inductive One_to_K_effect (s : Sampler) : Sampler → Prop :=
  | K_restart : One_to_K_effect s (set_trip_iter 0 s)
  | K_shuffle (l' : list Triplet) :
      l' ≡ₚ triplets s → One_to_K_effect s (set_triplets l' s)
  | K_advance (i : Z) :
      trip_iter s = Some i → i < py_len (triplets s) - 1 →
      One_to_K_effect s
        (set_trip_iter (Z.min (i + bs s) (py_len (triplets s))) s)
  | K_read (key : Key) :
      One_to_K_effect s
        (set_index (DefaultDict.getitem (index s) key).2 s).

(** The same for a multi-label sampler, whose sequence is the key
    list. *)
Inductive One_to_N_effect (s : Sampler) : Sampler → Prop :=
  | N_restart : One_to_N_effect s (set_trip_iter 0 s)
  | N_shuffle (l' : list Key) :
      l' ≡ₚ keys s → One_to_N_effect s (set_keys l' s)
  | N_advance (i : Z) :
      trip_iter s = Some i → i < py_len (keys s) - 1 →
      One_to_N_effect s
        (set_trip_iter (Z.min (i + bs s) (py_len (keys s))) s)
  | N_read (key : Key) :
      One_to_N_effect s
        (set_index (DefaultDict.getitem (index s) key).2 s).

(** What a non-inverse batch holds for a key [(tag, r, e)]: the type
    flag numpy hands back and the query indices
    [torch.Tensor(batch_samples[:, 1:].astype(np.float)).long()]. *)
Definition key_flag (key : Key) : pyval :=
  PStr (py_str (default (PInt 0) (head key))).

Definition key_query (key : Key) : list Z :=
  float_tensor_long <$>
    ((λ v, match v with PInt z => z | PStr _ => 0 end) <$> drop 1 key).

(** The example sampler asked for no negatives. *)
Definition example_sampler_no_negatives : One_to_K :=
  mkOne_to_K (super example_sampler) 0.

(** * Properties *)

(** ** The dict operations *)

Section DefaultDict_facts.
Import DefaultDict.
Implicit Types (d : DefaultDict.t) (k : Key) (v : list Z) (x : Z).

Lemma mem_app d1 d2 k : mem (d1 ++ d2) k = mem d1 k || mem d2 k.
Proof.
  induction d1 as [|[k0 v0] d1 IH]; simpl; [done|].
  by destruct (decide (k0 = k)).
Qed.

Lemma peek_app d1 d2 k :
  peek (d1 ++ d2) k = if mem d1 k then peek d1 k else peek d2 k.
Proof.
  induction d1 as [|[k0 v0] d1 IH]; simpl; [done|].
  by destruct (decide (k0 = k)).
Qed.

Lemma peek_absent d k : mem d k = false → peek d k = [].
Proof.
  induction d as [|[k0 v0] d IH]; simpl; [done|].
  by destruct (decide (k0 = k)).
Qed.

Lemma mem_elem_of d k : mem d k = true ↔ k ∈ keys d.
Proof.
  unfold keys. induction d as [|[k0 v0] d IH]; simpl.
  - split; [done|]. by intros ?%elem_of_nil.
  - rewrite elem_of_cons. destruct (decide (k0 = k)) as [->|Hne].
    + split; auto.
    + rewrite IH. split; [auto|]. by intros [?|?]; [congruence|].
Qed.

Lemma mem_setitem d k v k' :
  mem (setitem d k v) k' = bool_decide (k = k') || mem d k'.
Proof.
  induction d as [|[k0 v0] d IH]; simpl.
  - by destruct (decide (k = k')); [rewrite bool_decide_eq_true_2
                                   |rewrite bool_decide_eq_false_2].
  - destruct (decide (k0 = k)) as [->|Hne]; simpl.
    + destruct (decide (k = k')); [by rewrite orb_true_r|].
      by rewrite bool_decide_eq_false_2.
    + destruct (decide (k0 = k')); [by rewrite orb_true_r|]. done.
Qed.

Lemma peek_setitem d k v k' :
  peek (setitem d k v) k' = if decide (k = k') then v else peek d k'.
Proof.
  induction d as [|[k0 v0] d IH]; simpl; [done|].
  destruct (decide (k0 = k)) as [->|Hne]; simpl.
  - by destruct (decide (k = k')).
  - destruct (decide (k0 = k')) as [->|]; [|done].
    by destruct (decide (k = k')).
Qed.

Lemma keys_setitem d k v :
  mem d k = true → keys (setitem d k v) = keys d.
Proof.
  unfold keys. induction d as [|[k0 v0] d IH]; simpl; [done|].
  destruct (decide (k0 = k)) as [->|Hne]; simpl; [done|].
  intros Hm. f_equal. by apply IH.
Qed.

Lemma mem_append d k x k' :
  mem (append d k x) k' = bool_decide (k = k') || mem d k'.
Proof.
  unfold append, getitem. destruct (mem d k) eqn:Hk.
  - by rewrite mem_setitem.
  - rewrite mem_setitem, mem_app. simpl.
    destruct (decide (k = k')); [by rewrite bool_decide_eq_true_2|].
    by rewrite orb_false_r.
Qed.

Lemma peek_append d k x k' :
  peek (append d k x) k' =
    if decide (k = k') then peek d k ++ [x] else peek d k'.
Proof.
  unfold append, getitem. destruct (mem d k) eqn:Hk.
  - by rewrite peek_setitem.
  - rewrite peek_setitem. destruct (decide (k = k')) as [->|Hne].
    + by rewrite (peek_absent d k').
    + rewrite peek_app. destruct (mem d k') eqn:Hk'; [done|]. simpl.
      rewrite decide_False by done. by rewrite peek_absent.
Qed.

Lemma getitem_peek d k : (getitem d k).1 = peek d k.
Proof.
  unfold getitem. destruct (mem d k) eqn:Hk; simpl; [done|].
  by rewrite peek_absent.
Qed.

(** Reading a key never changes what any key reads. *)
Lemma peek_getitem d k k' : peek (getitem d k).2 k' = peek d k'.
Proof.
  unfold getitem. destruct (mem d k) eqn:Hk; simpl; [done|].
  rewrite peek_app. destruct (mem d k') eqn:Hk'; [done|]. simpl.
  rewrite (peek_absent d k') by done. by destruct (decide (k = k')).
Qed.

Lemma getitem_present d k : mem d k = true → (getitem d k).2 = d.
Proof. unfold getitem. by intros ->. Qed.

Lemma append_all_cons d k x es :
  append_all d ((k, x) :: es) = append_all (append d k x) es.
Proof. done. Qed.

Lemma mem_append_all d es k :
  mem (append_all d es) k = mem d k || bool_decide (k ∈ es.*1).
Proof.
  revert d. induction es as [|[k0 x0] es IH]; intros d.
  - rewrite bool_decide_eq_false_2; [by rewrite orb_false_r|].
    by intros ?%elem_of_nil.
  - rewrite append_all_cons, IH, mem_append, fmap_cons. cbn [fst].
    destruct (decide (k0 = k)) as [->|Hne].
    + rewrite (bool_decide_eq_true_2 (k = k)) by done.
      rewrite (bool_decide_eq_true_2 (k ∈ k :: es.*1)) by left.
      by rewrite orb_true_r.
    + rewrite (bool_decide_eq_false_2 (k0 = k)) by done.
      rewrite orb_false_l. f_equal.
      apply bool_decide_ext. rewrite elem_of_cons. intuition congruence.
Qed.

Lemma peek_append_all d es k :
  peek (append_all d es) k = peek d k ++ (filter (λ e, e.1 = k) es).*2.
Proof.
  revert d. induction es as [|[k0 x0] es IH]; intros d.
  - by rewrite app_nil_r.
  - rewrite append_all_cons, IH, peek_append, filter_cons. cbn [fst].
    destruct (decide (k0 = k)) as [->|Hne]; [|done].
    rewrite fmap_cons. cbn [snd]. by rewrite <- app_assoc.
Qed.

Lemma view_lookup d k :
  view d !! k = if mem d k then Some (list_to_set (peek d k)) else None.
Proof.
  unfold view. induction d as [|[k0 v0] d IH]; simpl; [done|].
  rewrite lookup_insert. destruct (decide (k0 = k)); [done|]. apply IH.
Qed.

End DefaultDict_facts.

(** ** [list(set(v))] *)

Lemma elem_of_list_set (v : list Z) (x : Z) : x ∈ list_set v ↔ x ∈ v.
Proof.
  induction v as [|y v IH]; simpl; [done|].
  rewrite !elem_of_cons, list_elem_of_filter, IH.
  destruct (decide (x = y)); intuition congruence.
Qed.

Lemma NoDup_list_set (v : list Z) : NoDup (list_set v).
Proof.
  induction v as [|y v IH]; simpl; [constructor|].
  constructor; [|by apply NoDup_filter].
  rewrite list_elem_of_filter. intuition congruence.
Qed.

(** ** The index *)

Section index_facts.
Import DefaultDict.

Lemma index_add_emits inv d t :
  index_add inv d t = append_all d (emits inv t).
Proof. unfold index_add, emits. by destruct inv. Qed.

Lemma foldl_index_add inv l d :
  foldl (index_add inv) d l = append_all d (l ≫= emits inv).
Proof.
  revert d. induction l as [|t l IH]; intros d; simpl; [done|].
  rewrite IH, index_add_emits. unfold append_all. by rewrite foldl_app.
Qed.

Lemma mem_remove_duplicates d k : mem (remove_duplicates d) k = mem d k.
Proof.
  unfold remove_duplicates. induction d as [|[k0 v0] d IH]; simpl; [done|].
  destruct (decide (k0 = k)); [done|apply IH].
Qed.

Lemma peek_remove_duplicates d k :
  peek (remove_duplicates d) k = list_set (peek d k).
Proof.
  unfold remove_duplicates. induction d as [|[k0 v0] d IH]; simpl; [done|].
  destruct (decide (k0 = k)); [done|apply IH].
Qed.

(** A key is in the index exactly when some triplet contributes it. *)
Lemma mem_build_index l inv k :
  mem (_build_index l inv) k = true ↔
  ∃ t, t ∈ l ∧ k ∈ (emits inv t).*1.
Proof.
  unfold _build_index.
  rewrite mem_remove_duplicates, foldl_index_add, mem_append_all. simpl.
  rewrite bool_decide_eq_true, list_elem_of_fmap. split.
  - intros ([k' e] & -> & (t & Ht & Hin)%list_elem_of_bind).
    exists t. split; [done|]. apply list_elem_of_fmap. by exists (k', e).
  - intros (t & Ht & ([k' e] & -> & Hin)%list_elem_of_fmap).
    exists (k', e). split; [done|]. apply list_elem_of_bind. eauto.
Qed.

(** An entity is in a bucket exactly when some triplet contributes
    it under that key. *)
Lemma elem_of_peek_build_index l inv k e :
  e ∈ peek (_build_index l inv) k ↔
  ∃ t, t ∈ l ∧ (k, e) ∈ emits inv t.
Proof.
  unfold _build_index.
  rewrite peek_remove_duplicates, elem_of_list_set, foldl_index_add,
    peek_append_all. simpl. rewrite list_elem_of_fmap. split.
  - intros ([k' e'] & -> & [Hk (t & Ht & Hin)%list_elem_of_bind]
                              %list_elem_of_filter).
    simpl in Hk. subst k'. eauto.
  - intros (t & Ht & Hin). exists (k, e). split; [done|].
    apply list_elem_of_filter. split; [done|]. apply list_elem_of_bind. eauto.
Qed.

Lemma NoDup_peek_build_index l inv k : NoDup (peek (_build_index l inv) k).
Proof.
  unfold _build_index. rewrite peek_remove_duplicates. apply NoDup_list_set.
Qed.

(** The mapping the index denotes depends only on which triplets
    occur in the input. *)
Lemma view_build_index_ext l1 l2 inv :
  (∀ t, t ∈ l1 ↔ t ∈ l2) →
  view (_build_index l1 inv) = view (_build_index l2 inv).
Proof.
  intros Hl. apply map_eq. intros k. rewrite !view_lookup.
  assert (mem (_build_index l1 inv) k = mem (_build_index l2 inv) k) as Hm.
  { apply eq_true_iff_eq. rewrite !mem_build_index.
    by setoid_rewrite Hl. }
  rewrite Hm. destruct (mem (_build_index l2 inv) k); [|done].
  f_equal. apply set_eq. intros e.
  rewrite !elem_of_list_to_set, !elem_of_peek_build_index.
  by setoid_rewrite Hl.
Qed.

End index_facts.

(** ** Index correctness *)

(** C3, as stated, fails on the scenario: the only triplet with
    relation 0 and head 0 is (0,0,1), so the bucket of ("tail",0,0)
    holds entity 1 alone and is not {1,2}. *)
Lemma index_scenario_counterexample :
  bucket (index (Sampler_init scenario_triplets 2 3 "cpu" false))
         (tail_key 0 0) ≠ {[1; 2]}.
Proof.
  intros Heq.
  assert (2 ∈ bucket (index (Sampler_init scenario_triplets 2 3 "cpu" false))
                     (tail_key 0 0)) as Hin
    by (rewrite Heq; set_solver).
  unfold bucket in Hin. apply elem_of_list_to_set in Hin.
  vm_compute in Hin. by apply list_elem_of_singleton in Hin.
Qed.

(** C3 (amended): every input triplet (h, r, t) is recorded in the
    index built at construction: h is in Index[("head", r, t)] and t in
    Index[("tail", r, h)] in non-inverse mode, t is in Index[(r, h)] in
    inverse mode; and for the triplets [(0,0,1),(1,0,2),(0,1,2)] in
    non-inverse mode the buckets are ("tail",0,0) = {1},
    ("head",0,1) = {0}, ("head",0,2) = {1}, ("tail",1,0) = {2} and
    ("head",1,2) = {0}. *)
Theorem index_membership :
  (∀ (l : list Triplet) (t : Triplet) (batch_size num_ents : Z) (dev : string),
     t ∈ l →
     t0 t ∈ DefaultDict.peek
              (index (Sampler_init l batch_size num_ents dev false))
              (head_key (t1 t) (t2 t)) ∧
     t2 t ∈ DefaultDict.peek
              (index (Sampler_init l batch_size num_ents dev false))
              (tail_key (t1 t) (t0 t)) ∧
     t2 t ∈ DefaultDict.peek
              (index (Sampler_init l batch_size num_ents dev true))
              (inverse_key (t1 t) (t0 t))) ∧
  (let d := index (Sampler_init scenario_triplets 2 3 "cpu" false) in
   bucket d (tail_key 0 0) = {[1]} ∧
   bucket d (head_key 0 1) = {[0]} ∧
   bucket d (head_key 0 2) = {[1]} ∧
   bucket d (tail_key 1 0) = {[2]} ∧
   bucket d (head_key 1 2) = {[0]}).
Proof.
  split.
  - intros l t b n dev Ht. simpl.
    rewrite !elem_of_peek_build_index.
    repeat split; exists t; (split; [done|]); unfold emits; set_solver.
  - simpl. unfold bucket. repeat split; apply set_eq; intros e;
      rewrite elem_of_list_to_set; vm_compute DefaultDict.peek;
      set_solver.
Qed.

(** The triplet (1,0,2) of the scenario is recorded under ("head",0,2). *)
Lemma index_membership_witness :
  mkTriplet 1 0 2 ∈ scenario_triplets ∧
  1 ∈ DefaultDict.peek (index (Sampler_init scenario_triplets 2 3 "cpu" false))
        (head_key 0 2).
Proof.
  assert (mkTriplet 1 0 2 ∈ scenario_triplets) as Hin
    by (unfold scenario_triplets; set_solver).
  split; [exact Hin|].
  exact (proj1 (proj1 index_membership scenario_triplets (mkTriplet 1 0 2)
                      2 3 "cpu" Hin)).
Defined.

(** ** The method monad *)

Lemma bind_unfold {S A B} (m : Py S A) (f : A → Py S B) (s : S) :
  (m ≫= f) s = match m s with
               | (Ok a, s') => f a s'
               | (Raise e, s') => (Raise e, s')
               end.
Proof. done. Qed.

Lemma bind_ok {S A B} (m : Py S A) (f : A → Py S B) (s s' : S) (a : A) :
  m s = (Ok a, s') → (m ≫= f) s = f a s'.
Proof. intros Hm. by rewrite bind_unfold, Hm. Qed.

Lemma bind_raise {S A B} (m : Py S A) (f : A → Py S B) (s s' : S) (e : exn) :
  m s = (Raise e, s') → (m ≫= f) s = (Raise e, s').
Proof. intros Hm. by rewrite bind_unfold, Hm. Qed.

Lemma with_store_ok {A} (m : Py (list (list Z)) A) (w : World) (a : A) st' :
  m (store w) = (Ok a, st') →
  with_store m w = (Ok a, mkWorld (np_random w) (py_random w) st').
Proof. unfold with_store, zoom. by intros ->. Qed.

Lemma with_py_ok {A} (m : Py Rng A) (w : World) (a : A) (g' : Rng) :
  m (py_random w) = (Ok a, g') →
  with_py m w = (Ok a, mkWorld (np_random w) g' (store w)).
Proof. unfold with_py, zoom. by intros ->. Qed.

Lemma with_np_ok {A} (m : Py Rng A) (w : World) (a : A) (g' : Rng) :
  m (np_random w) = (Ok a, g') →
  with_np m w = (Ok a, mkWorld g' (py_random w) (store w)).
Proof. unfold with_np, zoom. by intros ->. Qed.

Lemma in_world_run {T A} `{Extends T} (m : Py World A) (k : T) (w : World) :
  in_world m (k, w) = let '(r, w') := m w in (r, (k, w')).
Proof. done. Qed.

Lemma in_world_ok {T A} `{Extends T} (m : Py World A) (k : T) (w w' : World)
    (a : A) :
  m w = (Ok a, w') → in_world m (k, w) = (Ok a, (k, w')).
Proof. rewrite in_world_run. by intros ->. Qed.

(** ** Shuffling *)

Global Arguments np_random_shuffle : simpl never.

Lemma cons_insert_perm {A} (l : list A) (j : nat) (y a : A) :
  l !! j = Some y → y :: <[j := a]> l ≡ₚ a :: l.
Proof.
  revert j. induction l as [|b l IH]; intros [|j] Hj; simplify_eq/=.
  - apply perm_swap.
  - rewrite perm_swap, (IH j Hj). apply perm_swap.
Qed.

Lemma swap_perm {A} (x : list A) (i j : nat) : swap x i j ≡ₚ x.
Proof.
  unfold swap.
  destruct (x !! j) as [xj|] eqn:Hj; [|done].
  destruct (x !! i) as [xi|] eqn:Hi; [|done].
  revert i j Hi Hj. induction x as [|a x IH]; intros [|i] [|j] Hi Hj;
    simplify_eq/=.
  - done.
  - by apply cons_insert_perm.
  - by apply cons_insert_perm.
  - by rewrite (IH i j).
Qed.

Lemma swap_length {A} (x : list A) (i j : nat) : length (swap x i j) = length x.
Proof. apply Permutation_length, swap_perm. Qed.

Lemma shuffle_from_perm {A} (i : nat) (x : list A) (g : Rng) :
  ∃ x' g', shuffle_from i x g = (Ok x', g') ∧ x' ≡ₚ x.
Proof.
  revert x g. induction i as [|i IH]; intros x g.
  - by exists x, g.
  - cbn [shuffle_from]. rewrite bind_unfold. unfold randbelow at 1.
    cbn [next_raw].
    destruct (IH (swap x (S i) (raw g (cursor g) `mod` S (S i))%nat)
                 (mkRng (raw g) (S (cursor g)))) as (x' & g' & Hrun & Hperm).
    exists x', g'. split; [done|]. by rewrite Hperm, swap_perm.
Qed.

Lemma np_random_shuffle_perm {A} (x : list A) (g : Rng) :
  ∃ x' g', np_random_shuffle x g = (Ok x', g') ∧ x' ≡ₚ x.
Proof. apply shuffle_from_perm. Qed.

Lemma One_to_K_reset_run (k : One_to_K) (w : World) :
  ∃ l' g',
    reset (k, w) =
      (Ok tt,
       (with_super (set_triplets l' (set_trip_iter 0 (super k))) k,
        mkWorld g' (py_random w) (store w))) ∧
    l' ≡ₚ triplets (super k).
Proof.
  destruct (np_random_shuffle_perm (triplets (super k)) (np_random w))
    as (l' & g' & Hrun & Hperm).
  exists l', g'. split; [|done].
  unfold reset, _shuffle, One_to_K_class, update, modify, self, in_world,
    with_np, zoom. rewrite !bind_unfold. cbn in Hrun |- *. by rewrite Hrun.
Qed.

Lemma One_to_N_reset_run (n : One_to_N) (w : World) :
  ∃ l' g',
    reset (n, w) =
      (Ok tt,
       (with_super (set_keys l' (set_trip_iter 0 (super n))) n,
        mkWorld g' (py_random w) (store w))) ∧
    l' ≡ₚ keys (super n).
Proof.
  destruct (np_random_shuffle_perm (keys (super n)) (np_random w))
    as (l' & g' & Hrun & Hperm).
  exists l', g'. split; [|done].
  unfold reset, _shuffle, One_to_N_class, update, modify, self, in_world,
    with_np, zoom. rewrite !bind_unfold. cbn in Hrun |- *. by rewrite Hrun.
Qed.


(** ** Tensors and their storages *)

Global Arguments contents : simpl never.
Global Arguments rows_of : simpl never.
Global Arguments iter_rows : simpl never.
Global Arguments numel : simpl never.

Lemma numel_row (c : nat) : numel [c] = c.
Proof. unfold numel. cbn [foldr]. lia. Qed.

Lemma numel_matrix (b c : nat) : numel [b; c] = (b * c)%nat.
Proof. unfold numel. cbn [foldr]. lia. Qed.

Lemma chunks_seq {A} (c b o : nat) (data : list A) :
  chunks c b (take (b * c) (drop o data)) =
    (λ i, take c (drop (o + i * c) data)) <$> seq 0 b.
Proof.
  revert o. induction b as [|b IH]; intros o; [done|].
  cbn [chunks seq fmap list_fmap]. f_equal.
  - rewrite take_take. f_equal; [lia|]. f_equal. lia.
  - rewrite <- fmap_S_seq, <- list_fmap_compose.
    replace (S b * c)%nat with (c + b * c)%nat by lia.
    rewrite <- take_drop_commute, drop_drop, IH.
    apply list_fmap_ext. intros _ i _. simpl. do 2 f_equal. lia.
Qed.

(** The rows of a matrix are the contents of the views met when
    iterating over it. *)
Lemma rows_of_iter_rows (st : Store) (t : Tensor) (b c : nat) :
  shape t = [b; c] → rows_of st t = contents st <$> iter_rows t.
Proof.
  intros Hsh. unfold rows_of, iter_rows, contents. rewrite Hsh.
  rewrite numel_matrix, chunks_seq, <- list_fmap_compose.
  apply list_fmap_ext. intros _ i _. simpl. by rewrite numel_row.
Qed.

Lemma length_iter_rows (t : Tensor) (b c : nat) :
  shape t = [b; c] → length (iter_rows t) = b.
Proof.
  intros Hsh. unfold iter_rows. rewrite Hsh. by rewrite length_fmap, length_seq.
Qed.

Lemma valid_iter_rows (st : Store) (t : Tensor) (b c : nat) :
  valid_matrix st b c t → Forall (valid_row st c) (iter_rows t).
Proof.
  intros (Hsh & data & Hdata & Hlen). unfold iter_rows. rewrite Hsh.
  apply Forall_forall. intros r (i & -> & Hi%elem_of_seq)%list_elem_of_fmap.
  split; [done|]. exists data. split; [done|]. simpl.
  rewrite numel_row. nia.
Qed.

Lemma valid_row_app (st ext : Store) (c : nat) (t : Tensor) :
  valid_row st c t → valid_row (st ++ ext) c t.
Proof.
  intros (Hsh & data & Hdata & Hlen). split; [done|]. exists data.
  split; [|done]. rewrite lookup_app_l; [done|]. by eapply lookup_lt_Some.
Qed.

(** Appending storages does not change what a view into an older
    storage shows. *)
Lemma contents_app (st ext : Store) (t : Tensor) :
  (storage t < length st)%nat → contents (st ++ ext) t = contents st t.
Proof. intros Hlt. unfold contents. by rewrite lookup_app_l. Qed.

Lemma valid_row_storage (st : Store) (c : nat) (t : Tensor) :
  valid_row st c t → (storage t < length st)%nat.
Proof. intros (_ & data & Hdata & _). by eapply lookup_lt_Some. Qed.

Lemma valid_row_length (st : Store) (c : nat) (t : Tensor) :
  valid_row st c t → length (contents st t) = c.
Proof.
  intros (Hsh & data & Hdata & Hlen). unfold contents.
  rewrite Hsh, Hdata, numel_row. simpl. rewrite length_take, length_drop. lia.
Qed.

Lemma chunks_concat {A} (c : nat) (rows : list (list A)) (rest : list A) :
  Forall (λ r, length r = c) rows →
  chunks c (length rows) (concat rows ++ rest) = rows.
Proof.
  induction 1 as [|r rows Hr _ IH]; [done|].
  cbn [length chunks concat]. rewrite <- app_assoc. f_equal.
  - by apply take_app_length'.
  - rewrite drop_app_length'; [done|by symmetry].
Qed.

Lemma length_concat_uniform {A} (c : nat) (rows : list (list A)) :
  Forall (λ r, length r = c) rows → length (concat rows) = (length rows * c)%nat.
Proof.
  induction 1 as [|r rows Hr _ IH]; [done|].
  simpl. rewrite length_app, IH. lia.
Qed.

(** Reading back a freshly allocated matrix. *)
Lemma rows_of_alloc (st ext : Store) (rows : list (list Z)) (c : nat) :
  Forall (λ r, length r = c) rows →
  rows_of ((st ++ [concat rows]) ++ ext)
          (mkTensor (length st) 0 [length rows; c]) = rows.
Proof.
  intros Hrows. unfold rows_of, contents. simpl.
  rewrite <- app_assoc, lookup_app_r by lia.
  rewrite Nat.sub_diag. simpl. rewrite numel_matrix.
  rewrite drop_0.
  rewrite take_ge by (rewrite (length_concat_uniform c) by done; lia).
  rewrite <- (app_nil_r (concat rows)). by apply chunks_concat.
Qed.

(** ** Negative sampling *)

Lemma randbelow_run (n : nat) (g : Rng) :
  randbelow n g = (Ok (raw g (cursor g) `mod` n)%nat,
                   mkRng (raw g) (S (cursor g))).
Proof. done. Qed.

Lemma random_choice_head_tail (g : Rng) :
  ∃ ht, random_choice [0; 2]%nat g = (Ok ht, mkRng (raw g) (S (cursor g))) ∧
        (ht = 0 ∨ ht = 2)%nat.
Proof.
  unfold random_choice. rewrite bind_unfold, randbelow_run. cbn [length].
  pose proof (Nat.mod_upper_bound (raw g (cursor g)) 2) as Hlt.
  destruct (raw g (cursor g) `mod` 2)%nat as [|[|u]]; [| |lia].
  - exists 0%nat. auto.
  - exists 2%nat. auto.
Qed.

(** The replacement is in range and never the excluded value. *)
Lemma randint_exclude_spec (lo hi exclude : Z) (g : Rng) :
  2 ≤ hi - lo →
  ∃ v, randint_exclude lo hi exclude g = (Ok v, mkRng (raw g) (S (cursor g))) ∧
       v ≠ exclude ∧ lo ≤ v < hi.
Proof.
  intros Hrange. unfold randint_exclude.
  destruct (hi - lo <? 2) eqn:Hlt; [lia|clear Hlt].
  rewrite bind_unfold, randbelow_run. eexists. split; [done|].
  set (inside := (lo <=? exclude) && (exclude <? hi)).
  set (count := if inside then hi - lo - 1 else hi - lo).
  assert (0 < count) as Hcount by (unfold count; destruct inside; lia).
  pose proof (Nat.mod_upper_bound (raw g (cursor g)) (Z.to_nat count)) as Hu.
  set (u := (raw g (cursor g) `mod` Z.to_nat count)%nat) in *.
  assert (Z.of_nat u < count) as Hu' by lia. clear Hu.
  unfold count in Hu'. subst inside.
  destruct (lo <=? exclude) eqn:H1; destruct (exclude <? hi) eqn:H2;
    cbn [andb] in *; try destruct (exclude <=? lo + Z.of_nat u) eqn:H3; lia.
Qed.

Lemma alter_last {A} (f : A → A) (l : list A) (x : A) :
  alter f (length l) (l ++ [x]) = l ++ [f x].
Proof. rewrite alter_app_r_alt by lia. by rewrite Nat.sub_diag. Qed.

Lemma tensor_get_ok (t : Tensor) (j n : nat) (v : Z) (st : list (list Z)) :
  shape t = [n] → (j < n)%nat → contents st t !! j = Some v →
  tensor_get t j st = (Ok v, st).
Proof.
  intros Hsh Hj Hv. unfold tensor_get.
  by rewrite Hsh, decide_True, Hv by done.
Qed.

Lemma tensor_set_ok (t : Tensor) (j n : nat) (v : Z) (st : list (list Z)) :
  shape t = [n] → (j < n)%nat →
  tensor_set t j v st =
    (Ok tt, alter (λ c, <[(offset t + j)%nat := v]> c) (storage t) st).
Proof.
  intros Hsh Hj. unfold tensor_set. by rewrite Hsh, decide_True by done.
Qed.

Section corrupt.
Import One_to_K.

(** One corruption: the store gains one storage, the clone with one
    position overwritten, and every older storage is as before. *)
Lemma corrupt_spec (ne : Z) (t : Tensor) (c : nat) (w : World) :
  2 ≤ ne → (3 ≤ c)%nat → valid_row (store w) c t →
  ∃ new gp' data',
    corrupt ne t w =
      (Ok new, mkWorld (np_random w) gp' (store w ++ [data'])) ∧
    valid_row (store w ++ [data']) c new ∧
    corrupted_from ne (contents (store w) t)
                   (contents (store w ++ [data']) new).
Proof.
  intros Hne Hc Hvalid.
  pose proof (valid_row_length _ _ _ Hvalid) as Hlen.
  destruct Hvalid as (Hsh & data & Hdata & Hbound).
  destruct w as [gn gp st]. cbn [store np_random] in *.
  destruct (random_choice_head_tail gp) as (ht & Hht & Hcases).
  assert (ht < c)%nat as Hhtc by lia.
  destruct (lookup_lt_is_Some_2 (contents st t) ht) as [orig Horig];
    [lia|].
  destruct (randint_exclude_spec 0 ne orig (mkRng (raw gp) (S (cursor gp))))
    as (v & Hv & Hneq & Hvrange); [lia|].
  pose proof (lookup_lt_Some _ _ _ Hdata) as Hloc.
  assert (contents (st ++ [data]) t = contents st t) as Hstable
    by (by apply contents_app).
  eexists (mkTensor (length st) (offset t) (shape t)), _,
    (<[(offset t + ht)%nat := v]> data).
  split; [|split].
  - unfold corrupt.
    set (new := mkTensor (length st) (offset t) (shape t)).
    assert (with_store (deepcopy t) (mkWorld gn gp st) =
              (Ok new, mkWorld gn gp (st ++ [data]))) as Hcopy.
    { apply with_store_ok. unfold deepcopy. cbn [store]. by rewrite Hdata. }
    rewrite (bind_ok _ _ _ _ _ Hcopy).
    rewrite (bind_ok _ _ _ _ _
               (with_py_ok _ (mkWorld gn gp (st ++ [data])) _ _ Hht)).
    cbn [store np_random py_random].
    assert (tensor_get t ht (st ++ [data]) = (Ok orig, st ++ [data]))
      as Hget.
    { apply tensor_get_ok with (n := c); [done..|]. by rewrite Hstable. }
    rewrite (bind_ok _ _ _ _ _
               (with_store_ok _ (mkWorld gn _ (st ++ [data])) _ _ Hget)).
    rewrite (bind_ok _ _ _ _ _
               (with_py_ok _ (mkWorld gn _ (st ++ [data])) _ _ Hv)).
    cbn [store np_random py_random].
    assert (tensor_set new ht v (st ++ [data]) =
              (Ok tt, st ++ [<[(offset t + ht)%nat := v]> data])) as Hset.
    { rewrite (tensor_set_ok _ _ c) by done. cbn [storage offset new].
      by rewrite alter_last. }
    rewrite (bind_ok _ _ _ _ _
               (with_store_ok _ (mkWorld gn _ (st ++ [data])) _ _ Hset)).
    done.
  - split; [done|]. exists (<[(offset t + ht)%nat := v]> data).
    cbn [storage offset]. split.
    + rewrite lookup_app_r by lia. by rewrite Nat.sub_diag.
    + by rewrite length_insert.
  - exists ht, v. split; [done|]. split; [|split; [|lia]].
    + unfold contents. cbn [storage offset shape].
      rewrite lookup_app_r by lia. rewrite Nat.sub_diag, Hdata, Hsh.
      cbn [lookup list_lookup default]. rewrite numel_row.
      unfold id. rewrite drop_insert_ge by lia.
      replace (offset t + ht - offset t)%nat with ht by lia.
      by rewrite take_insert_lt.
    + rewrite Horig. congruence.
Qed.

End corrupt.

Lemma contents_fmap_app (st ext : list (list Z)) (c : nat) (ts : list Tensor) :
  Forall (valid_row st c) ts →
  contents (st ++ ext) <$> ts = contents st <$> ts.
Proof.
  intros Hts. apply list_fmap_ext. intros i t Hi.
  apply contents_app. eapply valid_row_storage.
  by eapply (Forall_lookup_1 _ _ _ _ Hts).
Qed.

Lemma world_store_nil (w : World) :
  mkWorld (np_random w) (py_random w) (store w ++ []) = w.
Proof. destruct w. cbn. by rewrite app_nil_r. Qed.

Lemma for_each_cons {S A B} (x : A) (l : list A) (body : A → B → Py S B)
    (acc : B) :
  for_each (x :: l) body acc = (acc' ← body x acc; for_each l body acc').
Proof. done. Qed.

Section sample_negative.
Import One_to_K.
Variables (ne : Z) (c : nat).
Hypothesis Hne : 2 ≤ ne.
Hypothesis Hc : (3 ≤ c)%nat.

(** The body of the inner loop. *)
Let body (t : Tensor) (acc : list Tensor)
  : Py (One_to_K * World) (list Tensor) :=
  new_triplet ← in_world (corrupt ne t);
  mret (acc ++ [new_triplet]).

(** One pass over the batch: one clone per row, in batch order. *)
Lemma inner_loop_spec (ts acc : list Tensor) (k : One_to_K) (w : World) :
  Forall (valid_row (store w) c) ts →
  ∃ news gp' ext,
    for_each ts body acc (k, w) =
      (Ok (acc ++ news),
       (k, mkWorld (np_random w) gp' (store w ++ ext))) ∧
    Forall (valid_row (store w ++ ext) c) news ∧
    Forall2 (corrupted_from ne)
            (contents (store w) <$> ts)
            (contents (store w ++ ext) <$> news).
Proof.
  revert acc w. induction ts as [|t ts IH]; intros acc w Hts.
  - exists [], (py_random w), []. rewrite app_nil_r, world_store_nil.
    repeat split; constructor.
  - apply Forall_cons in Hts as [Ht Hts].
    destruct (corrupt_spec ne t c w Hne Hc Ht)
      as (new & gp1 & data1 & Hrun & Hnew & Hcor).
    set (w1 := mkWorld (np_random w) gp1 (store w ++ [data1])) in *.
    destruct (IH (acc ++ [new]) w1) as (news & gp' & ext & Hloop & Hnews & Hrel).
    { eapply Forall_impl; [exact Hts|]. intros t'. apply valid_row_app. }
    exists (new :: news), gp', (data1 :: ext).
    cbn [store np_random w1] in Hloop, Hnews, Hrel.
    rewrite <- !app_assoc in Hloop, Hnews, Hrel.
    cbn [app] in Hloop, Hnews, Hrel.
    split; [|split].
    + assert (body t acc (k, w) = (Ok (acc ++ [new]), (k, w1))) as Hbody.
      { unfold body. by rewrite bind_unfold, (in_world_ok _ _ _ _ _ Hrun). }
      rewrite for_each_cons, bind_unfold, Hbody, Hloop.
      by rewrite <- ?app_assoc.
    + constructor; [|done].
      replace (store w ++ data1 :: ext) with ((store w ++ [data1]) ++ ext)
        by (by rewrite <- app_assoc).
      by apply valid_row_app.
    + rewrite !fmap_cons. constructor.
      * replace (store w ++ data1 :: ext) with ((store w ++ [data1]) ++ ext)
          by (by rewrite <- app_assoc).
        rewrite contents_app; [done|]. by eapply valid_row_storage.
      * by rewrite (contents_fmap_app (store w) [data1] c) in Hrel.
Qed.

(** The outer loop: one block per repetition. *)
Lemma outer_loop_spec (rs : list Z) (ts acc : list Tensor)
    (k : One_to_K) (w : World) :
  Forall (valid_row (store w) c) ts →
  ∃ news gp' ext,
    for_each rs (λ _ acc, for_each ts body acc) acc (k, w) =
      (Ok (acc ++ news),
       (k, mkWorld (np_random w) gp' (store w ++ ext))) ∧
    Forall (valid_row (store w ++ ext) c) news ∧
    Forall2 (corrupted_from ne)
            (concat (replicate (length rs) (contents (store w) <$> ts)))
            (contents (store w ++ ext) <$> news).
Proof.
  revert acc w. induction rs as [|r rs IH]; intros acc w Hts.
  - exists [], (py_random w), []. rewrite app_nil_r, world_store_nil.
    repeat split; constructor.
  - destruct (inner_loop_spec ts acc k w Hts)
      as (news1 & gp1 & ext1 & Hrun1 & Hnews1 & Hrel1).
    set (w1 := mkWorld (np_random w) gp1 (store w ++ ext1)) in *.
    destruct (IH (acc ++ news1) w1) as (news2 & gp' & ext2 & Hrun2 & Hnews2 & Hrel2).
    { eapply Forall_impl; [exact Hts|]. intros t'. apply valid_row_app. }
    exists (news1 ++ news2), gp', (ext1 ++ ext2).
    cbn [store np_random w1] in Hrun2, Hnews2, Hrel2.
    rewrite <- !app_assoc in Hrun2, Hnews2, Hrel2.
    split; [|split].
    + rewrite for_each_cons, bind_unfold, Hrun1, Hrun2.
      by rewrite <- ?app_assoc.
    + apply Forall_app. split; [|done].
      rewrite app_assoc. eapply Forall_impl; [exact Hnews1|].
      intros t'. apply valid_row_app.
    + cbn [length replicate concat]. rewrite fmap_app.
      apply Forall2_app.
      * rewrite app_assoc. by rewrite (contents_fmap_app _ ext2 c).
      * by rewrite (contents_fmap_app (store w) ext1 c) in Hrel2.
Qed.

End sample_negative.

Lemma stack_ok (st : list (list Z)) (c : nat) (ts : list Tensor) :
  ts ≠ [] → Forall (valid_row st c) ts →
  stack ts st =
    (Ok (mkTensor (length st) 0 [length ts; c]),
     st ++ [concat (contents st <$> ts)]).
Proof.
  intros Hne Hts. unfold stack. destruct ts as [|t ts']; [done|].
  pose proof (Forall_inv Hts) as [Hsh _].
  assert (forallb (λ t', bool_decide (shape t' = shape t)) (t :: ts') = true)
    as ->.
  { apply forallb_forall. intros t' Hin%list_elem_of_In.
    apply bool_decide_eq_true. rewrite Forall_forall in Hts.
    destruct (Hts t' Hin) as [Hsh' _]. congruence. }
  by rewrite Hsh.
Qed.

Lemma length_concat_replicate {A} (n : nat) (l : list A) :
  length (concat (replicate n l)) = (n * length l)%nat.
Proof.
  induction n as [|n IH]; [done|].
  cbn [replicate concat]. rewrite length_app, IH. lia.
Qed.

Lemma length_range (n : Z) : length (range n) = Z.to_nat n.
Proof. unfold range. by rewrite length_fmap, length_seq. Qed.

(** What [_sample_negative] returns on a batch of [b] rows: a new
    matrix whose rows are corruptions of the batch rows, one block of
    [b] rows per repetition; the storages that existed before are
    untouched. *)
Lemma _sample_negative_spec (k : One_to_K) (w : World) (samples : Tensor)
    (b c : nat) :
  2 ≤ num_ents (super k) → (3 ≤ c)%nat → (1 ≤ b)%nat → 1 ≤ num_negative k →
  valid_matrix (store w) b c samples →
  ∃ neg gp' ext,
    One_to_K._sample_negative samples (k, w) =
      (Ok neg, (k, mkWorld (np_random w) gp' (store w ++ ext))) ∧
    shape neg = [(Z.to_nat (num_negative k) * b)%nat; c] ∧
    Forall2 (corrupted_from (num_ents (super k)))
      (concat (replicate (Z.to_nat (num_negative k))
                         (rows_of (store w) samples)))
      (rows_of (store w ++ ext) neg).
Proof.
  intros Hne Hc Hb Hnn Hvalid.
  pose proof (valid_iter_rows _ _ _ _ Hvalid) as Hrows.
  destruct Hvalid as (Hsh & _).
  destruct (outer_loop_spec (num_ents (super k)) c Hne Hc
              (range (num_negative k)) (iter_rows samples) [] k w Hrows)
    as (news & gp' & ext & Hrun & Hnews & Hrel).
  rewrite length_range, <- (rows_of_iter_rows _ _ b c Hsh) in Hrel.
  assert (length news = (Z.to_nat (num_negative k) * b)%nat) as Hlen.
  { apply Forall2_length in Hrel.
    rewrite length_fmap, length_concat_replicate in Hrel.
    rewrite (rows_of_iter_rows _ _ b c Hsh), length_fmap,
      (length_iter_rows _ b c Hsh) in Hrel. lia. }
  assert (news ≠ []) as Hnonempty.
  { intros ->. cbn in Hlen. nia. }
  set (st' := store w ++ ext) in *.
  exists (mkTensor (length st') 0 [length news; c]), gp',
    (ext ++ [concat (contents st' <$> news)]).
  split; [|split].
  - unfold One_to_K._sample_negative. rewrite bind_unfold. unfold get at 1.
    cbn [fst]. rewrite bind_unfold. cbn [app] in Hrun. rewrite Hrun.
    erewrite in_world_ok; [reflexivity|].
    erewrite with_store_ok; [|cbn [store]; by apply (stack_ok _ c)].
    cbn [np_random py_random]. unfold st'. by rewrite <- app_assoc.
  - cbn [shape]. by rewrite Hlen.
  - rewrite app_assoc. fold st'.
    rewrite <- (app_nil_r (st' ++ _)).
    rewrite <- (length_fmap (contents st') news).
    rewrite (rows_of_alloc st' [] _ c); [done|].
    apply Forall_fmap. eapply Forall_impl; [exact Hnews|].
    intros t. apply valid_row_length.
Qed.

Lemma long_row_concat (rows : list (list Z)) :
  long_row (concat rows) = concat (long_row <$> rows).
Proof.
  unfold long_row. induction rows as [|x l IH]; [done|].
  cbn [concat fmap list_fmap]. by rewrite fmap_app, IH.
Qed.

Lemma length_long_row (r : list Z) : length (long_row r) = length r.
Proof. unfold long_row. apply length_fmap. Qed.

Lemma tensor_of_rows_spec (rows : list (list Z)) (st : list (list Z)) (c : nat) :
  rows ≠ [] → Forall (λ r, length r = c) rows →
  ∃ t, tensor_of_rows rows st = (Ok t, st ++ [long_row (concat rows)]) ∧
       valid_matrix (st ++ [long_row (concat rows)]) (length rows) c t ∧
       ∀ ext, rows_of ((st ++ [long_row (concat rows)]) ++ ext) t =
                long_row <$> rows.
Proof.
  intros Hne Hrows. destruct rows as [|r rows']; [done|].
  pose proof (Forall_inv Hrows) as Hr. cbn beta in Hr.
  exists (mkTensor (length st) 0 [length (r :: rows'); c]).
  split; [|split].
  - unfold tensor_of_rows, alloc. by rewrite Hr.
  - split; [done|]. eexists. cbn [storage offset].
    split; [by rewrite lookup_app_r, Nat.sub_diag by lia|].
    rewrite length_long_row, (length_concat_uniform c) by done. lia.
  - intros ext. rewrite long_row_concat.
    rewrite <- (length_fmap long_row (r :: rows')).
    apply rows_of_alloc. apply Forall_fmap.
    eapply Forall_impl; [exact Hrows|]. intros x Hx. cbn.
    by rewrite length_long_row.
Qed.

Lemma py_slice_inside {A} (l : list A) (a b : Z) :
  0 ≤ a → a ≤ b → b ≤ py_len l →
  py_slice l a b = take (Z.to_nat (b - a)) (drop (Z.to_nat a) l).
Proof.
  intros Ha Hab Hb. unfold py_slice, slice_bound, py_len in *.
  destruct (a <? 0) eqn:Ea; [lia|]. destruct (b <? 0) eqn:Eb; [lia|].
  by rewrite !Z.min_l by lia.
Qed.

(** ** Batches of the pairwise sampler *)

Lemma get_trip_iter_ok {T} `{Extends T} (k : T) (w : World) (i : Z) :
  trip_iter (super k) = Some i → get_trip_iter (k, w) = (Ok i, (k, w)).
Proof.
  intros Hi. unfold get_trip_iter, self. rewrite bind_unfold. cbn [fst].
  by rewrite Hi.
Qed.

Lemma get_trip_iter_unset {T} `{Extends T} (k : T) (w : World) :
  trip_iter (super k) = None →
  get_trip_iter (k, w) = (Raise AttributeError, (k, w)).
Proof.
  intros Hi. unfold get_trip_iter, self. rewrite bind_unfold. cbn [fst].
  by rewrite Hi.
Qed.

Lemma One_to_K_increment_iter_ok (k : One_to_K) (w : World) (i : Z) :
  trip_iter (super k) = Some i →
  _increment_iter (k, w) =
    (Ok tt,
     (with_super
        (set_trip_iter (Z.min (i + bs (super k)) (py_len (triplets (super k))))
                       (super k)) k, w)).
Proof.
  intros Hi. unfold _increment_iter, One_to_K_class.
  by rewrite (bind_ok _ _ _ _ _ (get_trip_iter_ok k w i Hi)).
Qed.

Lemma One_to_N_increment_iter_ok (n : One_to_N) (w : World) (i : Z) :
  trip_iter (super n) = Some i →
  _increment_iter (n, w) =
    (Ok tt,
     (with_super
        (set_trip_iter (Z.min (i + bs (super n)) (py_len (keys (super n))))
                       (super n)) n, w)).
Proof.
  intros Hi. unfold _increment_iter, One_to_N_class.
  by rewrite (bind_ok _ _ _ _ _ (get_trip_iter_ok n w i Hi)).
Qed.

Lemma One_to_K_next_exhausted (k : One_to_K) (w : World) (i : Z) :
  trip_iter (super k) = Some i →
  i >= py_len (triplets (super k)) - 1 →
  One_to_K.__next__ (k, w) = (Raise StopIteration, (k, w)).
Proof.
  intros Hi Hge. unfold One_to_K.__next__.
  rewrite (bind_ok _ _ _ _ _ (get_trip_iter_ok k w i Hi)).
  rewrite bind_unfold. unfold self at 1. cbn [fst].
  by rewrite decide_True by done.
Qed.

(** A batch request below the exhaustion boundary: the positives are
    the next slice of the triplet sequence as a long tensor, the
    negatives are corruptions of the positives in blocks, and the
    position advances by the batch size, clamped to the length. *)
Lemma One_to_K_next_spec (k : One_to_K) (w : World) (i : Z) :
  trip_iter (super k) = Some i →
  0 ≤ i < py_len (triplets (super k)) - 1 →
  0 < bs (super k) → 2 ≤ num_ents (super k) → 1 ≤ num_negative k →
  let j := Z.min (i + bs (super k)) (py_len (triplets (super k))) in
  let batch :=
    take (Z.to_nat (j - i)) (drop (Z.to_nat i) (triplets (super k))) in
  ∃ pos neg gp' ext,
    One_to_K.__next__ (k, w) =
      (Ok (pos, neg),
       (with_super (set_trip_iter j (super k)) k,
        mkWorld (np_random w) gp' (store w ++ ext))) ∧
    shape pos = [length batch; 3%nat] ∧
    shape neg = [(Z.to_nat (num_negative k) * length batch)%nat; 3%nat] ∧
    rows_of (store w ++ ext) pos = long_row <$> (list_of_triplet <$> batch) ∧
    Forall2 (corrupted_from (num_ents (super k)))
      (concat (replicate (Z.to_nat (num_negative k))
                         (rows_of (store w ++ ext) pos)))
      (rows_of (store w ++ ext) neg).
Proof.
  intros Hi Hrange Hbs Hne Hnn j batch.
  set (n := py_len (triplets (super k))) in *.
  set (rows := list_of_triplet <$> batch).
  assert (length batch = Z.to_nat (j - i)) as Hblen.
  { unfold batch. rewrite length_take, length_drop.
    unfold j, n, py_len in *. lia. }
  assert (rows ≠ []) as Hrows_ne.
  { intros Hnil. apply (f_equal length) in Hnil. unfold rows in Hnil.
    rewrite length_fmap, Hblen in Hnil. cbn in Hnil. unfold j in Hnil. lia. }
  assert (Forall (λ r, length r = 3%nat) rows) as Hrows3.
  { unfold rows. apply Forall_fmap, Forall_forall. by intros t _. }
  destruct (tensor_of_rows_spec rows (store w) 3 Hrows_ne Hrows3)
    as (pos & Hpos & Hvalid & Hread).
  set (st1 := store w ++ [long_row (concat rows)]) in *.
  set (w1 := mkWorld (np_random w) (py_random w) st1).
  destruct (_sample_negative_spec k w1 pos (length rows) 3)
    as (neg & gp' & ext & Hneg & Hnsh & Hrel); [done|lia| |done|done|].
  { destruct rows; [done|cbn; lia]. }
  exists pos, neg, gp', (long_row (concat rows) :: ext).
  cbn [store np_random w1] in Hneg, Hrel. unfold st1 in Hneg, Hrel.
  rewrite <- !app_assoc in Hneg, Hrel. cbn [app] in Hneg, Hrel.
  assert (length rows = length batch) as Hrl
    by (unfold rows; by rewrite length_fmap).
  split; [|split; [|split; [|split]]].
  - unfold One_to_K.__next__.
    rewrite (bind_ok _ _ _ _ _ (get_trip_iter_ok k w i Hi)).
    rewrite bind_unfold. unfold self at 1. cbn [fst].
    rewrite decide_False by (fold n; lia).
    fold n. fold j. rewrite py_slice_inside by (unfold j, n in *; lia).
    fold batch. fold rows.
    rewrite (bind_ok _ _ _ _ _
               (in_world_ok _ k _ _ _ (with_store_ok _ w _ _ Hpos))).
    fold st1. fold w1. rewrite (bind_ok _ _ _ _ _ Hneg).
    rewrite bind_unfold, (One_to_K_increment_iter_ok _ _ i Hi). done.
  - destruct Hvalid as [Hsh _]. by rewrite Hsh, Hrl.
  - by rewrite Hnsh, Hrl.
  - replace (store w ++ long_row (concat rows) :: ext)
      with (st1 ++ ext) by (unfold st1; by rewrite <- app_assoc).
    apply Hread.
  - replace (store w ++ long_row (concat rows) :: ext)
      with (st1 ++ ext) by (unfold st1; by rewrite <- app_assoc).
    rewrite Hread. rewrite <- (Hread []), app_nil_r.
    replace (st1 ++ ext) with (store w ++ long_row (concat rows) :: ext)
      by (unfold st1; by rewrite <- app_assoc).
    done.
Qed.

Lemma lookup_concat_replicate {A} (n : nat) (l : list A) (j : nat) :
  (j < n * length l)%nat →
  concat (replicate n l) !! j = l !! (j `mod` length l)%nat.
Proof.
  revert j. induction n as [|n IH]; intros j Hj; [lia|].
  cbn [replicate concat].
  destruct (decide (j < length l)%nat) as [Hlt|Hge].
  - rewrite lookup_app_l by done. by rewrite Nat.mod_small.
  - rewrite lookup_app_r by lia. rewrite IH by lia. f_equal.
    replace j with ((j - length l) + 1 * length l)%nat at 2 by lia.
    by rewrite Nat.Div0.mod_add.
Qed.

(** A corruption changes exactly one of head and tail. *)
Lemma corrupted_from_one_differs (ne : Z) (pos neg : list Z) :
  length pos = 3%nat → corrupted_from ne pos neg →
  length neg = 3%nat ∧
  neg !! 1%nat = pos !! 1%nat ∧
  ((neg !! 0%nat ≠ pos !! 0%nat ∧ neg !! 2%nat = pos !! 2%nat) ∨
   (neg !! 0%nat = pos !! 0%nat ∧ neg !! 2%nat ≠ pos !! 2%nat)).
Proof.
  intros Hlen (ht & v & Hht & -> & Hneq & _).
  rewrite length_insert. split; [done|].
  destruct Hht as [-> | ->].
  - split; [by rewrite list_lookup_insert_ne|]. left.
    split; [|by rewrite list_lookup_insert_ne].
    rewrite list_lookup_insert_eq by lia. congruence.
  - split; [by rewrite list_lookup_insert_ne|]. right.
    split; [by rewrite list_lookup_insert_ne|].
    rewrite list_lookup_insert_eq by lia. congruence.
Qed.

Lemma valid_matrix_rows_length (st : list (list Z)) (b c : nat) (t : Tensor) :
  valid_matrix st b c t →
  length (rows_of st t) = b ∧ Forall (λ r, length r = c) (rows_of st t).
Proof.
  intros Hvalid. pose proof (valid_iter_rows _ _ _ _ Hvalid) as Hrows.
  destruct Hvalid as (Hsh & _).
  rewrite (rows_of_iter_rows _ _ b c Hsh). split.
  - by rewrite length_fmap, (length_iter_rows _ b c).
  - apply Forall_fmap. eapply Forall_impl; [exact Hrows|].
    intros r. apply valid_row_length.
Qed.

(** C4: every negative triplet the pairwise sampler generates differs
    from its source positive in exactly one of head (position 0) and
    tail (position 2), the relation being kept; the replacement is
    never the original value at the corrupted position and lies in
    [0, num_ents). The negative at position [j] has the positive at
    position [j mod b] as its source. *)
Theorem negative_corrupts_head_or_tail
    (k : One_to_K) (w : World) (samples : Tensor) (b : nat) :
  2 ≤ num_ents (super k) → 1 ≤ num_negative k → (1 ≤ b)%nat →
  valid_matrix (store w) b 3 samples →
  ∃ neg w',
    One_to_K._sample_negative samples (k, w) = (Ok neg, (k, w')) ∧
    ∀ (j : nat) (negative : list Z),
      rows_of (store w') neg !! j = Some negative →
      ∃ positive,
        rows_of (store w) samples !! (j `mod` b)%nat = Some positive ∧
        negative !! 1%nat = positive !! 1%nat ∧
        ((negative !! 0%nat ≠ positive !! 0%nat ∧
          negative !! 2%nat = positive !! 2%nat) ∨
         (negative !! 0%nat = positive !! 0%nat ∧
          negative !! 2%nat ≠ positive !! 2%nat)) ∧
        ∃ (head_tail : nat) (replacement : Z),
          (head_tail = 0 ∨ head_tail = 2)%nat ∧
          negative = <[head_tail := replacement]> positive ∧
          positive !! head_tail ≠ Some replacement ∧
          0 ≤ replacement < num_ents (super k).
Proof.
  intros Hne Hnn Hb Hvalid.
  destruct (_sample_negative_spec k w samples b 3 Hne ltac:(lia) Hb Hnn Hvalid)
    as (neg & gp' & ext & Hrun & _ & Hrel).
  destruct (valid_matrix_rows_length _ _ _ _ Hvalid) as [Hlen Hrows3].
  eexists neg, _. split; [exact Hrun|]. cbn [store].
  intros j negative Hj.
  destruct (Forall2_lookup_r _ _ _ _ _ Hrel Hj) as (positive & Hpos & Hcor).
  pose proof (lookup_lt_Some _ _ _ Hpos) as Hjlt.
  rewrite length_concat_replicate in Hjlt.
  rewrite lookup_concat_replicate in Hpos by done. rewrite Hlen in Hpos.
  exists positive. split; [done|].
  assert (length positive = 3%nat) as Hp3.
  { rewrite Forall_forall in Hrows3. apply Hrows3.
    by eapply list_elem_of_lookup_2. }
  destruct (corrupted_from_one_differs _ _ _ Hp3 Hcor) as (_ & Hrel1 & Hone).
  done.
Qed.

(** The statement at the example batch of two triplets. *)
Lemma negative_corrupts_head_or_tail_witness :
  ∃ neg w',
    One_to_K._sample_negative example_batch (example_sampler, example_world) =
      (Ok neg, (example_sampler, w')) ∧
    ∀ (j : nat) (negative : list Z),
      rows_of (store w') neg !! j = Some negative →
      ∃ positive,
        rows_of (store example_world) example_batch !! (j `mod` 2)%nat =
          Some positive ∧
        negative !! 1%nat = positive !! 1%nat ∧
        ((negative !! 0%nat ≠ positive !! 0%nat ∧
          negative !! 2%nat = positive !! 2%nat) ∨
         (negative !! 0%nat = positive !! 0%nat ∧
          negative !! 2%nat ≠ positive !! 2%nat)) ∧
        ∃ (head_tail : nat) (replacement : Z),
          (head_tail = 0 ∨ head_tail = 2)%nat ∧
          negative = <[head_tail := replacement]> positive ∧
          positive !! head_tail ≠ Some replacement ∧
          0 ≤ replacement < 3.
Proof.
  apply (negative_corrupts_head_or_tail example_sampler example_world
           example_batch 2).
  - simpl. lia.
  - simpl. lia.
  - lia.
  - split; [reflexivity|]. eexists. split; [reflexivity|]. simpl. lia.
Defined.

(** C5: for a batch of [b] positives the negatives are exactly
    [b * num_negative] rows, ordered block-major by repetition: the
    corruptions of the whole batch, in batch order, for repetition 1,
    then those for repetition 2, and so on; the negative at position
    [rep * b + i] is a corruption of the positive at position [i]. *)
Theorem negatives_block_major
    (k : One_to_K) (w : World) (samples : Tensor) (b : nat) :
  2 ≤ num_ents (super k) → 1 ≤ num_negative k → (1 ≤ b)%nat →
  valid_matrix (store w) b 3 samples →
  ∃ neg w',
    One_to_K._sample_negative samples (k, w) = (Ok neg, (k, w')) ∧
    Z.of_nat (length (rows_of (store w') neg)) =
      Z.of_nat b * num_negative k ∧
    Forall2 (corrupted_from (num_ents (super k)))
      (concat (replicate (Z.to_nat (num_negative k))
                         (rows_of (store w) samples)))
      (rows_of (store w') neg) ∧
    ∀ (rep i : nat),
      Z.of_nat rep < num_negative k → (i < b)%nat →
      ∃ positive negative,
        rows_of (store w) samples !! i = Some positive ∧
        rows_of (store w') neg !! (rep * b + i)%nat = Some negative ∧
        corrupted_from (num_ents (super k)) positive negative.
Proof.
  intros Hne Hnn Hb Hvalid.
  destruct (_sample_negative_spec k w samples b 3 Hne ltac:(lia) Hb Hnn Hvalid)
    as (neg & gp' & ext & Hrun & _ & Hrel).
  destruct (valid_matrix_rows_length _ _ _ _ Hvalid) as [Hlen _].
  eexists neg, _. split; [exact Hrun|]. cbn [store].
  pose proof (Forall2_length _ _ _ Hrel) as Hlen'.
  rewrite length_concat_replicate, Hlen in Hlen'.
  split; [nia|]. split; [done|].
  intros rep i Hrep Hi.
  destruct (lookup_lt_is_Some_2 (rows_of (store w) samples) i)
    as [positive Hpos]; [lia|].
  assert (concat (replicate (Z.to_nat (num_negative k))
                            (rows_of (store w) samples))
            !! (rep * b + i)%nat = Some positive) as Hsrc.
  { rewrite lookup_concat_replicate by (rewrite Hlen; nia).
    rewrite Hlen. rewrite Nat.add_comm, Nat.Div0.mod_add.
    by rewrite Nat.mod_small. }
  destruct (Forall2_lookup_l _ _ _ _ _ Hrel Hsrc) as (negative & Hneg & Hcor).
  by exists positive, negative.
Qed.

(** Two triplets, two repetitions: four negatives. *)
Lemma negatives_block_major_witness :
  ∃ neg w',
    One_to_K._sample_negative example_batch (example_sampler, example_world) =
      (Ok neg, (example_sampler, w')) ∧
    Z.of_nat (length (rows_of (store w') neg)) = 4.
Proof.
  destruct (negatives_block_major example_sampler example_world
              example_batch 2) as (neg & w' & Hrun & Hlen & _).
  - simpl. lia.
  - simpl. lia.
  - lia.
  - split; [reflexivity|]. eexists. split; [reflexivity|]. simpl. lia.
  - exists neg, w'. split; [exact Hrun|]. exact Hlen.
Defined.

(** ** The positives of a batch *)

Lemma round_to_bits_exact (p z : Z) :
  Z.abs z < 2 ^ p → round_to_bits p z = z.
Proof.
  intros Hz. unfold round_to_bits.
  by destruct (Z.abs z <? 2 ^ p) eqn:E; [|lia].
Qed.

(** Ids below [2^24] in magnitude pass through the float tensor
    unchanged. *)
Lemma float_tensor_long_exact (z : Z) :
  Z.abs z < 2 ^ 24 → float_tensor_long z = z.
Proof.
  intros Hz. unfold float_tensor_long.
  rewrite (round_to_bits_exact 53) by lia. by apply round_to_bits_exact.
Qed.

Lemma long_row_exact (r : list Z) :
  Forall (λ z, Z.abs z < 2 ^ 24) r → long_row r = r.
Proof.
  unfold long_row. induction 1 as [|z r Hz _ IH]; [done|].
  cbn [fmap list_fmap]. rewrite float_tensor_long_exact by done.
  f_equal. exact IH.
Qed.

(** Negative sampling never writes to the positives: after
    [__next__] the positive batch reads as the long tensor built from
    the slice, every storage that existed before the call is as it
    was, and the triplet sequence is the same. Where the ids of the
    slice are below [2^24] in magnitude the positive batch is the slice
    itself. *)
Lemma next_positives_frame (k : One_to_K) (w : World) (i : Z) :
  trip_iter (super k) = Some i →
  0 ≤ i < py_len (triplets (super k)) - 1 →
  0 < bs (super k) → 2 ≤ num_ents (super k) → 1 ≤ num_negative k →
  let slice :=
    py_slice (triplets (super k)) i
             (Z.min (i + bs (super k)) (py_len (triplets (super k)))) in
  ∃ pos neg k' w',
    One_to_K.__next__ (k, w) = (Ok (pos, neg), (k', w')) ∧
    triplets (super k') = triplets (super k) ∧
    (∀ l data, store w !! l = Some data → store w' !! l = Some data) ∧
    rows_of (store w') pos = long_row <$> (list_of_triplet <$> slice) ∧
    (Forall (λ t, Forall (λ z, Z.abs z < 2 ^ 24) (list_of_triplet t)) slice →
     rows_of (store w') pos = list_of_triplet <$> slice).
Proof.
  intros Hi Hrange Hbs Hne Hnn slice.
  destruct (One_to_K_next_spec k w i Hi Hrange Hbs Hne Hnn)
    as (pos & neg & gp' & ext & Hrun & _ & _ & Hpos & _).
  assert (slice = take (Z.to_nat (Z.min (i + bs (super k))
                                        (py_len (triplets (super k))) - i))
                       (drop (Z.to_nat i) (triplets (super k)))) as Hslice.
  { unfold slice. apply py_slice_inside; unfold py_len in *; lia. }
  rewrite <- Hslice in Hpos.
  eexists pos, neg, _, _. split; [exact Hrun|]. cbn [store].
  split; [done|]. split; [|split; [done|]].
  - intros l data Hl. rewrite lookup_app_l; [done|]. by eapply lookup_lt_Some.
  - intros Hsmall. rewrite Hpos. clear -Hsmall.
    induction Hsmall as [|t l Ht _ IH]; [done|].
    cbn [fmap list_fmap]. rewrite long_row_exact by done. f_equal. exact IH.
Qed.


(** ** Batch count and exhaustion *)

Lemma set_trip_iter_same (k : One_to_K) (i : Z) :
  trip_iter (super k) = Some i →
  with_super (set_trip_iter i (super k)) k = k.
Proof. destruct k as [[] ?]. cbn. by intros ->. Qed.

Lemma repeatM_S {S A} (n : nat) (m : Py S A) :
  repeatM (Datatypes.S n) m = (x ← m; xs ← repeatM n m; mret (x :: xs)).
Proof. done. Qed.

(** From position [j * bs], [m] batch requests that stay within the
    counted batches all return full batches. *)
Lemma One_to_K_full_batches (m : nat) (k : One_to_K) (w : World) (j q r : Z) :
  trip_iter (super k) = Some (j * bs (super k)) →
  0 < bs (super k) → 2 ≤ num_ents (super k) → 1 ≤ num_negative k →
  0 ≤ j → j + Z.of_nat m ≤ q → 1 ≤ r →
  py_len (triplets (super k)) = q * bs (super k) + r →
  ∃ batches gp' ext,
    repeatM m One_to_K.__next__ (k, w) =
      (Ok batches,
       (with_super
          (set_trip_iter ((j + Z.of_nat m) * bs (super k)) (super k)) k,
        mkWorld (np_random w) gp' (store w ++ ext))) ∧
    length batches = m ∧
    Forall (λ b, shape b.1 = [Z.to_nat (bs (super k)); 3%nat]) batches.
Proof.
  revert k w j. induction m as [|m IH]; intros k w j Hi Hbs Hne Hnn Hj Hjm Hr Hlen.
  - exists [], (py_random w), []. rewrite world_store_nil.
    replace (j + Z.of_nat 0) with j by lia.
    rewrite set_trip_iter_same by done. by repeat split.
  - assert (0 ≤ j * bs (super k)) as Hpos0 by nia.
    assert ((j + 1) * bs (super k) ≤ q * bs (super k)) as Hnext by nia.
    destruct (One_to_K_next_spec k w (j * bs (super k)) Hi)
      as (pos & neg & gp1 & ext1 & Hrun & Hpsh & _ & _ & _);
      [lia|done..|].
    assert (Z.min (j * bs (super k) + bs (super k))
                  (py_len (triplets (super k)))
            = (j + 1) * bs (super k)) as Hmin by lia.
    rewrite Hmin in Hrun, Hpsh.
    set (k1 := with_super (set_trip_iter ((j + 1) * bs (super k)) (super k)) k)
      in *.
    set (w1 := mkWorld (np_random w) gp1 (store w ++ ext1)) in *.
    destruct (IH k1 w1 (j + 1)) as (batches & gp' & ext & Hrest & Hblen & Hfull);
      [done..|lia|lia|done|done|].
    exists ((pos, neg) :: batches), gp', (ext1 ++ ext).
    split; [|split].
    + rewrite repeatM_S, (bind_ok _ _ _ _ _ Hrun), (bind_ok _ _ _ _ _ Hrest).
      cbn [mret Py_ret]. unfold k1, w1, set_trip_iter. cbn.
      rewrite <- app_assoc. do 5 f_equal. lia.
    + cbn. by rewrite Hblen.
    + constructor; [|exact Hfull]. cbn [fst]. rewrite Hpsh. do 2 f_equal.
      rewrite length_take, length_drop. unfold py_len in *. nia.
Qed.

Lemma One_to_K_len_ok (k : One_to_K) (w : World) :
  bs (super k) ≠ 0 →
  One_to_K.__len__ (k, w) =
    (Ok (py_len (triplets (super k)) / bs (super k)), (k, w)).
Proof.
  intros Hbs. unfold One_to_K.__len__. rewrite bind_unfold. unfold self at 1.
  cbn [fst]. by rewrite decide_False by done.
Qed.

(** C2, as stated, fails when the remainder is 1: three triplets in
    batches of two count one batch, and after that one full batch the
    next request signals exhaustion instead of yielding the last
    triplet. *)
Lemma partial_batch_counterexample :
  py_len (triplets (super example_sampler)) `mod` bs (super example_sampler) ≠ 0 ∧
  One_to_K.__len__ (example_sampler, example_world) =
    (Ok 1, (example_sampler, example_world)) ∧
  ∃ batch s,
    One_to_K.__next__ (example_sampler, example_world) = (Ok batch, s) ∧
    One_to_K.__next__ s = (Raise StopIteration, s).
Proof.
  split; [done|]. split; [by rewrite One_to_K_len_ok|].
  destruct (One_to_K_next_spec example_sampler example_world 0)
    as (pos & neg & gp' & ext & Hrun & _); [done|by cbn|by cbn|by cbn|by cbn|].
  eexists (pos, neg), _. split; [exact Hrun|].
  by apply (One_to_K_next_exhausted _ _ 2).
Qed.

(** The pairwise sampler over [q * bs + r] triplets, [0 < r < bs]. *)
Lemma One_to_K_final_partial (k : One_to_K) (w : World) (q r : Z) :
  trip_iter (super k) = Some 0 →
  0 < bs (super k) → 2 ≤ num_ents (super k) → 1 ≤ num_negative k →
  0 ≤ q → 0 < r < bs (super k) →
  py_len (triplets (super k)) = q * bs (super k) + r →
  One_to_K.__len__ (k, w) = (Ok q, (k, w)) ∧
  ∃ batches s,
    repeatM (Z.to_nat q) One_to_K.__next__ (k, w) = (Ok batches, s) ∧
    length batches = Z.to_nat q ∧
    Forall (λ b, shape b.1 = [Z.to_nat (bs (super k)); 3%nat]) batches ∧
    (2 ≤ r →
     ∃ pos neg s',
       One_to_K.__next__ s = (Ok (pos, neg), s') ∧
       shape pos = [Z.to_nat r; 3%nat] ∧
       One_to_K.__next__ s' = (Raise StopIteration, s')) ∧
    (r = 1 → One_to_K.__next__ s = (Raise StopIteration, s)).
Proof.
  intros Hi Hbs Hne Hnn Hq Hr Hlen. split.
  - rewrite One_to_K_len_ok by lia. do 2 f_equal. rewrite Hlen.
    rewrite Z.add_comm, Z.div_add by lia. rewrite Z.div_small by lia. lia.
  - destruct (One_to_K_full_batches (Z.to_nat q) k w 0 q r)
      as (batches & gp' & ext & Hrun & Hblen & Hfull); [done..|lia|lia|lia|done|].
    replace (0 + Z.of_nat (Z.to_nat q)) with q in Hrun by lia.
    set (kq := with_super (set_trip_iter (q * bs (super k)) (super k)) k) in *.
    set (wq := mkWorld (np_random w) gp' (store w ++ ext)) in *.
    exists batches, (kq, wq). split; [done|]. split; [done|]. split; [done|].
    assert (0 ≤ q * bs (super k)) as Hqbs by nia.
    split.
    + intros Hr2.
      destruct (One_to_K_next_spec kq wq (q * bs (super k)))
        as (pos & neg & gp2 & ext2 & Hnext & Hpsh & _);
        [done|cbn in *; lia|done..|].
      assert (Z.min (q * bs (super k) + bs (super kq))
                    (py_len (triplets (super kq)))
              = py_len (triplets (super k))) as Hmin by (cbn in *; lia).
      rewrite Hmin in Hnext, Hpsh.
      eexists pos, neg, _. split; [exact Hnext|]. split.
      * rewrite Hpsh. do 2 f_equal. rewrite length_take, length_drop.
        cbn in *. unfold py_len in *. lia.
      * apply (One_to_K_next_exhausted _ _ (py_len (triplets (super k))));
          [done|cbn in *; lia].
    + intros ->. apply (One_to_K_next_exhausted _ _ (q * bs (super k)));
        [done|cbn in *; lia].
Qed.


(** ** Construction *)

Lemma One_to_K_init_run (l : list Triplet) (b n : Z) (dev : string)
    (nn : Z) (inv : bool) (w : World) :
  ∃ l' g',
    One_to_K.__init__ l b n dev nn inv w =
      (Ok (mkOne_to_K (set_triplets l' (Sampler_init l b n dev inv)) nn),
       mkWorld g' (py_random w) (store w)) ∧
    l' ≡ₚ l.
Proof.
  destruct (np_random_shuffle_perm l (np_random w)) as (l' & g' & Hrun & Hperm).
  exists l', g'. split; [|done].
  unfold One_to_K.__init__, construct, _shuffle, One_to_K_class.
  rewrite bind_unfold. unfold self at 1. cbn [fst super One_to_K_extends K_super].
  rewrite (bind_ok _ _ _ _ _
             (in_world_ok _ _ _ _ _ (with_np_ok _ w _ _ Hrun))).
  done.
Qed.

Lemma One_to_N_init_run (l : list Triplet) (b n : Z) (dev : string)
    (inv : bool) (w : World) :
  ∃ ks g',
    One_to_N.__init__ l b n dev inv w =
      (Ok (mkOne_to_N (set_keys ks (Sampler_init l b n dev inv))),
       mkWorld g' (py_random w) (store w)) ∧
    ks ≡ₚ DefaultDict.keys (_build_index l inv).
Proof.
  destruct (np_random_shuffle_perm (DefaultDict.keys (_build_index l inv))
              (np_random w)) as (ks & g' & Hrun & Hperm).
  exists ks, g'. split; [|done].
  unfold One_to_N.__init__, construct, _shuffle, One_to_N_class.
  rewrite bind_unfold. unfold self at 1. cbn [fst super One_to_N_extends N_super].
  rewrite (bind_ok _ _ _ _ _
             (in_world_ok _ _ _ _ _ (with_np_ok _ w _ _ Hrun))).
  done.
Qed.

(** C6, as stated, fails: with batch_size = 0, num_ents = 0 and no
    triplet at all, both constructors return a sampler. *)
Lemma construction_counterexample :
  One_to_K.__init__ [] 0 0 "cpu" 1 false example_world =
    (Ok (mkOne_to_K (mkSampler 0 [] 0 false "cpu" [] [] None) 1),
     example_world) ∧
  One_to_N.__init__ [] 0 0 "cpu" false example_world =
    (Ok (mkOne_to_N (mkSampler 0 [] 0 false "cpu" [] [] None)),
     example_world).
Proof. split; reflexivity. Qed.

(** C6 (amended): construction performs no validation and never
    fails. For every triplet list (the empty one included), every
    batch_size and every num_ents (zero and negative values included)
    both constructors return a sampler that holds the given
    batch_size and num_ents, the index built from the triplets, and the
    shuffled sequence; no error is raised at construction. *)
Theorem construction_never_fails (l : list Triplet) (b n : Z) (dev : string)
    (nn : Z) (inv : bool) (w : World) :
  (∃ k w',
     One_to_K.__init__ l b n dev nn inv w = (Ok k, w') ∧
     bs (super k) = b ∧ num_ents (super k) = n ∧ num_negative k = nn ∧
     index (super k) = _build_index l inv ∧
     triplets (super k) ≡ₚ l) ∧
  (∃ k w',
     One_to_N.__init__ l b n dev inv w = (Ok k, w') ∧
     bs (super k) = b ∧ num_ents (super k) = n ∧
     index (super k) = _build_index l inv ∧
     triplets (super k) = l ∧
     keys (super k) ≡ₚ DefaultDict.keys (_build_index l inv)).
Proof.
  split.
  - destruct (One_to_K_init_run l b n dev nn inv w) as (l' & g' & -> & Hperm).
    eexists _, _. split; [done|]. by cbn.
  - destruct (One_to_N_init_run l b n dev inv w) as (ks & g' & -> & Hperm).
    eexists _, _. split; [done|]. by cbn.
Qed.

(** What the missing validation leads to: a zero batch size makes
    [len()] fail with a division error, and over an empty triplet list
    the first batch request signals exhaustion. *)
Lemma One_to_K_len_zero_batch_size (k : One_to_K) (w : World) :
  bs (super k) = 0 →
  One_to_K.__len__ (k, w) = (Raise ZeroDivisionError, (k, w)).
Proof.
  intros Hbs. unfold One_to_K.__len__. rewrite bind_unfold. unfold self at 1.
  cbn [fst]. by rewrite decide_True by done.
Qed.

Lemma One_to_K_next_empty (k : One_to_K) (w : World) :
  triplets (super k) = [] →
  (__iter__ ;; One_to_K.__next__) (k, w) =
    (Raise StopIteration, (with_super (set_trip_iter 0 (super k)) k, w)).
Proof.
  intros Hnil. unfold __iter__. rewrite bind_unfold. unfold update, modify.
  cbn [fst snd]. apply (One_to_K_next_exhausted _ _ 0); [done|].
  cbn in *. rewrite Hnil. by cbn.
Qed.

Lemma One_to_K_iter_run (k : One_to_K) (w : World) :
  __iter__ (k, w) = (Ok tt, (with_super (set_trip_iter 0 (super k)) k, w)).
Proof. done. Qed.

(** C10, the failing input: a pairwise sampler over
    [big_id_triplets] with batch size 3, for any state of the
    generators. The first batch after [__iter__] is the whole shuffled
    sequence, which holds the triplet (16777217, 0, 1); the positive
    batch is built through a single-precision tensor, so it holds the
    row (16777216, 0, 1) = (2^24, 0, 1) and no row (16777217, 0, 1). *)
Lemma next_positive_batch_rounded (w : World) :
  ∃ k w1 pos neg k' w',
    One_to_K.__init__ big_id_triplets 3 16777218 "cpu" 1 false w =
      (Ok k, w1) ∧
    (__iter__ ;; One_to_K.__next__) (k, w1) = (Ok (pos, neg), (k', w')) ∧
    mkTriplet 16777217 0 1 ∈ py_slice (triplets (super k)) 0 3 ∧
    [16777216; 0; 1] ∈ rows_of (store w') pos ∧
    [16777217; 0; 1] ∉ rows_of (store w') pos.
Proof.
  destruct (One_to_K_init_run big_id_triplets 3 16777218 "cpu" 1 false w)
    as (l' & g' & Hinit & Hperm).
  set (k := mkOne_to_K
              (set_triplets l' (Sampler_init big_id_triplets 3 16777218
                                             "cpu" false)) 1) in *.
  set (w1 := mkWorld g' (py_random w) (store w)) in *.
  set (k0 := with_super (set_trip_iter 0 (super k)) k).
  pose proof (Permutation_length Hperm) as Hlen. cbn in Hlen.
  destruct (One_to_K_next_spec k0 w1 0)
    as (pos & neg & gp' & ext & Hrun & _ & _ & Hpos & _);
    [done|unfold k0, k; cbn; unfold py_len; lia|by unfold k0, k; cbn..|].
  assert (take (Z.to_nat (Z.min (0 + bs (super k0))
                                (py_len (triplets (super k0))) - 0))
               (drop (Z.to_nat 0) (triplets (super k0))) = l') as Hslice.
  { unfold k0, k. cbn. unfold py_len. rewrite Hlen.
    replace (Z.to_nat 0) with 0%nat by lia. rewrite drop_0.
    apply take_ge. lia. }
  rewrite Hslice in Hpos.
  eexists k, w1, pos, neg, _, _. split; [exact Hinit|].
  split; [by rewrite (bind_ok _ _ _ _ _ (One_to_K_iter_run k w1))|].
  cbn [store]. rewrite Hpos. split; [|split].
  - unfold k. cbn. unfold py_slice, slice_bound. cbn. rewrite Hlen.
    replace (Z.to_nat 0) with 0%nat by lia. rewrite drop_0.
    rewrite take_ge by lia. rewrite Hperm. by left.
  - apply list_elem_of_fmap. exists [16777217; 0; 1]. split; [done|].
    apply list_elem_of_fmap. exists (mkTriplet 16777217 0 1).
    split; [done|]. rewrite Hperm. by left.
  - intros (r & Hr & (t & -> & Ht)%list_elem_of_fmap)%list_elem_of_fmap.
    rewrite Hperm in Ht. unfold big_id_triplets in Ht.
    repeat (apply elem_of_cons in Ht as [->|Ht]); [by vm_compute in Hr..|].
    by apply elem_of_nil in Ht.
Qed.

(** ** Labels of the multi-label sampler *)

(** C1, the failing input: the scenario in non-inverse mode. The
    first batch after [__iter__] holds the keys ("head",0,2) and
    ("tail",1,0), whose buckets are [1] and [2]; the array built from
    the batch has a unicode dtype, its rows read back as
    ("head","0","2") and ("tail","1","0"), no such key is in the
    index, and the label matrix is all zeros. *)
Lemma non_inverse_labels_all_zero :
  ∃ n w batch s',
    One_to_N.__init__ scenario_triplets 2 3 "cpu" false example_world =
      (Ok n, w) ∧
    py_slice (keys (super n)) 0 2 = [head_key 0 2; tail_key 1 0] ∧
    DefaultDict.peek (index (super n)) (head_key 0 2) = [1] ∧
    DefaultDict.peek (index (super n)) (tail_key 1 0) = [2] ∧
    (__iter__ ;; One_to_N.__next__) (n, w) = (Ok batch, s') ∧
    One_to_N.batch_lbls batch = [[0; 0; 0]; [0; 0; 0]].
Proof.
  eexists _, _, _, _. split; [vm_compute; reflexivity|].
  split; [vm_compute; reflexivity|].
  split; [vm_compute; reflexivity|].
  split; [vm_compute; reflexivity|].
  split; [vm_compute; reflexivity|].
  reflexivity.
Qed.

(** In inverse mode the same scenario gives the labels the index
    prescribes: the keys (0,1) and (1,0) both have the bucket [2]. *)
Lemma inverse_labels_scenario :
  ∃ n w batch s',
    One_to_N.__init__ scenario_triplets 2 3 "cpu" true example_world =
      (Ok n, w) ∧
    py_slice (keys (super n)) 0 2 = [inverse_key 0 1; inverse_key 1 0] ∧
    DefaultDict.peek (index (super n)) (inverse_key 0 1) = [2] ∧
    DefaultDict.peek (index (super n)) (inverse_key 1 0) = [2] ∧
    (__iter__ ;; One_to_N.__next__) (n, w) = (Ok batch, s') ∧
    One_to_N.batch_lbls batch = [[0; 0; 1]; [0; 0; 1]].
Proof.
  eexists _, _, _, _. split; [vm_compute; reflexivity|].
  split; [vm_compute; reflexivity|].
  split; [vm_compute; reflexivity|].
  split; [vm_compute; reflexivity|].
  split; [vm_compute; reflexivity|].
  reflexivity.
Qed.

(** C7, the failing input: the same non-inverse batch request. The
    two lookups of the label construction miss, the dict inserts both
    missing keys with an empty list, and [len()], which counts the
    entries of the index, goes from 3 to 4. *)
Lemma index_grows_on_label_construction :
  ∃ n w batch n' w',
    One_to_N.__init__ scenario_triplets 2 3 "cpu" false example_world =
      (Ok n, w) ∧
    (__iter__ ;; One_to_N.__next__) (n, w) = (Ok batch, (n', w')) ∧
    index (super n') =
      index (super n) ++
        [([PStr "head"; PStr "0"; PStr "2"], []);
         ([PStr "tail"; PStr "1"; PStr "0"], [])] ∧
    One_to_N.__len__ (n, w) = (Ok 3, (n, w)) ∧
    One_to_N.__len__ (n', w') = (Ok 4, (n', w')).
Proof.
  eexists _, _, _, _, _. split; [vm_compute; reflexivity|].
  split; [vm_compute; reflexivity|].
  split; [vm_compute; reflexivity|].
  split; vm_compute; reflexivity.
Qed.

(** Label construction for a key that is absent from the index, in
    inverse mode: the key (5,5) is inserted. *)
Lemma index_grows_on_absent_key (w : World) :
  let n := mkOne_to_N (Sampler_init scenario_triplets 2 3 "cpu" true) in
  ∃ n',
    _get_labels [[PInt 5; PInt 5]] (n, w) = (Ok [[0; 0; 0]], (n', w)) ∧
    index (super n') = index (super n) ++ [([PInt 5; PInt 5], [])].
Proof.
  intros n. eexists. split; [by destruct w|reflexivity].
Qed.

(** ** Invariants of the sampler across calls *)

Section keeps.
Context {S : Type} (I : S → Prop).

Lemma keeps_ret {A} (a : A) : keeps I (mret a).
Proof. by intros s Hs. Qed.

Lemma keeps_raise {A} (e : exn) : keeps I (raise (A:=A) e).
Proof. by intros s Hs. Qed.

Lemma keeps_bind {A B} (m : Py S A) (f : A → Py S B) :
  keeps I m → (∀ a, keeps I (f a)) → keeps I (m ≫= f).
Proof.
  intros Hm Hf s Hs. rewrite bind_unfold. specialize (Hm s Hs).
  destruct (m s) as [[a|e] s']; cbn [snd] in *; [by apply Hf|done].
Qed.

Lemma keeps_for_each {A B} (l : list A) (body : A → B → Py S B) (acc : B) :
  (∀ x acc, keeps I (body x acc)) → keeps I (for_each l body acc).
Proof.
  intros Hbody. revert acc. induction l as [|x l IH]; intros acc.
  - apply keeps_ret.
  - rewrite for_each_cons. apply keeps_bind; [apply Hbody|apply IH].
Qed.

Lemma keeps_mapM {A B} (f : A → Py S B) (l : list A) :
  (∀ x, keeps I (f x)) → keeps I (mapM f l).
Proof.
  intros Hf. induction l as [|x l IH]; [apply keeps_ret|].
  cbn [mapM]. apply keeps_bind; [apply Hf|]. intros y.
  apply keeps_bind; [apply IH|]. intros ys. apply keeps_ret.
Qed.

Lemma keeps_run_calls (step : call → Py S unit) (cs : list call) (s : S) :
  (∀ c, keeps I (step c)) → I s → I (run_calls step cs s).
Proof.
  intros Hstep. revert s. unfold run_calls.
  induction cs as [|c cs IH]; intros s Hs; [done|].
  cbn [foldl]. apply IH. by apply Hstep.
Qed.

End keeps.

Section object_invariants.
Context {T : Type} `{SamplerClass T}.
Context (J : T → Prop).

(** An invariant of the object alone. *)
Let obj : T * World → Prop := λ s, J s.1.

Lemma keeps_in_world {A} (m : Py World A) : keeps obj (in_world m).
Proof.
  intros [k w] Hk. rewrite in_world_run. by destruct (m w).
Qed.

Lemma keeps_self : keeps obj self.
Proof. by intros s Hs. Qed.

Lemma keeps_get_trip_iter : keeps obj get_trip_iter.
Proof.
  unfold get_trip_iter. apply keeps_bind; [apply keeps_self|].
  intros s. destruct (trip_iter s); [apply keeps_ret|apply keeps_raise].
Qed.

Lemma keeps_update (f : Sampler → Sampler) :
  (∀ k, J k → J (with_super (f (super k)) k)) → keeps obj (update f).
Proof. intros Hf [k w] Hk. by apply Hf. Qed.

Lemma keeps_zeros (b : nat) (n : Z) : keeps obj (zeros b n).
Proof.
  unfold zeros. destruct (n <? 0); [apply keeps_raise|apply keeps_ret].
Qed.

Lemma keeps_set_ones (lbls row : list Z) : keeps obj (set_ones row lbls).
Proof.
  revert row. induction lbls as [|l lbls IH]; intros row; cbn [set_ones].
  - apply keeps_ret.
  - destruct (decide _); [apply IH|apply keeps_raise].
Qed.

Lemma keeps_np_column0 (a : NpArray) : keeps obj (np_column0 a).
Proof. destruct a; [apply keeps_raise|apply keeps_ret]. Qed.

Lemma keeps_cell_to_long (v : pyval) : keeps obj (cell_to_long v).
Proof. destruct v; [apply keeps_ret|apply keeps_raise]. Qed.

Lemma keeps_int_cell_to_long (a : NpArray) (v : pyval) :
  keeps obj (int_cell_to_long a v).
Proof.
  destruct v; cbn [int_cell_to_long]; [|apply keeps_raise].
  destruct (unicode_dtype a); [apply keeps_raise|apply keeps_ret].
Qed.

(** The index is read through [index_getitem] only; if reading keeps
    the invariant, so does label construction. *)
Lemma keeps_get_labels (samples : NpArray) :
  (∀ key, keeps obj (index_getitem key)) → keeps obj (_get_labels samples).
Proof.
  intros Hget. unfold _get_labels.
  apply keeps_bind; [apply keeps_self|]. intros s.
  apply keeps_bind; [apply keeps_zeros|]. intros y.
  apply keeps_for_each. intros [i x] y'.
  apply keeps_bind; [apply Hget|]. intros lbls.
  apply keeps_bind; [apply keeps_set_ones|]. intros row. apply keeps_ret.
Qed.

End object_invariants.

(** ** The index across calls *)

Section index_invariant.
Context (P : DefaultDict.t → Prop).

(** A property of the index, as an invariant of a sampler object. *)
Let on_index {T} `{Extends T} : T * World → Prop :=
  λ s, P (index (super s.1)).

(** Whether reading a key keeps [P]. *)
Let read_stable : Prop := ∀ d key, P d → P (DefaultDict.getitem d key).2.

Lemma One_to_K_keeps_index_getitem (key : Key) :
  read_stable → keeps (on_index (T:=One_to_K)) (index_getitem key).
Proof.
  intros Hstable [k w] Hk. unfold index_getitem.
  rewrite bind_unfold. unfold self at 1. cbn [fst].
  specialize (Hstable (index (super k)) key Hk).
  by destruct (DefaultDict.getitem (index (super k)) key).
Qed.

Lemma One_to_N_keeps_index_getitem (key : Key) :
  read_stable → keeps (on_index (T:=One_to_N)) (index_getitem key).
Proof.
  intros Hstable [k w] Hk. unfold index_getitem.
  rewrite bind_unfold. unfold self at 1. cbn [fst].
  specialize (Hstable (index (super k)) key Hk).
  by destruct (DefaultDict.getitem (index (super k)) key).
Qed.

Lemma One_to_K_keeps_shuffle : keeps (on_index (T:=One_to_K)) _shuffle.
Proof.
  apply keeps_bind; [apply (keeps_self (λ k, P (index (super k))))|].
  intros s.
  apply keeps_bind; [apply (keeps_in_world (λ k, P (index (super k))))|].
  intros l. by apply (keeps_update (λ k, P (index (super k)))).
Qed.

Lemma One_to_N_keeps_shuffle : keeps (on_index (T:=One_to_N)) _shuffle.
Proof.
  apply keeps_bind; [apply (keeps_self (λ k, P (index (super k))))|].
  intros s.
  apply keeps_bind; [apply (keeps_in_world (λ k, P (index (super k))))|].
  intros l. by apply (keeps_update (λ k, P (index (super k)))).
Qed.

Lemma One_to_K_keeps_increment_iter :
  keeps (on_index (T:=One_to_K)) _increment_iter.
Proof.
  apply keeps_bind;
    [apply (keeps_get_trip_iter (λ k, P (index (super k))))|].
  intros i.
  apply keeps_bind; [apply (keeps_self (λ k, P (index (super k))))|].
  intros s. by apply (keeps_update (λ k, P (index (super k)))).
Qed.

Lemma One_to_N_keeps_increment_iter :
  keeps (on_index (T:=One_to_N)) _increment_iter.
Proof.
  apply keeps_bind;
    [apply (keeps_get_trip_iter (λ k, P (index (super k))))|].
  intros i.
  apply keeps_bind; [apply (keeps_self (λ k, P (index (super k))))|].
  intros s. by apply (keeps_update (λ k, P (index (super k)))).
Qed.

Lemma One_to_K_keeps_sample_negative (samples : Tensor) :
  keeps (on_index (T:=One_to_K)) (One_to_K._sample_negative samples).
Proof.
  unfold One_to_K._sample_negative.
  apply keeps_bind; [by intros s Hs|]. intros s.
  apply keeps_bind;
    [|intros ts; apply (keeps_in_world (λ k, P (index (super k))))].
  apply keeps_for_each. intros _ acc.
  apply keeps_for_each. intros t acc'.
  apply keeps_bind;
    [apply (keeps_in_world (λ k, P (index (super k))))|].
  intros new. apply keeps_ret.
Qed.

Lemma One_to_K_keeps_next :
  keeps (on_index (T:=One_to_K)) One_to_K.__next__.
Proof.
  unfold One_to_K.__next__.
  apply keeps_bind;
    [apply (keeps_get_trip_iter (λ k, P (index (super k))))|].
  intros i.
  apply keeps_bind; [apply (keeps_self (λ k, P (index (super k))))|].
  intros s. destruct (decide _); [apply keeps_raise|].
  apply keeps_bind;
    [apply (keeps_in_world (λ k, P (index (super k))))|].
  intros pos.
  apply keeps_bind; [apply One_to_K_keeps_sample_negative|]. intros neg.
  apply keeps_bind; [apply One_to_K_keeps_increment_iter|]. intros _.
  apply keeps_ret.
Qed.

Lemma One_to_N_keeps_next :
  read_stable → keeps (on_index (T:=One_to_N)) One_to_N.__next__.
Proof.
  intros Hstable.
  assert (∀ a, keeps (on_index (T:=One_to_N)) (_get_labels a)) as Hlabels.
  { intros a. apply (keeps_get_labels (λ k, P (index (super k)))).
    intros key. by apply One_to_N_keeps_index_getitem. }
  unfold One_to_N.__next__.
  apply keeps_bind;
    [apply (keeps_get_trip_iter (λ k, P (index (super k))))|].
  intros i.
  apply keeps_bind; [apply (keeps_self (λ k, P (index (super k))))|].
  intros s. destruct (decide _); [apply keeps_raise|].
  apply keeps_bind; [apply One_to_N_keeps_increment_iter|]. intros _.
  destruct (inverse s).
  - apply keeps_bind.
    { apply keeps_mapM. intros r. apply keeps_mapM. intros v.
      apply (keeps_int_cell_to_long (λ k, P (index (super k)))). }
    intros ix. apply keeps_bind; [apply Hlabels|]. intros y. apply keeps_ret.
  - apply keeps_bind;
      [apply (keeps_np_column0 (λ k, P (index (super k))))|].
    intros tt. apply keeps_bind.
    { apply keeps_mapM. intros r. apply keeps_mapM. intros v.
      apply (keeps_cell_to_long (λ k, P (index (super k)))). }
    intros ix. apply keeps_bind; [apply Hlabels|]. intros y. apply keeps_ret.
Qed.

Lemma One_to_K_keeps_len : keeps (on_index (T:=One_to_K)) One_to_K.__len__.
Proof.
  apply keeps_bind; [apply (keeps_self (λ k, P (index (super k))))|].
  intros s. destruct (decide _); [apply keeps_raise|apply keeps_ret].
Qed.

Lemma One_to_N_keeps_len : keeps (on_index (T:=One_to_N)) One_to_N.__len__.
Proof.
  apply keeps_bind; [apply (keeps_self (λ k, P (index (super k))))|].
  intros s. destruct (decide _); [apply keeps_raise|apply keeps_ret].
Qed.

(** Every call on a pairwise sampler other than a direct label
    construction keeps any property of the index; label construction
    keeps the properties that reading a key keeps. *)
Lemma One_to_K_keeps_call (c : call) :
  (read_stable ∨ ∀ a, c ≠ CallGetLabels a) →
  keeps (on_index (T:=One_to_K)) (call_K c).
Proof.
  intros Hc. destruct c as [| | | |a]; cbn [call_K].
  - apply keeps_bind; [|intros _; apply One_to_K_keeps_shuffle].
    by apply (keeps_update (λ k, P (index (super k)))).
  - by apply (keeps_update (λ k, P (index (super k)))).
  - apply keeps_bind; [apply One_to_K_keeps_next|]. intros _. apply keeps_ret.
  - apply keeps_bind; [apply One_to_K_keeps_len|]. intros _. apply keeps_ret.
  - destruct Hc as [Hstable|Hne]; [|by destruct (Hne a)].
    apply keeps_bind; [|intros _; apply keeps_ret].
    apply (keeps_get_labels (λ k, P (index (super k)))).
    intros key. by apply One_to_K_keeps_index_getitem.
Qed.

Lemma One_to_N_keeps_call (c : call) :
  read_stable → keeps (on_index (T:=One_to_N)) (call_N c).
Proof.
  intros Hstable. destruct c as [| | | |a]; cbn [call_N].
  - apply keeps_bind; [|intros _; apply One_to_N_keeps_shuffle].
    by apply (keeps_update (λ k, P (index (super k)))).
  - by apply (keeps_update (λ k, P (index (super k)))).
  - apply keeps_bind; [by apply One_to_N_keeps_next|]. intros _.
    apply keeps_ret.
  - apply keeps_bind; [apply One_to_N_keeps_len|]. intros _. apply keeps_ret.
  - apply keeps_bind; [|intros _; apply keeps_ret].
    apply (keeps_get_labels (λ k, P (index (super k)))).
    intros key. by apply One_to_N_keeps_index_getitem.
Qed.

End index_invariant.

(** What every key reads from the index (a missing key reading as
    empty) never changes after construction, over any sequence of
    calls, on either sampler. *)
Lemma index_reads_stable (cs : list call) (key : Key) :
  (∀ (k : One_to_K) (w : World),
     DefaultDict.peek (index (super (run_calls call_K cs (k, w)).1)) key =
       DefaultDict.peek (index (super k)) key) ∧
  (∀ (n : One_to_N) (w : World),
     DefaultDict.peek (index (super (run_calls call_N cs (n, w)).1)) key =
       DefaultDict.peek (index (super n)) key).
Proof.
  split.
  - intros k w.
    apply (keeps_run_calls
             (λ s, DefaultDict.peek (index (super s.1)) key =
                   DefaultDict.peek (index (super k)) key)); [|done].
    intros c.
    apply (One_to_K_keeps_call
             (λ d, DefaultDict.peek d key =
                   DefaultDict.peek (index (super k)) key)).
    left. intros d key' Hd. by rewrite peek_getitem.
  - intros n w.
    apply (keeps_run_calls
             (λ s, DefaultDict.peek (index (super s.1)) key =
                   DefaultDict.peek (index (super n)) key)); [|done].
    intros c.
    apply (One_to_N_keeps_call
             (λ d, DefaultDict.peek d key =
                   DefaultDict.peek (index (super n)) key)).
    intros d key' Hd. by rewrite peek_getitem.
Qed.

(** The pairwise sampler's own calls ([reset], [__iter__], batch
    requests, [len]) leave the index itself untouched. *)
Lemma One_to_K_index_untouched (cs : list call) (k : One_to_K) (w : World) :
  Forall (λ c, ∀ a, c ≠ CallGetLabels a) cs →
  index (super (run_calls call_K cs (k, w)).1) = index (super k).
Proof.
  revert k w. induction cs as [|c cs IH]; intros k w Hcs; [done|].
  apply Forall_cons in Hcs as [Hc Hcs].
  unfold run_calls. cbn [foldl].
  pose proof (One_to_K_keeps_call (λ d, d = index (super k)) c
                (or_intror Hc) (k, w) eq_refl) as Hstep.
  destruct (call_K c (k, w)) as [r [k' w']]. cbn [fst snd] in *.
  rewrite <- Hstep. by apply IH.
Qed.

(** ** Labels in non-inverse mode *)

Section ensures.
Context {S : Type} (I : S → Prop).

Lemma ensures_ret {A} (a : A) (Q : A → Prop) : Q a → ensures I (mret a) Q.
Proof. intros Ha s Hs. split; [done|]. intros a' [= <-]. done. Qed.

Lemma ensures_raise {A} (e : exn) (Q : A → Prop) : ensures I (raise e) Q.
Proof. intros s Hs. split; [done|]. intros a' [=]. Qed.

Lemma ensures_keeps {A} (m : Py S A) : keeps I m → ensures I m (λ _, True).
Proof. intros Hm s Hs. split; [by apply Hm|done]. Qed.

Lemma ensures_bind {A B} (m : Py S A) (f : A → Py S B)
    (Q1 : A → Prop) (Q2 : B → Prop) :
  ensures I m Q1 → (∀ a, Q1 a → ensures I (f a) Q2) →
  ensures I (m ≫= f) Q2.
Proof.
  intros Hm Hf s Hs. rewrite bind_unfold. destruct (Hm s Hs) as [Hs' Ha].
  destruct (m s) as [[a|e] s']; cbn [fst snd] in *.
  - by apply (Hf a (Ha a eq_refl)).
  - split; [done|]. intros b [=].
Qed.

Lemma ensures_for_each {A B} (l : list A) (body : A → B → Py S B)
    (Inv : B → Prop) (acc : B) :
  Inv acc → (∀ x acc, Inv acc → ensures I (body x acc) Inv) →
  ensures I (for_each l body acc) Inv.
Proof.
  intros Hacc Hbody. revert acc Hacc.
  induction l as [|x l IH]; intros acc Hacc.
  - by apply ensures_ret.
  - rewrite for_each_cons. eapply ensures_bind; [by apply Hbody|].
    intros acc' Hacc'. by apply IH.
Qed.

End ensures.

Lemma all_str_np_tuple (a : NpArray) (x : list pyval) :
  unicode_dtype a = true → all_str (np_tuple a x).
Proof.
  intros Ha. unfold all_str, np_tuple, np_cell. rewrite Ha.
  apply Forall_fmap, Forall_forall. by intros v _.
Qed.

Lemma no_str_bucket_getitem (d : DefaultDict.t) (key : Key) :
  no_str_bucket d → no_str_bucket (DefaultDict.getitem d key).2.
Proof. intros Hd key' Hkey'. rewrite peek_getitem. by apply Hd. Qed.

(** The index of a non-inverse sampler has an int in every key. *)
Lemma no_str_bucket_build_index (l : list Triplet) :
  no_str_bucket (_build_index l false).
Proof.
  intros key Hkey.
  destruct (DefaultDict.peek (_build_index l false) key) as [|e es] eqn:E;
    [done|].
  assert (e ∈ DefaultDict.peek (_build_index l false) key) as Hin
    by (rewrite E; left).
  apply elem_of_peek_build_index in Hin as (t & _ & Hin).
  unfold emits in Hin.
  apply elem_of_cons in Hin as [[= -> _]|Hin];
    [|apply list_elem_of_singleton in Hin as [= -> _]];
    unfold all_str, head_key, tail_key in Hkey;
    apply Forall_cons in Hkey as [_ Hkey];
    by apply Forall_cons in Hkey as [? _].
Qed.

Lemma index_getitem_run {T} `{Extends T} (key : Key) (k : T) (w : World) :
  index_getitem key (k, w) =
    (Ok (DefaultDict.peek (index (super k)) key),
     (with_super
        (set_index (DefaultDict.getitem (index (super k)) key).2 (super k)) k,
      w)).
Proof.
  unfold index_getitem. rewrite bind_unfold. unfold self at 1. cbn [fst].
  rewrite <- getitem_peek.
  by destruct (DefaultDict.getitem (index (super k)) key).
Qed.

(** A traversal whose steps leave the state alone leaves it alone. *)
Lemma mapM_state {S A B} (f : A → Py S B) (l : list A) (s : S) :
  (∀ x s, (f x s).2 = s) → (mapM f l s).2 = s.
Proof.
  intros Hf. revert s. induction l as [|x l IH]; intros s; [done|].
  cbn [mapM]. rewrite bind_unfold. specialize (Hf x s).
  destruct (f x s) as [[y|e] s1]; cbn [snd] in Hf; subst s1; [|done].
  rewrite bind_unfold. specialize (IH s).
  destruct (mapM f l s) as [[ys|e] s2]; cbn [snd] in IH; by subst s2.
Qed.

Section non_inverse_labels.

(** The state of a multi-label sampler in non-inverse mode. *)
Let non_inverse : One_to_N * World → Prop := λ s,
  no_str_bucket (index (super s.1)).

Lemma ensures_index_getitem_str (key : Key) :
  all_str key →
  ensures non_inverse (index_getitem key) (λ lbls, lbls = []).
Proof.
  intros Hkey [n w] Hn. unfold non_inverse in *. cbn [fst] in Hn.
  rewrite index_getitem_run. cbn [fst snd]. split.
  - by apply no_str_bucket_getitem.
  - intros a [= <-]. by apply Hn.
Qed.

(** On an array of unicode dtype, label construction returns the
    all-zero matrix it started from. *)
Lemma ensures_get_labels_unicode (a : NpArray) :
  unicode_dtype a = true →
  ensures non_inverse (_get_labels a)
    (λ y, ∃ n, y = replicate (length a) (replicate n 0)).
Proof.
  intros Ha. unfold _get_labels.
  eapply (ensures_bind _ _ _ (λ _, True));
    [apply ensures_keeps, (keeps_self (λ n, no_str_bucket (index (super n))))|].
  intros s _.
  eapply (ensures_bind _ _ _
            (λ y, y = replicate (length a) (replicate (Z.to_nat (num_ents s)) 0))).
  { unfold zeros. destruct (num_ents s <? 0);
      [apply ensures_raise|by apply ensures_ret]. }
  intros y ->.
  apply ensures_for_each; [by eexists|].
  intros [i x] y [n ->].
  eapply ensures_bind;
    [by apply ensures_index_getitem_str, all_str_np_tuple|].
  intros lbls ->. cbn [set_ones].
  eapply (ensures_bind _ _ _ (λ row, row = default [] (_ !! i)));
    [by apply ensures_ret|].
  intros row ->. apply ensures_ret. exists n.
  destruct (decide (i < length a)%nat) as [Hlt|Hge].
  - rewrite list_insert_id; [done|].
    by rewrite lookup_replicate_2.
  - rewrite list_insert_ge; [done|]. rewrite length_replicate. lia.
Qed.

(** Whenever a batch request returns in non-inverse mode, with keys
    that carry their "head"/"tail" tag, the label matrix is all
    zeros, whatever the index holds for the keys of the batch. *)
Lemma non_inverse_labels_always_zero (n : One_to_N) (w : World)
    (batch : One_to_N.Batch) (s' : One_to_N * World) :
  inverse (super n) = false →
  no_str_bucket (index (super n)) →
  Forall (λ key, existsb is_str key = true) (keys (super n)) →
  One_to_N.__next__ (n, w) = (Ok batch, s') →
  ∃ b ne, One_to_N.batch_lbls batch = replicate b (replicate ne 0).
Proof.
  intros Hinv Hidx Hkeys Hrun.
  revert Hrun. unfold One_to_N.__next__.
  rewrite bind_unfold.
  destruct (get_trip_iter (n, w)) as [[i|e] [n1 w1]] eqn:Hi; [|done].
  assert ((n1, w1) = (n, w)) as [= -> ->].
  { unfold get_trip_iter in Hi. rewrite bind_unfold in Hi.
    unfold self at 1 in Hi. cbn [fst] in Hi.
    destruct (trip_iter (super n)); by inversion Hi. }
  rewrite bind_unfold. unfold self at 1. cbn [fst].
  destruct (decide _) as [|Hlt]; [done|].
  set (a := py_slice (keys (super n)) i
                     (Z.min (i + bs (super n)) (py_len (keys (super n))))).
  rewrite bind_unfold.
  destruct (_increment_iter (n, w)) as [[[]|e] [n2 w2]] eqn:Hinc; [|done].
  assert (index (super n2) = index (super n)) as Hidx2.
  { unfold _increment_iter, One_to_N_class in Hinc.
    rewrite bind_unfold, Hi, bind_unfold in Hinc.
    unfold self at 1 in Hinc. cbn [fst] in Hinc. by inversion Hinc. }
  rewrite Hinv.
  rewrite bind_unfold. destruct a as [|x a'] eqn:Ea; [done|].
  cbn [np_column0 mret Py_ret]. rewrite <- Ea.
  rewrite bind_unfold.
  destruct (mapM (mapM cell_to_long) (drop 1 <$> a) (n2, w2))
    as [[ix|e] [n3 w3]] eqn:Hix; [|done].
  assert ((n3, w3) = (n2, w2)) as [= -> ->].
  { pose proof (mapM_state (mapM cell_to_long) (drop 1 <$> a) (n2, w2)) as Hk.
    rewrite Hix in Hk. apply Hk. intros r s. apply mapM_state.
    intros v s0. by destruct v. }
  assert (unicode_dtype a = true) as Hua.
  { rewrite Ea. cbn [unicode_dtype existsb]. apply orb_true_iff. left.
    assert (x ∈ keys (super n)) as Hx.
    { assert (x ∈ a) as Hxa by (rewrite Ea; left).
      unfold a, py_slice in Hxa.
      by apply subseteq_take, subseteq_drop in Hxa. }
    rewrite Forall_forall in Hkeys. by apply Hkeys. }
  rewrite bind_unfold.
  destruct (ensures_get_labels_unicode a Hua (n2, w2)) as [_ Hy].
  { unfold non_inverse. cbn [fst]. by rewrite Hidx2. }
  destruct (_get_labels a (n2, w2)) as [[y|e] s3]; [|done].
  intros [= <- _]. cbn [One_to_N.batch_lbls].
  destruct (Hy y eq_refl) as [ne ->]. by eexists _, _.
Qed.

End non_inverse_labels.

(** ** Labels in inverse mode *)

Lemma set_index_same (n : One_to_N) :
  with_super (set_index (index (super n)) (super n)) n = n.
Proof. by destruct n as [[]]. Qed.

(** Reading a key that is present leaves the sampler as it is. *)
Lemma index_getitem_present (key : Key) (n : One_to_N) (w : World) :
  DefaultDict.mem (index (super n)) key = true →
  index_getitem key (n, w) =
    (Ok (DefaultDict.peek (index (super n)) key), (n, w)).
Proof.
  intros Hmem. rewrite index_getitem_run, getitem_present by done.
  by rewrite set_index_same.
Qed.

Lemma set_ones_run {T} `{Extends T} (lbls row : list Z) (s : T * World) :
  Forall (λ l, 0 ≤ l < py_len row) lbls →
  set_ones row lbls s =
    (Ok (foldl (λ r l, <[Z.to_nat l := 1]> r) row lbls), s).
Proof.
  revert row. induction lbls as [|l lbls IH]; intros row Hl; [done|].
  apply Forall_cons in Hl as [Hl Hlbls]. cbn [set_ones foldl].
  rewrite decide_True by lia.
  destruct (l <? 0) eqn:E; [lia|]. apply IH.
  eapply Forall_impl; [exact Hlbls|]. intros l'. unfold py_len.
  by rewrite length_insert.
Qed.

Lemma foldl_set_ones_lookup (lbls row : list Z) (e : nat) :
  Forall (λ l, 0 ≤ l) lbls → (e < length row)%nat →
  foldl (λ r l, <[Z.to_nat l := 1]> r) row lbls !! e =
    if decide (Z.of_nat e ∈ lbls) then Some 1 else row !! e.
Proof.
  revert row. induction lbls as [|l lbls IH]; intros row Hl He.
  - cbn [foldl]. rewrite decide_False; [done|]. by intros ?%elem_of_nil.
  - apply Forall_cons in Hl as [Hl Hlbls]. cbn [foldl].
    rewrite IH by (by rewrite ?length_insert).
    destruct (decide (Z.of_nat e ∈ lbls)) as [Hin|Hnin].
    + rewrite decide_True; [done|]. by right.
    + destruct (decide (Z.of_nat e = l)) as [<-|Hne].
      * rewrite decide_True by left.
        rewrite Nat2Z.id. by apply list_lookup_insert_eq.
      * rewrite decide_False by (rewrite elem_of_cons; tauto).
        apply list_lookup_insert_ne. lia.
Qed.

Lemma length_foldl_set_ones (lbls row : list Z) :
  length (foldl (λ r l, <[Z.to_nat l := 1]> r) row lbls) = length row.
Proof.
  revert row. induction lbls as [|l lbls IH]; intros row; [done|].
  cbn [foldl]. by rewrite IH, length_insert.
Qed.

(** Setting the ones of a bucket in a zero row gives the row the index
    prescribes. *)
Lemma set_ones_label_row (d : DefaultDict.t) (ne : Z) (key : Key) :
  0 ≤ ne → Forall (λ l, 0 ≤ l < ne) (DefaultDict.peek d key) →
  foldl (λ r l, <[Z.to_nat l := 1]> r) (replicate (Z.to_nat ne) 0)
        (DefaultDict.peek d key) = label_row d ne key.
Proof.
  intros Hne Hrange. apply list_eq. intros e. unfold label_row.
  destruct (decide (e < Z.to_nat ne)%nat) as [Hlt|Hge].
  - rewrite foldl_set_ones_lookup; [| |by rewrite length_replicate].
    + rewrite list_lookup_fmap, lookup_seq_lt by done. cbn.
      destruct (decide _); [done|]. by rewrite lookup_replicate_2.
    + eapply Forall_impl; [exact Hrange|]. cbn. lia.
  - rewrite !lookup_ge_None_2; [done| |].
    + rewrite length_fmap, length_seq. lia.
    + rewrite length_foldl_set_ones, length_replicate. lia.
Qed.

Lemma np_tuple_ints (a : NpArray) (x : list pyval) :
  unicode_dtype a = false → np_tuple a x = x.
Proof.
  intros Ha. unfold np_tuple, np_cell. rewrite Ha. apply list_fmap_id.
Qed.

Lemma unicode_dtype_false (a : NpArray) :
  Forall (λ key, existsb is_str key = false) a → unicode_dtype a = false.
Proof.
  unfold unicode_dtype. induction 1 as [|x a Hx _ IH]; [done|].
  cbn [existsb]. by rewrite Hx, IH.
Qed.

Lemma mapM_ok {S A B} (f : A → Py S B) (g : A → B) (l : list A) (s : S) :
  Forall (λ x, ∀ s, f x s = (Ok (g x), s)) l →
  mapM f l s = (Ok (g <$> l), s).
Proof.
  induction 1 as [|x l Hx _ IH]; [done|].
  cbn [mapM]. by rewrite (bind_ok _ _ _ _ _ (Hx s)), (bind_ok _ _ _ _ _ IH).
Qed.

Lemma batch_ix_ok (a : NpArray) (s : One_to_N * World) :
  Forall (λ key, existsb is_str key = false) a →
  mapM (mapM (int_cell_to_long a)) a s = (Ok (int_row <$> a), s).
Proof.
  intros Ha. pose proof (unicode_dtype_false a Ha) as Hu.
  apply mapM_ok. eapply Forall_impl; [exact Ha|].
  intros key Hkey s'. cbn beta. unfold int_row. apply mapM_ok.
  apply Forall_forall. intros v Hv s''.
  destruct v as [z|str]; cbn [int_cell_to_long int_cell].
  - by rewrite Hu.
  - exfalso. apply list_elem_of_In in Hv.
    assert (existsb is_str key = true) as Habs
      by (apply existsb_exists; by exists (PStr str)).
    congruence.
Qed.

Section inverse_labels.
Context (a : NpArray) (n : One_to_N) (w : World).
Hypothesis Ha : unicode_dtype a = false.
Hypothesis Hne : 0 ≤ num_ents (super n).
Hypothesis Hrange :
  ∀ key, Forall (λ e, 0 ≤ e < num_ents (super n))
                (DefaultDict.peek (index (super n)) key).

(** The loop of [_get_labels] over keys that are in the index: row
    [off + j] becomes the label row of the [j]-th key, and the
    sampler is left as it is. *)
Lemma get_labels_loop (l : list Key) (off : nat) (y : list (list Z)) :
  Forall (λ key, DefaultDict.mem (index (super n)) key = true) l →
  (∀ j, (j < length l)%nat →
        y !! (off + j)%nat = Some (replicate (Z.to_nat (num_ents (super n))) 0)) →
  for_each (imap (λ j x, ((off + j)%nat, x)) l)
    (λ '(i, x) y,
       lbls ← index_getitem (np_tuple a x);
       row ← set_ones (default [] (y !! i)) lbls;
       mret (<[i := row]> y)) y (n, w) =
    (Ok (take off y ++
         (label_row (index (super n)) (num_ents (super n)) <$> l) ++
         drop (off + length l) y),
     (n, w)).
Proof.
  intros Hl. revert off y. induction Hl as [|key l Hkey _ IH]; intros off y Hy.
  - cbn [imap for_each fmap list_fmap length app].
    by rewrite Nat.add_0_r, take_drop.
  - cbn [imap]. rewrite for_each_cons.
    pose proof (Hy 0%nat ltac:(cbn; lia)) as Hy0.
    rewrite Nat.add_0_r in Hy0 |- *.
    set (row := label_row (index (super n)) (num_ents (super n)) key).
    assert ((lbls ← index_getitem (np_tuple a key);
             row ← set_ones (default [] (y !! off)) lbls;
             mret (<[off := row]> y)) (n, w) =
            (Ok (<[off := row]> y), (n, w))) as Hbody.
    { rewrite np_tuple_ints by done.
      rewrite (bind_ok _ _ _ _ _ (index_getitem_present _ _ _ Hkey)).
      rewrite Hy0. cbn [default from_option id].
      assert (Forall (λ l, 0 ≤ l < py_len (replicate
                             (Z.to_nat (num_ents (super n))) 0))
                     (DefaultDict.peek (index (super n)) key)) as Hin.
      { eapply Forall_impl; [apply Hrange|]. intros e. cbn.
        unfold py_len. rewrite length_replicate. lia. }
      rewrite (bind_ok _ _ _ _ _ (set_ones_run _ _ (n, w) Hin)).
      by rewrite set_ones_label_row. }
    rewrite (bind_ok _ _ _ _ _ Hbody).
    rewrite (imap_ext _ (λ j x, ((S off + j)%nat, x)))
      by (intros j x _; cbn; f_equal; lia).
    rewrite IH.
    + pose proof (lookup_lt_Some _ _ _ Hy0) as Hoff.
      do 2 f_equal.
      rewrite (take_S_r _ _ row) by (by apply list_lookup_insert_eq).
      rewrite take_insert_ge by lia. rewrite <- app_assoc. cbn [app fmap list_fmap].
      do 3 f_equal. rewrite drop_insert_lt by lia. cbn [length]. f_equal. lia.
    + intros j Hj. rewrite list_lookup_insert_ne by lia.
      replace (S off + j)%nat with (off + S j)%nat by lia.
      apply Hy. cbn. lia.
Qed.

(** Label construction over keys that are in the index returns the
    label rows the index prescribes and does not touch the sampler. *)
Lemma get_labels_present :
  Forall (λ key, DefaultDict.mem (index (super n)) key = true) a →
  _get_labels a (n, w) =
    (Ok (label_row (index (super n)) (num_ents (super n)) <$> a), (n, w)).
Proof.
  intros Hpresent. unfold _get_labels. rewrite bind_unfold. unfold self at 1.
  cbn [fst]. unfold zeros. destruct (num_ents (super n) <? 0) eqn:E; [lia|].
  rewrite bind_unfold. cbn [mret Py_ret].
  pose proof (get_labels_loop a 0
                (replicate (length a)
                           (replicate (Z.to_nat (num_ents (super n))) 0))
                Hpresent) as Hloop.
  rewrite (imap_ext pair (λ j x, ((0 + j)%nat, x))) by done.
  etrans; [apply Hloop|].
  - intros j Hj. by apply lookup_replicate_2.
  - rewrite take_0, app_nil_l, drop_ge, app_nil_r; [done|].
    by rewrite length_replicate.
Qed.

End inverse_labels.

Lemma label_row_lookup (d : DefaultDict.t) (ne : Z) (key : Key) (e : Z) :
  0 ≤ e < ne →
  (label_row d ne key !! Z.to_nat e = Some 1 ↔ e ∈ DefaultDict.peek d key) ∧
  (label_row d ne key !! Z.to_nat e = Some 0 ↔ e ∉ DefaultDict.peek d key).
Proof.
  intros He. unfold label_row.
  rewrite list_lookup_fmap, lookup_seq_lt by lia. cbn.
  rewrite Z2Nat.id by lia.
  destruct (decide (e ∈ DefaultDict.peek d key)); split; split;
    intros; try done; by simplify_eq.
Qed.

(** In inverse mode a batch request returns the label matrix the
    index prescribes for the keys of the batch:
    [batch_lbls[i][e] = 1] exactly when [e] is in [Index[keys[i]]]. *)
Lemma inverse_labels_correct (n : One_to_N) (w : World) (i : Z) :
  inverse_ready n →
  trip_iter (super n) = Some i →
  0 ≤ i < py_len (keys (super n)) - 1 →
  0 < bs (super n) →
  let j := Z.min (i + bs (super n)) (py_len (keys (super n))) in
  let batch_keys := py_slice (keys (super n)) i j in
  ∃ batch,
    One_to_N.__next__ (n, w) =
      (Ok batch, (with_super (set_trip_iter j (super n)) n, w)) ∧
    One_to_N.trip_type batch = None ∧
    One_to_N.batch_ix batch = int_row <$> batch_keys ∧
    One_to_N.batch_lbls batch =
      label_row (index (super n)) (num_ents (super n)) <$> batch_keys ∧
    ∀ (r : nat) (key : Key) (e : Z),
      batch_keys !! r = Some key → 0 ≤ e < num_ents (super n) →
      ∃ row, One_to_N.batch_lbls batch !! r = Some row ∧
             (row !! Z.to_nat e = Some 1 ↔
              e ∈ DefaultDict.peek (index (super n)) key) ∧
             (row !! Z.to_nat e = Some 0 ↔
              e ∉ DefaultDict.peek (index (super n)) key).
Proof.
  intros (Hinv & Hne & Hkeys & Hrange) Hi Hi_range Hbs j batch_keys.
  set (n1 := with_super (set_trip_iter j (super n)) n).
  assert (Forall (λ key, existsb is_str key = false ∧
                         DefaultDict.mem (index (super n)) key = true)
                 batch_keys) as Hbatch.
  { apply Forall_forall. intros key Hkey. rewrite Forall_forall in Hkeys.
    apply Hkeys. unfold batch_keys, py_slice in Hkey.
    by apply subseteq_take, subseteq_drop in Hkey. }
  assert (Forall (λ key, existsb is_str key = false) batch_keys) as Hints
    by (eapply Forall_impl; [exact Hbatch|]; by intros key [? _]).
  assert (Forall (λ key, DefaultDict.mem (index (super n1)) key = true)
                 batch_keys) as Hpresent
    by (eapply Forall_impl; [exact Hbatch|]; by intros key [_ ?]).
  eexists (One_to_N.mkBatch _ _ None).
  split; [|split; [done|split; [done|split; [done|]]]].
  - unfold One_to_N.__next__.
    rewrite (bind_ok _ _ _ _ _ (get_trip_iter_ok n w i Hi)).
    rewrite bind_unfold. unfold self at 1. cbn [fst].
    rewrite decide_False by lia. fold j. fold batch_keys.
    rewrite (bind_ok _ _ _ _ _ (One_to_N_increment_iter_ok n w i Hi)).
    fold j. fold n1. rewrite Hinv.
    rewrite (bind_ok _ _ _ _ _ (batch_ix_ok batch_keys (n1, w) Hints)).
    rewrite (bind_ok _ _ _ _ _
               (get_labels_present batch_keys n1 w
                  (unicode_dtype_false _ Hints) Hne Hrange Hpresent)).
    done.
  - cbn [One_to_N.batch_lbls]. intros r key e Hkey He.
    eexists. split.
    + rewrite list_lookup_fmap, Hkey. done.
    + by apply label_row_lookup.
Qed.

(** Construction in inverse mode from triplets whose tails are
    entities of [[0, num_ents)] gives such a sampler. *)
Lemma inverse_ready_init (l : list Triplet) (b ne : Z) (dev : string)
    (w w' : World) (n : One_to_N) :
  0 ≤ ne → Forall (λ t, 0 ≤ t2 t < ne) l →
  One_to_N.__init__ l b ne dev true w = (Ok n, w') →
  inverse_ready n.
Proof.
  intros Hne Hl Hinit.
  destruct (One_to_N_init_run l b ne dev true w) as (ks & g' & Hrun & Hperm).
  rewrite Hrun in Hinit. injection Hinit as <- <-.
  split; [done|]. split; [done|]. split.
  - cbn. apply Forall_forall. intros key Hkey. rewrite Hperm in Hkey.
    apply mem_elem_of in Hkey as Hmem. split; [|done].
    apply mem_build_index in Hmem as (t & _ & Hin).
    unfold emits in Hin. cbn in Hin.
    by apply list_elem_of_singleton in Hin as ->.
  - intros key. cbn. apply Forall_forall. intros e He.
    apply elem_of_peek_build_index in He as (t & Ht & Hin).
    unfold emits in Hin. apply list_elem_of_singleton in Hin as [= _ ->].
    rewrite Forall_forall in Hl. by apply Hl.
Qed.

(** ** Batches of the multi-label sampler in non-inverse mode *)

Lemma set_index_set_index (d d' : DefaultDict.t) (n : One_to_N) :
  with_super (set_index d' (super (with_super (set_index d (super n)) n)))
             (with_super (set_index d (super n)) n) =
  with_super (set_index d' (super n)) n.
Proof. done. Qed.

Lemma imap_pair_snd {A} (f : nat → nat) (l : list A) :
  (imap (λ j x, (f j, x)) l).*2 = l.
Proof.
  revert f. induction l as [|x l IH]; intros f; [done|].
  cbn [imap fmap list_fmap snd]. f_equal. apply (IH (f ∘ S)).
Qed.

Section unicode_labels.
Context (a : list (list pyval)) (w : World).
Hypothesis Ha : unicode_dtype a = true.

(** The loop of [_get_labels] on an array of unicode dtype: every read
    returns the empty list, the matrix is left as it is, and the index
    goes through the reads. *)
Lemma get_labels_loop_unicode (l : list (nat * list pyval))
    (y : list (list Z)) (n : One_to_N) :
  no_str_bucket (index (super n)) →
  for_each l
    (λ '(i, x) y,
       lbls ← index_getitem (np_tuple a x);
       row ← set_ones (default [] (y !! i)) lbls;
       mret (<[i := row]> y)) y (n, w) =
    (Ok y,
     (with_super
        (set_index
           (foldl (λ d x, (DefaultDict.getitem d (np_tuple a x)).2)
                  (index (super n)) l.*2)
           (super n)) n,
      w)).
Proof.
  revert n. induction l as [|[i x] l IH]; intros n Hn.
  - cbn [for_each fmap list_fmap foldl]. by rewrite set_index_same.
  - rewrite for_each_cons, bind_unfold, bind_unfold, index_getitem_run.
    rewrite (Hn (np_tuple a x)) by (by apply all_str_np_tuple).
    cbn [set_ones]. rewrite bind_unfold. cbn [mret Py_ret].
    assert (<[i := default [] (y !! i)]> y = y) as ->.
    { destruct (y !! i) as [row|] eqn:E; [by apply list_insert_id|].
      apply list_insert_ge. by apply lookup_ge_None. }
    rewrite IH by (by apply no_str_bucket_getitem).
    by rewrite set_index_set_index.
Qed.

Lemma get_labels_unicode_run (n : One_to_N) :
  0 ≤ num_ents (super n) → no_str_bucket (index (super n)) →
  _get_labels a (n, w) =
    (Ok (replicate (length a) (replicate (Z.to_nat (num_ents (super n))) 0)),
     (with_super (set_index (index_after_reads a (index (super n))) (super n))
                 n, w)).
Proof.
  intros Hne Hn. unfold _get_labels. rewrite bind_unfold. unfold self at 1.
  cbn [fst]. unfold zeros. destruct (num_ents (super n) <? 0) eqn:E; [lia|].
  rewrite bind_unfold. cbn [mret Py_ret].
  rewrite get_labels_loop_unicode by done. do 4 f_equal.
  unfold index_after_reads. f_equal. apply (imap_pair_snd id).
Qed.

End unicode_labels.

Lemma no_str_bucket_after_reads (a : list (list pyval)) (d : DefaultDict.t) :
  no_str_bucket d → no_str_bucket (index_after_reads a d).
Proof.
  unfold index_after_reads. generalize a at 1. intros a0.
  revert d. induction a as [|x l IH]; intros d Hd; [done|].
  cbn [foldl]. by apply IH, no_str_bucket_getitem.
Qed.

Lemma tagged_has_str (key : Key) : tagged key → existsb is_str key = true.
Proof. by intros (tag & r & e & ->). Qed.

Lemma tagged_cells_ok (a : list (list pyval)) (s : One_to_N * World) :
  Forall tagged a →
  mapM (mapM cell_to_long) (drop 1 <$> a) s =
    (Ok ((fmap float_tensor_long ∘ fmap
            (λ v, match v with PInt z => z | PStr _ => 0 end)) <$>
         (drop 1 <$> a)), s).
Proof.
  intros Ha. apply mapM_ok. apply Forall_fmap.
  eapply Forall_impl; [exact Ha|].
  intros key (tag & r & e & ->) s'. by cbn.
Qed.

(** A batch request in non-inverse mode below the exhaustion boundary
    returns (with an all-zero label matrix), advances the position and
    leaves the keys as they are; the index goes through the reads of
    the label construction. *)
Lemma non_inverse_next_run (n : One_to_N) (w : World) (i : Z) :
  non_inverse_ready n →
  trip_iter (super n) = Some i →
  0 ≤ i < py_len (keys (super n)) - 1 →
  0 < bs (super n) →
  let j := Z.min (i + bs (super n)) (py_len (keys (super n))) in
  let batch_keys := py_slice (keys (super n)) i j in
  ∃ batch d',
    One_to_N.__next__ (n, w) =
      (Ok batch,
       (with_super (set_index d' (set_trip_iter j (super n))) n, w)) ∧
    no_str_bucket d' ∧
    length (One_to_N.batch_lbls batch) = length batch_keys.
Proof.
  intros (Hinv & Hne & Hkeys & Hidx) Hi Hi_range Hbs j batch_keys.
  set (n1 := with_super (set_trip_iter j (super n)) n).
  assert (batch_keys = take (Z.to_nat (j - i))
                            (drop (Z.to_nat i) (keys (super n)))) as Hslice.
  { apply py_slice_inside; unfold j, py_len in *; lia. }
  assert (Forall tagged batch_keys) as Hbatch.
  { apply Forall_forall. intros key Hkey. rewrite Forall_forall in Hkeys.
    apply Hkeys. rewrite Hslice in Hkey.
    by apply subseteq_take, subseteq_drop in Hkey. }
  assert (batch_keys ≠ []) as Hnonempty.
  { intros Hnil. apply (f_equal length) in Hnil.
    rewrite Hslice, length_take, length_drop in Hnil. cbn [length] in Hnil.
    unfold j, py_len in *. lia. }
  assert (unicode_dtype batch_keys = true) as Hu.
  { destruct batch_keys as [|x l]; [done|].
    apply Forall_cons in Hbatch as [Hx _].
    cbn [unicode_dtype existsb]. by rewrite (tagged_has_str x Hx). }
  eexists (One_to_N.mkBatch _ _ (Some _)),
    (index_after_reads batch_keys (index (super n))).
  split; [|split].
  - unfold One_to_N.__next__.
    rewrite (bind_ok _ _ _ _ _ (get_trip_iter_ok n w i Hi)).
    rewrite bind_unfold. unfold self at 1. cbn [fst].
    rewrite decide_False by lia. fold j. fold batch_keys.
    rewrite (bind_ok _ _ _ _ _ (One_to_N_increment_iter_ok n w i Hi)).
    fold j. fold n1. rewrite Hinv.
    rewrite bind_unfold. unfold np_column0.
    destruct batch_keys as [|x l] eqn:Ek; [done|]. rewrite <- Ek in *.
    cbn [mret Py_ret].
    rewrite (bind_ok _ _ _ _ _ (tagged_cells_ok batch_keys (n1, w) Hbatch)).
    rewrite (bind_ok _ _ _ _ _
               (get_labels_unicode_run batch_keys w Hu n1 Hne Hidx)).
    done.
  - by apply no_str_bucket_after_reads.
  - cbn [One_to_N.batch_lbls]. by rewrite length_replicate.
Qed.

(** ** Batch count and exhaustion, multi-label sampler *)

Lemma One_to_N_next_exhausted (n : One_to_N) (w : World) (i : Z) :
  trip_iter (super n) = Some i →
  i >= py_len (keys (super n)) - 1 →
  One_to_N.__next__ (n, w) = (Raise StopIteration, (n, w)).
Proof.
  intros Hi Hge. unfold One_to_N.__next__.
  rewrite (bind_ok _ _ _ _ _ (get_trip_iter_ok n w i Hi)).
  rewrite bind_unfold. unfold self at 1. cbn [fst].
  by rewrite decide_True by done.
Qed.

Lemma One_to_N_len_ok (n : One_to_N) (w : World) :
  bs (super n) ≠ 0 →
  One_to_N.__len__ (n, w) =
    (Ok (DefaultDict.len (index (super n)) / bs (super n)), (n, w)).
Proof.
  intros Hbs. unfold One_to_N.__len__. rewrite bind_unfold. unfold self at 1.
  cbn [fst]. by rewrite decide_False by done.
Qed.

(** A batch request below the exhaustion boundary, in either mode:
    it returns one label row per key of the slice, advances the
    position, and leaves the keys and the batch size as they are. *)
Lemma One_to_N_next_ready (n : One_to_N) (w : World) (i : Z) :
  ready n →
  trip_iter (super n) = Some i →
  0 ≤ i < py_len (keys (super n)) - 1 →
  0 < bs (super n) →
  let j := Z.min (i + bs (super n)) (py_len (keys (super n))) in
  ∃ batch n',
    One_to_N.__next__ (n, w) = (Ok batch, (n', w)) ∧
    ready n' ∧
    keys (super n') = keys (super n) ∧
    bs (super n') = bs (super n) ∧
    trip_iter (super n') = Some j ∧
    length (One_to_N.batch_lbls batch) = Z.to_nat (j - i).
Proof.
  intros [Hready|Hready] Hi Hrange Hbs j.
  - destruct (inverse_labels_correct n w i Hready Hi Hrange Hbs)
      as (batch & Hrun & _ & _ & Hlbls & _).
    exists batch, (with_super (set_trip_iter j (super n)) n).
    split; [exact Hrun|]. split; [by left|]. do 3 (split; [done|]).
    rewrite Hlbls, length_fmap, py_slice_inside
      by (unfold j, py_len in *; lia).
    rewrite length_take, length_drop. unfold j, py_len in *. lia.
  - destruct (non_inverse_next_run n w i Hready Hi Hrange Hbs)
      as (batch & d' & Hrun & Hd' & Hlen).
    exists batch, (with_super (set_index d' (set_trip_iter j (super n))) n).
    split; [exact Hrun|]. destruct Hready as (Hinv & Hne & Hkeys & _).
    split; [by right|]. do 3 (split; [done|]).
    rewrite Hlen, py_slice_inside by (unfold j, py_len in *; lia).
    rewrite length_take, length_drop. unfold j, py_len in *. lia.
Qed.

Lemma One_to_N_full_batches (m : nat) (n : One_to_N) (w : World) (j q r : Z) :
  ready n →
  trip_iter (super n) = Some (j * bs (super n)) →
  0 < bs (super n) → 0 ≤ j → j + Z.of_nat m ≤ q → 1 ≤ r →
  py_len (keys (super n)) = q * bs (super n) + r →
  ∃ batches n',
    repeatM m One_to_N.__next__ (n, w) = (Ok batches, (n', w)) ∧
    ready n' ∧
    keys (super n') = keys (super n) ∧
    bs (super n') = bs (super n) ∧
    trip_iter (super n') = Some ((j + Z.of_nat m) * bs (super n)) ∧
    length batches = m ∧
    Forall (λ b, length (One_to_N.batch_lbls b) = Z.to_nat (bs (super n)))
           batches.
Proof.
  revert n j. induction m as [|m IH]; intros n j Hready Hi Hbs Hj Hjm Hr Hlen.
  - exists [], n. replace (j + Z.of_nat 0) with j by lia. by repeat split.
  - assert (0 ≤ j * bs (super n)) as Hpos0 by nia.
    assert ((j + 1) * bs (super n) ≤ q * bs (super n)) as Hnext by nia.
    destruct (One_to_N_next_ready n w (j * bs (super n)) Hready Hi)
      as (batch & n1 & Hrun & Hready1 & Hkeys1 & Hbs1 & Hi1 & Hblen);
      [lia|done|].
    assert (Z.min (j * bs (super n) + bs (super n)) (py_len (keys (super n)))
            = (j + 1) * bs (super n)) as Hmin by lia.
    rewrite Hmin in Hi1, Hblen.
    destruct (IH n1 (j + 1)) as (batches & n' & Hrest & Hready' & Hkeys' &
                                 Hbs' & Hi' & Hblen' & Hfull);
      [done|by rewrite Hbs1|by rewrite Hbs1|lia|lia|done
      |by rewrite Hkeys1, Hbs1|].
    exists (batch :: batches), n'.
    split; [by rewrite repeatM_S, (bind_ok _ _ _ _ _ Hrun),
                       (bind_ok _ _ _ _ _ Hrest)|].
    split; [done|]. split; [congruence|]. split; [congruence|].
    split; [rewrite Hi', Hbs1; f_equal; lia|].
    split; [cbn; by rewrite Hblen'|].
    constructor; [|by rewrite <- Hbs1].
    rewrite Hblen. f_equal. lia.
Qed.

(** Construction leaves the multi-label sampler ready, with as many
    keys as the index has entries. *)
Lemma ready_init (l : list Triplet) (b ne : Z) (dev : string) (inv : bool)
    (w w' : World) (n : One_to_N) :
  0 ≤ ne → (inv = true → Forall (λ t, 0 ≤ t2 t < ne) l) →
  One_to_N.__init__ l b ne dev inv w = (Ok n, w') →
  ready n ∧ DefaultDict.len (index (super n)) = py_len (keys (super n)).
Proof.
  intros Hne Hl Hinit. split.
  - destruct inv.
    + left. by eapply inverse_ready_init; [| |exact Hinit]; [|apply Hl].
    + right.
      destruct (One_to_N_init_run l b ne dev false w)
        as (ks & g' & Hrun & Hperm).
      rewrite Hrun in Hinit. injection Hinit as <- <-.
      split; [done|]. split; [done|]. split.
      * cbn. apply Forall_forall. intros key Hkey. rewrite Hperm in Hkey.
        apply mem_elem_of, mem_build_index in Hkey as (t & _ & Hin).
        unfold emits in Hin. cbn in Hin.
        apply elem_of_cons in Hin as [->|Hin];
          [|apply list_elem_of_singleton in Hin as ->]; by eexists _, _, _.
      * cbn. apply no_str_bucket_build_index.
  - destruct (One_to_N_init_run l b ne dev inv w) as (ks & g' & Hrun & Hperm).
    rewrite Hrun in Hinit. injection Hinit as <- <-. cbn.
    unfold DefaultDict.len, py_len. f_equal.
    rewrite (Permutation_length Hperm). unfold DefaultDict.keys.
    by rewrite length_fmap.
Qed.

(** The multi-label sampler over [q * bs + r] keys, [0 < r < bs]. *)
Lemma One_to_N_final_partial (n : One_to_N) (w : World) (q r : Z) :
  ready n →
  trip_iter (super n) = Some 0 →
  DefaultDict.len (index (super n)) = py_len (keys (super n)) →
  0 ≤ q → 0 < r < bs (super n) →
  py_len (keys (super n)) = q * bs (super n) + r →
  One_to_N.__len__ (n, w) = (Ok q, (n, w)) ∧
  ∃ batches s,
    repeatM (Z.to_nat q) One_to_N.__next__ (n, w) = (Ok batches, s) ∧
    length batches = Z.to_nat q ∧
    Forall (λ b, length (One_to_N.batch_lbls b) = Z.to_nat (bs (super n)))
           batches ∧
    (2 ≤ r →
     ∃ batch s',
       One_to_N.__next__ s = (Ok batch, s') ∧
       length (One_to_N.batch_lbls batch) = Z.to_nat r ∧
       One_to_N.__next__ s' = (Raise StopIteration, s')) ∧
    (r = 1 → One_to_N.__next__ s = (Raise StopIteration, s)).
Proof.
  intros Hready Hi Hsize Hq Hr Hlen. split.
  - rewrite One_to_N_len_ok by lia. do 2 f_equal. rewrite Hsize, Hlen.
    rewrite Z.add_comm, Z.div_add by lia. rewrite Z.div_small by lia. lia.
  - destruct (One_to_N_full_batches (Z.to_nat q) n w 0 q r)
      as (batches & nq & Hrun & Hreadyq & Hkeysq & Hbsq & Hiq & Hblen & Hfull);
      [done..|lia|lia|lia|lia|done|].
    replace (0 + Z.of_nat (Z.to_nat q)) with q in Hiq by lia.
    exists batches, (nq, w). split; [done|]. split; [done|]. split; [done|].
    assert (0 ≤ q * bs (super n)) as Hqbs by nia.
    split.
    + intros Hr2.
      destruct (One_to_N_next_ready nq w (q * bs (super n)) Hreadyq Hiq)
        as (batch & n' & Hnext & _ & Hkeys' & _ & Hi' & Hblen');
        [rewrite Hkeysq; lia|rewrite Hbsq; lia|].
      rewrite Hkeysq, Hbsq in Hi', Hblen'.
      assert (Z.min (q * bs (super n) + bs (super n))
                    (py_len (keys (super n)))
              = py_len (keys (super n))) as Hmin by lia.
      rewrite Hmin in Hi', Hblen'.
      exists batch, (n', w). split; [exact Hnext|]. split.
      * rewrite Hblen'. f_equal. lia.
      * apply (One_to_N_next_exhausted _ _ (py_len (keys (super n))));
          [done|rewrite Hkeys', Hkeysq; lia].
    + intros ->. apply (One_to_N_next_exhausted _ _ (q * bs (super n)));
        [done|rewrite Hkeysq; lia].
Qed.

(** C2 (amended): for a sequence (the triplets of the pairwise
    sampler, the keys of the multi-label sampler) of length
    [q * bs + r] with [0 < r < bs], [len()] taken after construction
    reports [q]; the first [q] batch requests after [__iter__]/[reset]
    return full batches; when the remainder is at least 2 the next
    request returns one final partial batch of [r] items and the one
    after it signals exhaustion; when the remainder is exactly 1
    exhaustion is signalled right after the full batches (the guard is
    [trip_iter >= len - 1]). *)
Theorem partial_final_batch (q r : Z) :
  0 ≤ q →
  (∀ (k : One_to_K) (w : World),
     trip_iter (super k) = Some 0 →
     0 < r < bs (super k) → 2 ≤ num_ents (super k) → 1 ≤ num_negative k →
     py_len (triplets (super k)) = q * bs (super k) + r →
     One_to_K.__len__ (k, w) = (Ok q, (k, w)) ∧
     ∃ batches s,
       repeatM (Z.to_nat q) One_to_K.__next__ (k, w) = (Ok batches, s) ∧
       length batches = Z.to_nat q ∧
       Forall (λ b, shape b.1 = [Z.to_nat (bs (super k)); 3%nat]) batches ∧
       (2 ≤ r →
        ∃ pos neg s',
          One_to_K.__next__ s = (Ok (pos, neg), s') ∧
          shape pos = [Z.to_nat r; 3%nat] ∧
          One_to_K.__next__ s' = (Raise StopIteration, s')) ∧
       (r = 1 → One_to_K.__next__ s = (Raise StopIteration, s))) ∧
  (∀ (n : One_to_N) (w : World),
     ready n →
     trip_iter (super n) = Some 0 →
     DefaultDict.len (index (super n)) = py_len (keys (super n)) →
     0 < r < bs (super n) →
     py_len (keys (super n)) = q * bs (super n) + r →
     One_to_N.__len__ (n, w) = (Ok q, (n, w)) ∧
     ∃ batches s,
       repeatM (Z.to_nat q) One_to_N.__next__ (n, w) = (Ok batches, s) ∧
       length batches = Z.to_nat q ∧
       Forall (λ b, length (One_to_N.batch_lbls b) = Z.to_nat (bs (super n)))
              batches ∧
       (2 ≤ r →
        ∃ batch s',
          One_to_N.__next__ s = (Ok batch, s') ∧
          length (One_to_N.batch_lbls batch) = Z.to_nat r ∧
          One_to_N.__next__ s' = (Raise StopIteration, s')) ∧
       (r = 1 → One_to_N.__next__ s = (Raise StopIteration, s))).
Proof.
  intros Hq. split.
  - intros k w Hi Hr Hne Hnn Hlen.
    apply One_to_K_final_partial; [done|lia|done..].
  - intros n w Hready Hi Hsize Hr Hlen.
    by apply One_to_N_final_partial.
Qed.

(** Three triplets in batches of two: one counted batch, then
    exhaustion. *)
Lemma partial_final_batch_witness :
  One_to_K.__len__ (example_sampler, example_world) =
    (Ok 1, (example_sampler, example_world)) ∧
  ∃ batches s,
    repeatM 1 One_to_K.__next__ (example_sampler, example_world) =
      (Ok batches, s) ∧
    length batches = 1%nat ∧
    One_to_K.__next__ s = (Raise StopIteration, s).
Proof.
  destruct (proj1 (partial_final_batch 1 1 ltac:(lia))
                  example_sampler example_world)
    as (Hlen & batches & s & Hrun & Hblen & _ & _ & Hstop).
  - reflexivity.
  - simpl. lia.
  - simpl. lia.
  - simpl. lia.
  - reflexivity.
  - split; [exact Hlen|]. exists batches, s.
    split; [exact Hrun|]. split; [exact Hblen|]. apply Hstop. reflexivity.
Defined.

(** * Further properties of the module *)

(** ** The index as a relation on triplets *)

Section index_extras.
Import DefaultDict.

Lemma keys_append (d : DefaultDict.t) (k : Key) (x : Z) :
  keys (append d k x) = if mem d k then keys d else keys d ++ [k].
Proof.
  unfold append, getitem. destruct (mem d k) eqn:Hk.
  - by apply keys_setitem.
  - rewrite keys_setitem.
    + unfold keys. by rewrite fmap_app.
    + rewrite mem_app, Hk. cbn. by rewrite decide_True.
Qed.

Lemma NoDup_keys_append_all (d : DefaultDict.t) (es : list (Key * Z)) :
  NoDup (keys d) → NoDup (keys (append_all d es)).
Proof.
  revert d. induction es as [|[k x] es IH]; intros d Hd; [done|].
  rewrite append_all_cons. apply IH. rewrite keys_append.
  destruct (mem d k) eqn:Hk; [done|].
  apply NoDup_app. split; [done|]. split; [|apply NoDup_singleton].
  intros k' Hk' ->%list_elem_of_singleton.
  apply mem_elem_of in Hk'. congruence.
Qed.

Lemma keys_remove_duplicates (d : DefaultDict.t) :
  keys (remove_duplicates d) = keys d.
Proof.
  unfold keys, remove_duplicates. rewrite <- list_fmap_compose.
  apply list_fmap_ext. by intros i [k v] _.
Qed.

Lemma NoDup_keys_build_index (l : list Triplet) (inv : bool) :
  NoDup (keys (_build_index l inv)).
Proof.
  unfold _build_index. rewrite keys_remove_duplicates, foldl_index_add.
  apply NoDup_keys_append_all. constructor.
Qed.

End index_extras.

(** X1: the index holds exactly what the triplets say. In non-inverse
    mode h is in Index[("head", r, t)] exactly when (h, r, t) is an
    input triplet, and t is in Index[("tail", r, h)] exactly when
    (h, r, t) is one; in inverse mode t is in Index[(r, h)] exactly
    when (h, r, t) is one. No bucket holds an entity that no triplet
    puts there. *)
Theorem index_exact (l : list Triplet) (h r t : Z) :
  (h ∈ DefaultDict.peek (_build_index l false) (head_key r t) ↔
   mkTriplet h r t ∈ l) ∧
  (t ∈ DefaultDict.peek (_build_index l false) (tail_key r h) ↔
   mkTriplet h r t ∈ l) ∧
  (t ∈ DefaultDict.peek (_build_index l true) (inverse_key r h) ↔
   mkTriplet h r t ∈ l).
Proof.
  rewrite !elem_of_peek_build_index. unfold emits, head_key, tail_key,
    inverse_key. repeat split.
  - intros ([h' r' t'] & Hin & Hem). cbn in Hem.
    apply elem_of_cons in Hem as [Hem|Hem%list_elem_of_singleton];
      by simplify_eq.
  - intros Hin. exists (mkTriplet h r t). split; [done|]. cbn. by left.
  - intros ([h' r' t'] & Hin & Hem). cbn in Hem.
    apply elem_of_cons in Hem as [Hem|Hem%list_elem_of_singleton];
      by simplify_eq.
  - intros Hin. exists (mkTriplet h r t). split; [done|]. cbn.
    right. by left.
  - intros ([h' r' t'] & Hin & Hem%list_elem_of_singleton). cbn in Hem.
    by simplify_eq.
  - intros Hin. exists (mkTriplet h r t). split; [done|]. cbn. by left.
Qed.

(** X2: the index has no duplicates: every key occurs once among its
    keys, and after the deduplication pass no bucket holds an entity
    twice, however often a triplet is repeated in the input. *)
Theorem index_no_duplicates (l : list Triplet) (inv : bool) :
  NoDup (DefaultDict.keys (_build_index l inv)) ∧
  ∀ key, NoDup (DefaultDict.peek (_build_index l inv) key).
Proof.
  split; [apply NoDup_keys_build_index|].
  intros key. apply NoDup_peek_build_index.
Qed.

(** X3: the inverse-mode index is the tail half of the non-inverse
    index: for every relation r and entity h, Index[(r, h)] built with
    inverse=True and Index[("tail", r, h)] built with inverse=False
    hold the same entities; and a key (r, h) is in the one exactly
    when ("tail", r, h) is in the other. *)
Theorem inverse_index_is_tail_index (l : list Triplet) (r h : Z) :
  bucket (_build_index l true) (inverse_key r h) =
    bucket (_build_index l false) (tail_key r h) ∧
  DefaultDict.mem (_build_index l true) (inverse_key r h) =
    DefaultDict.mem (_build_index l false) (tail_key r h).
Proof.
  split.
  - unfold bucket. apply set_eq. intros e.
    rewrite !elem_of_list_to_set, !elem_of_peek_build_index.
    unfold emits, head_key, tail_key, inverse_key.
    split; intros ([h' r' t'] & Hin & Hem); cbn in Hem;
      exists (mkTriplet h' r' t'); (split; [done|]); cbn.
    + apply list_elem_of_singleton in Hem. simplify_eq. right. by left.
    + apply elem_of_cons in Hem as [Hem|Hem%list_elem_of_singleton];
        simplify_eq. by left.
  - apply eq_true_iff_eq. rewrite !mem_build_index.
    unfold emits, head_key, tail_key, inverse_key.
    split; intros ([h' r' t'] & Hin & Hem); cbn in Hem;
      exists (mkTriplet h' r' t'); (split; [done|]); cbn.
    + apply list_elem_of_singleton in Hem. simplify_eq. right. by left.
    + apply elem_of_cons in Hem as [Hem|Hem%list_elem_of_singleton];
        simplify_eq. by left.
Qed.

(** ** Duplicate triplets *)

Lemma list_set_snoc (v : list Z) (x : Z) :
  list_set (v ++ [x]) = if decide (x ∈ v) then list_set v else list_set v ++ [x].
Proof.
  induction v as [|y v IH]; [done|].
  cbn [app list_set]. rewrite IH.
  destruct (decide (x ∈ v)) as [Hin|Hnin].
  - rewrite decide_True by (apply elem_of_cons; by right). done.
  - rewrite filter_app, filter_cons, filter_nil.
    destruct (decide (x ∈ y :: v)) as [Hin|Hnin'];
      destruct (decide (x ≠ y)) as [Hne|Heq].
    + apply elem_of_cons in Hin as [?|?]; done.
    + by rewrite app_nil_r.
    + done.
    + destruct Hnin'. apply elem_of_cons. left.
      by destruct (decide (x = y)).
Qed.

Section duplicate_triplets.
Import DefaultDict.

Lemma setitem_app_absent (d d2 : DefaultDict.t) (k : Key) (v : list Z) :
  mem d k = false → setitem (d ++ d2) k v = d ++ setitem d2 k v.
Proof.
  induction d as [|[k0 v0] d IH]; cbn [app setitem mem]; [done|].
  destruct (decide (k0 = k)); [done|]. intros Hk. by rewrite IH.
Qed.

Lemma remove_duplicates_setitem (d : DefaultDict.t) (k : Key) (v : list Z) :
  remove_duplicates (setitem d k v) =
    setitem (remove_duplicates d) k (list_set v).
Proof.
  unfold remove_duplicates.
  induction d as [|[k0 v0] d IH]; cbn [setitem fmap list_fmap prod_map fst snd id];
    [done|].
  destruct (decide (k0 = k)); cbn [fmap list_fmap prod_map fst snd id];
    [done|]. by rewrite <- IH.
Qed.

(** Appending to a bucket, seen after the deduplication pass. *)
Lemma remove_duplicates_append (d : DefaultDict.t) (k : Key) (x : Z) :
  remove_duplicates (append d k x) =
    if mem d k then
      if decide (x ∈ peek d k) then remove_duplicates d
      else setitem (remove_duplicates d) k (list_set (peek d k) ++ [x])
    else remove_duplicates d ++ [(k, [x])].
Proof.
  unfold append, getitem. destruct (mem d k) eqn:Hk.
  - rewrite remove_duplicates_setitem, list_set_snoc.
    destruct (decide (x ∈ peek d k)); [|done].
    rewrite <- peek_remove_duplicates.
    assert (mem (remove_duplicates d) k = true) as Hm
      by (by rewrite mem_remove_duplicates).
    clear Hk. induction (remove_duplicates d) as [|[k0 v0] d' IH];
      cbn [mem peek setitem] in *; [done|].
    destruct (decide (k0 = k)); [done|]. by rewrite IH.
  - rewrite setitem_app_absent by done. cbn [setitem app].
    rewrite decide_True by done.
    unfold remove_duplicates. by rewrite fmap_app.
Qed.

(** What an append does to the deduplicated dict depends on the
    deduplicated dict only. *)
Lemma remove_duplicates_append_congr (d d' : DefaultDict.t) (k : Key) (x : Z) :
  remove_duplicates d = remove_duplicates d' →
  remove_duplicates (append d k x) = remove_duplicates (append d' k x).
Proof.
  intros Heq. rewrite !remove_duplicates_append.
  assert (mem d k = mem d' k) as Hm.
  { rewrite <- (mem_remove_duplicates d k), <- (mem_remove_duplicates d' k).
    by rewrite Heq. }
  assert (list_set (peek d k) = list_set (peek d' k)) as Hp.
  { rewrite <- (peek_remove_duplicates d k), <- (peek_remove_duplicates d' k).
    by rewrite Heq. }
  rewrite <- Hm, <- Hp, <- Heq. destruct (mem d k); [|done].
  destruct (decide (x ∈ peek d k)) as [Hin|Hnin].
  - rewrite decide_True; [done|].
    by rewrite <- elem_of_list_set, <- Hp, elem_of_list_set.
  - rewrite decide_False; [done|].
    by rewrite <- elem_of_list_set, <- Hp, elem_of_list_set.
Qed.

Lemma remove_duplicates_append_all_congr (d d' : DefaultDict.t)
    (es : list (Key * Z)) :
  remove_duplicates d = remove_duplicates d' →
  remove_duplicates (append_all d es) = remove_duplicates (append_all d' es).
Proof.
  revert d d'. induction es as [|[k x] es IH]; intros d d' Heq; [done|].
  rewrite !append_all_cons. by apply IH, remove_duplicates_append_congr.
Qed.

Lemma append_all_app (d : DefaultDict.t) (es1 es2 : list (Key * Z)) :
  append_all d (es1 ++ es2) = append_all (append_all d es1) es2.
Proof. unfold append_all. by rewrite foldl_app. Qed.

(** Insertions that repeat earlier ones leave no trace after the
    deduplication pass. *)
Lemma remove_duplicates_append_all_repeat (d : DefaultDict.t)
    (es1 es es2 : list (Key * Z)) :
  (∀ e, e ∈ es → e ∈ es1) →
  remove_duplicates (append_all d (es1 ++ es ++ es2)) =
    remove_duplicates (append_all d (es1 ++ es2)).
Proof.
  induction es as [|[k x] es IH]; intros Hes; [done|].
  rewrite <- IH by (intros e He; apply Hes; by right).
  rewrite !append_all_app. cbn [app]. rewrite append_all_cons.
  do 2 apply remove_duplicates_append_all_congr.
  assert ((k, x) ∈ es1) as Hin by (apply Hes; apply elem_of_cons; by left).
  rewrite remove_duplicates_append.
  assert (mem (append_all d es1) k = true) as ->.
  { rewrite mem_append_all. apply orb_true_iff. right.
    apply bool_decide_eq_true. apply list_elem_of_fmap. by exists (k, x). }
  rewrite decide_True; [done|].
  rewrite peek_append_all. apply elem_of_app. right.
  apply list_elem_of_fmap. exists (k, x). split; [done|].
  by apply list_elem_of_filter.
Qed.

(** Dropping a later occurrence of a triplet gives the very same
    index: same keys in the same order, same buckets. *)
Lemma build_index_drop_later (inv : bool) (t : Triplet)
    (l1 l2 l3 : list Triplet) :
  _build_index (l1 ++ t :: l2 ++ t :: l3) inv =
    _build_index (l1 ++ t :: l2 ++ l3) inv.
Proof.
  unfold _build_index. rewrite !foldl_index_add.
  replace ((l1 ++ t :: l2 ++ t :: l3) ≫= emits inv)
    with (((l1 ++ t :: l2) ≫= emits inv) ++ emits inv t ++ (l3 ≫= emits inv)).
  - replace ((l1 ++ t :: l2 ++ l3) ≫= emits inv)
      with (((l1 ++ t :: l2) ≫= emits inv) ++ (l3 ≫= emits inv)).
    + apply remove_duplicates_append_all_repeat. intros e He.
      apply list_elem_of_bind. exists t. split; [done|].
      apply elem_of_app. right. left.
    + rewrite <- bind_app. f_equal. by rewrite <- app_assoc.
  - rewrite <- (bind_cons (emits inv) t l3), <- bind_app. f_equal.
    by rewrite <- app_assoc.
Qed.

(** Two triplet lists with the same members give indexes with the
    same keys and the same buckets, up to the order in which they are
    listed. *)
Lemma build_index_same_members (l1 l2 : list Triplet) (inv : bool) :
  (∀ t, t ∈ l1 ↔ t ∈ l2) →
  keys (_build_index l1 inv) ≡ₚ keys (_build_index l2 inv) ∧
  ∀ key, peek (_build_index l1 inv) key ≡ₚ peek (_build_index l2 inv) key.
Proof.
  intros Hl. split.
  - apply NoDup_Permutation; [apply NoDup_keys_build_index..|].
    intros key. rewrite <- !mem_elem_of, !mem_build_index.
    by setoid_rewrite Hl.
  - intros key.
    apply NoDup_Permutation; [apply NoDup_peek_build_index..|].
    intros e. rewrite !elem_of_peek_build_index. by setoid_rewrite Hl.
Qed.

End duplicate_triplets.

(** C9: index construction is idempotent with respect to duplicate
    triplets. A list in which a triplet occurs twice gives exactly the
    index of the list with the later occurrence removed: the same
    keys in the same order and the same buckets, every entity listed
    once. Removing the earlier occurrence instead gives the same keys
    and, under every key, the same entities each listed once, the
    order of keys and of entities apart. In both cases the mapping
    from keys to entity sets is the same. *)
Theorem build_index_duplicate_idempotent
    (inv : bool) (t : Triplet) (l1 l2 l3 : list Triplet) :
  _build_index (l1 ++ t :: l2 ++ t :: l3) inv =
    _build_index (l1 ++ t :: l2 ++ l3) inv ∧
  DefaultDict.keys (_build_index (l1 ++ t :: l2 ++ t :: l3) inv) ≡ₚ
    DefaultDict.keys (_build_index (l1 ++ l2 ++ t :: l3) inv) ∧
  (∀ key,
     DefaultDict.peek (_build_index (l1 ++ t :: l2 ++ t :: l3) inv) key ≡ₚ
       DefaultDict.peek (_build_index (l1 ++ l2 ++ t :: l3) inv) key) ∧
  (∀ key,
     NoDup (DefaultDict.peek (_build_index (l1 ++ t :: l2 ++ t :: l3) inv)
                             key)) ∧
  DefaultDict.view (_build_index (l1 ++ t :: l2 ++ t :: l3) inv) =
    DefaultDict.view (_build_index (l1 ++ t :: l2 ++ l3) inv) ∧
  DefaultDict.view (_build_index (l1 ++ t :: l2 ++ t :: l3) inv) =
    DefaultDict.view (_build_index (l1 ++ l2 ++ t :: l3) inv).
Proof.
  assert (∀ t', t' ∈ l1 ++ t :: l2 ++ t :: l3 ↔ t' ∈ l1 ++ l2 ++ t :: l3)
    as Hmembers.
  { intros t'.
    rewrite ?elem_of_app, ?elem_of_cons, ?elem_of_app, ?elem_of_cons. tauto. }
  destruct (build_index_same_members _ _ inv Hmembers) as [Hkeys Hbuckets].
  split; [apply build_index_drop_later|].
  split; [exact Hkeys|]. split; [exact Hbuckets|].
  split; [intros key; apply NoDup_peek_build_index|].
  split.
  - by rewrite build_index_drop_later.
  - by apply view_build_index_ext.
Qed.

(** ** The keys of a multi-label sampler *)

(** X4: constructing a multi-label sampler returns, for every input,
    a sampler whose shuffled key list holds every key of the index
    exactly once: a key is among them exactly when some input triplet
    (h, r, t) contributes it ((r, h) in inverse mode; ("head", r, t)
    or ("tail", r, h) otherwise), no key is listed twice, and there
    are as many keys as index entries. *)
Theorem multilabel_keys_once (l : list Triplet) (b ne : Z) (dev : string)
    (inv : bool) (w : World) :
  ∃ n w',
    One_to_N.__init__ l b ne dev inv w = (Ok n, w') ∧
    NoDup (keys (super n)) ∧
    py_len (keys (super n)) = DefaultDict.len (index (super n)) ∧
    ∀ key,
      key ∈ keys (super n) ↔
      ∃ t, t ∈ l ∧
           if inv then key = inverse_key (t1 t) (t0 t)
           else key = head_key (t1 t) (t2 t) ∨ key = tail_key (t1 t) (t0 t).
Proof.
  destruct (One_to_N_init_run l b ne dev inv w) as (ks & g' & Hrun & Hperm).
  eexists _, _. split; [exact Hrun|]. cbn [super One_to_N_extends N_super].
  unfold set_keys, Sampler_init. cbn [keys index].
  split; [|split].
  - rewrite Hperm. apply NoDup_keys_build_index.
  - unfold py_len, DefaultDict.len, DefaultDict.keys in *.
    rewrite Hperm. by rewrite length_fmap.
  - intros key. rewrite Hperm, <- mem_elem_of, mem_build_index.
    split; intros (t & Hin & Hkey); exists t; (split; [done|]);
      unfold emits in *; destruct inv; cbn in *.
    + by apply list_elem_of_singleton in Hkey.
    + apply elem_of_cons in Hkey as [Hkey|Hkey%list_elem_of_singleton];
        tauto.
    + by apply list_elem_of_singleton.
    + destruct Hkey as [->| ->]; [by left|right; by left].
Qed.

(** ** Label construction on any sample array *)

Lemma for_each_app {S A B} (l1 l2 : list A) (body : A → B → Py S B)
    (acc : B) (s : S) :
  for_each (l1 ++ l2) body acc s =
    (acc' ← for_each l1 body acc; for_each l2 body acc') s.
Proof.
  revert acc s. induction l1 as [|x l1 IH]; intros acc s.
  - by rewrite bind_unfold.
  - cbn [app]. rewrite !for_each_cons, !bind_unfold.
    destruct (body x acc s) as [[acc'|e] s']; [|done].
    by rewrite IH, bind_unfold.
Qed.

Lemma length_ones_at (lbls row : list Z) :
  length (ones_at row lbls) = length row.
Proof.
  unfold ones_at. generalize (py_len row). intros n. revert row.
  induction lbls as [|l lbls IH]; intros row; [done|].
  cbn [foldl]. by rewrite IH, length_insert.
Qed.

Lemma set_ones_in_range {T} `{Extends T} (lbls row : list Z) (s : T * World) :
  indexable (py_len row) lbls → set_ones row lbls s = (Ok (ones_at row lbls), s).
Proof.
  unfold ones_at. remember (py_len row) as n eqn:Hn.
  revert row Hn. induction lbls as [|l lbls IH]; intros row Hn Hl; [done|].
  apply Forall_cons in Hl as [Hl Hlbls]. cbn [set_ones foldl].
  rewrite <- Hn. rewrite decide_True by done. apply IH; [|done].
  unfold py_len in *. by rewrite length_insert.
Qed.

Lemma set_ones_out_of_range {T} `{Extends T} (lbls row : list Z)
    (s : T * World) :
  ¬ indexable (py_len row) lbls → set_ones row lbls s = (Raise IndexError, s).
Proof.
  remember (py_len row) as n eqn:Hn.
  revert row Hn. induction lbls as [|l lbls IH]; intros row Hn Hl.
  - destruct Hl. constructor.
  - cbn [set_ones]. rewrite <- Hn.
    destruct (decide (- n ≤ l < n)) as [Hin|Hout]; [|done].
    apply IH.
    + unfold py_len in *. by rewrite length_insert.
    + intros Hlbls. apply Hl. by constructor.
Qed.

Lemma ones_at_label_row (d : DefaultDict.t) (ne : Z) (key : Key) :
  0 ≤ ne → Forall (λ e, 0 ≤ e < ne) (DefaultDict.peek d key) →
  ones_at (replicate (Z.to_nat ne) 0) (DefaultDict.peek d key) =
    label_row d ne key.
Proof.
  intros Hne Hrange. rewrite <- set_ones_label_row by done.
  unfold ones_at. generalize (py_len (replicate (Z.to_nat ne) 0)).
  intros n. generalize (replicate (Z.to_nat ne) 0).
  induction Hrange as [|e lbls He _ IH]; intros row; [done|].
  cbn [foldl]. destruct (e <? 0) eqn:E; [lia|]. apply IH.
Qed.

Lemma not_Forall_split {A} (P : A → Prop) `{∀ x, Decision (P x)}
    (l : list A) :
  ¬ Forall P l → ∃ l1 x l2, l = l1 ++ x :: l2 ∧ Forall P l1 ∧ ¬ P x.
Proof.
  induction l as [|x l IH]; intros Hl.
  - destruct Hl. constructor.
  - destruct (decide (P x)) as [Hx|Hx].
    + destruct IH as (l1 & y & l2 & -> & Hl1 & Hy).
      { intros Hl'. apply Hl. by constructor. }
      exists (x :: l1), y, l2. repeat split; [by constructor|done].
    + exists [], x, l. by repeat split.
Qed.

Section get_labels_general.
Context {T : Type} `{Extends T}.
Hypothesis super_with_super : ∀ s (k : T), super (with_super s k) = s.
Hypothesis with_super_twice :
  ∀ s s' (k : T), with_super s (with_super s' k) = with_super s k.
Hypothesis with_super_same : ∀ k : T, with_super (super k) k = k.
Context (a : NpArray) (k : T) (w : World).

(** The sampler with its index replaced. *)
Let at_index (d : DefaultDict.t) : T := with_super (set_index d (super k)) k.

Let zero_row : list Z := replicate (Z.to_nat (num_ents (super k))) 0.

Let reads (d : DefaultDict.t) (l : list (list pyval)) : DefaultDict.t :=
  foldl (λ d x, (DefaultDict.getitem d (np_tuple a x)).2) d l.

Lemma index_getitem_at (d : DefaultDict.t) (key : Key) :
  index_getitem key (at_index d, w) =
    (Ok (DefaultDict.peek d key),
     (at_index (DefaultDict.getitem d key).2, w)).
Proof.
  rewrite index_getitem_run. unfold at_index.
  by rewrite super_with_super, with_super_twice.
Qed.

Lemma at_index_same : at_index (index (super k)) = k.
Proof.
  unfold at_index. trans (with_super (super k) k); [|apply with_super_same].
  f_equal. by destruct (super k).
Qed.

Lemma peek_reads (d : DefaultDict.t) (l : list (list pyval)) (key : Key) :
  DefaultDict.peek (reads d l) key = DefaultDict.peek d key.
Proof.
  revert d. induction l as [|x l IH]; intros d; [done|].
  unfold reads in *. cbn [foldl]. by rewrite IH, peek_getitem.
Qed.

(** The loop of [_get_labels] over rows whose buckets can index a
    label row: row [off + j] is set from the bucket of the [j]-th
    key, and every key is read from the index. *)
Lemma get_labels_loop_general (l : list (list pyval)) (off : nat)
    (y : list (list Z)) (d : DefaultDict.t) :
  Forall (λ x, indexable (py_len zero_row)
                         (DefaultDict.peek d (np_tuple a x))) l →
  (∀ j, (j < length l)%nat → y !! (off + j)%nat = Some zero_row) →
  for_each (imap (λ j x, ((off + j)%nat, x)) l)
    (λ '(i, x) y,
       lbls ← index_getitem (np_tuple a x);
       row ← set_ones (default [] (y !! i)) lbls;
       mret (<[i := row]> y)) y (at_index d, w) =
    (Ok (take off y ++
         ((λ x, ones_at zero_row (DefaultDict.peek d (np_tuple a x))) <$> l) ++
         drop (off + length l) y),
     (at_index (reads d l), w)).
Proof.
  intros Hl. revert off y d Hl.
  induction l as [|x l IH]; intros off y d Hl Hy.
  - cbn [imap for_each fmap list_fmap length app].
    by rewrite Nat.add_0_r, take_drop.
  - apply Forall_cons in Hl as [Hx Hl].
    cbn [imap]. rewrite for_each_cons.
    pose proof (Hy 0%nat ltac:(cbn; lia)) as Hy0.
    rewrite Nat.add_0_r in Hy0 |- *.
    set (row := ones_at zero_row (DefaultDict.peek d (np_tuple a x))).
    set (d1 := (DefaultDict.getitem d (np_tuple a x)).2).
    assert ((lbls ← index_getitem (np_tuple a x);
             row ← set_ones (default [] (y !! off)) lbls;
             mret (<[off := row]> y)) (at_index d, w) =
            (Ok (<[off := row]> y), (at_index d1, w))) as Hbody.
    { rewrite (bind_ok _ _ _ _ _ (index_getitem_at _ _)).
      rewrite Hy0. cbn [default from_option id].
      by rewrite (bind_ok _ _ _ _ _ (set_ones_in_range _ _ _ Hx)). }
    rewrite (bind_ok _ _ _ _ _ Hbody).
    rewrite (imap_ext _ (λ j x, ((S off + j)%nat, x)))
      by (intros j x' _; cbn; f_equal; lia).
    rewrite IH.
    + pose proof (lookup_lt_Some _ _ _ Hy0) as Hoff.
      f_equal. f_equal.
      rewrite (take_S_r _ _ row) by (by apply list_lookup_insert_eq).
      rewrite take_insert_ge by lia. rewrite <- app_assoc.
      cbn [app fmap list_fmap]. f_equal. f_equal. f_equal.
      * apply list_fmap_ext. intros j x' _. cbn. f_equal.
        apply peek_getitem.
      * rewrite drop_insert_lt by lia. cbn [length]. f_equal. lia.
    + eapply Forall_impl; [exact Hl|]. intros x' Hx'. cbn.
      unfold d1. by rewrite peek_getitem.
    + intros j Hj. rewrite list_lookup_insert_ne by lia.
      replace (S off + j)%nat with (off + S j)%nat by lia.
      apply Hy. cbn. lia.
Qed.

Lemma zeros_run (b : nat) :
  0 ≤ num_ents (super k) →
  zeros b (num_ents (super k)) (k, w) = (Ok (replicate b zero_row), (k, w)).
Proof.
  intros Hne. unfold zeros.
  by destruct (num_ents (super k) <? 0) eqn:E; [lia|].
Qed.

(** Label construction when every bucket read can index a row. *)
Lemma get_labels_run :
  0 ≤ num_ents (super k) →
  Forall (λ x, indexable (num_ents (super k))
                 (DefaultDict.peek (index (super k)) (np_tuple a x))) a →
  _get_labels a (k, w) =
    (Ok ((λ x, ones_at zero_row
                 (DefaultDict.peek (index (super k)) (np_tuple a x))) <$> a),
     (at_index (index_after_reads a (index (super k))), w)).
Proof.
  intros Hne Hall. unfold _get_labels. rewrite bind_unfold. unfold self at 1.
  cbn [fst].
  rewrite (bind_ok _ _ _ _ _ (zeros_run (length a) Hne)).
  rewrite <- at_index_same at 1.
  rewrite (imap_ext pair (λ j x, ((0 + j)%nat, x))) by done.
  etrans; [apply get_labels_loop_general|].
  - eapply Forall_impl; [exact Hall|]. intros x Hx. cbn.
    unfold py_len, zero_row. rewrite length_replicate. by rewrite Z2Nat.id.
  - intros j Hj. by apply lookup_replicate_2.
  - rewrite take_0, app_nil_l, drop_ge, app_nil_r; [done|].
    by rewrite length_replicate.
Qed.

(** Label construction stops with [IndexError] at the first row whose
    bucket holds an entity outside [[-num_ents, num_ents)]; the keys
    up to that row have been read. *)
Lemma get_labels_raises (l1 l2 : list (list pyval)) (x : list pyval) :
  0 ≤ num_ents (super k) →
  a = l1 ++ x :: l2 →
  Forall (λ x, indexable (num_ents (super k))
                 (DefaultDict.peek (index (super k)) (np_tuple a x))) l1 →
  ¬ indexable (num_ents (super k))
      (DefaultDict.peek (index (super k)) (np_tuple a x)) →
  _get_labels a (k, w) =
    (Raise IndexError,
     (at_index (reads (index (super k)) (l1 ++ [x])), w)).
Proof.
  intros Hne Ha Hl1 Hx. unfold _get_labels. rewrite bind_unfold.
  unfold self at 1. cbn [fst].
  rewrite (bind_ok _ _ _ _ _ (zeros_run (length a) Hne)).
  rewrite <- at_index_same at 1.
  assert (py_len zero_row = num_ents (super k)) as Hzero.
  { unfold py_len, zero_row. rewrite length_replicate. by rewrite Z2Nat.id. }
  rewrite (imap_ext pair (λ j x, ((0 + j)%nat, x))) by done.
  replace (imap (λ j x0, ((0 + j)%nat, x0)) a)
    with (imap (λ j x0, ((0 + j)%nat, x0)) (l1 ++ x :: l2))
    by (by rewrite <- Ha).
  rewrite imap_app. rewrite for_each_app.
  erewrite bind_ok; cycle 1.
  { apply get_labels_loop_general.
    - by rewrite Hzero.
    - intros j Hj. apply lookup_replicate_2. rewrite Ha, length_app. lia. }
  cbn [imap]. rewrite for_each_cons.
  apply bind_raise.
  rewrite (bind_ok _ _ _ _ _ (index_getitem_at _ _)).
  rewrite peek_reads.
  assert ((take 0 (replicate (length a) zero_row) ++
           ((λ x0, ones_at zero_row
                     (DefaultDict.peek (index (super k)) (np_tuple a x0)))
              <$> l1) ++
           drop (0 + length l1) (replicate (length a) zero_row))
            !! (0 + (length l1 + 0))%nat = Some zero_row) as Hrow.
  { rewrite take_0, app_nil_l, Nat.add_0_r, !Nat.add_0_l.
    rewrite lookup_app_r by (by rewrite length_fmap).
    rewrite length_fmap, Nat.sub_diag, lookup_drop, Nat.add_0_r.
    apply lookup_replicate_2. rewrite Ha, length_app. cbn. lia. }
  rewrite Hrow.
  cbn [default from_option id].
  assert (¬ indexable (py_len zero_row)
              (DefaultDict.peek (index (super k)) (np_tuple a x))) as Hx'
    by (by rewrite Hzero).
  rewrite (bind_raise _ _ _ _ _ (set_ones_out_of_range _ _ _ Hx')).
  unfold reads. by rewrite foldl_app.
Qed.

End get_labels_general.

Lemma One_to_N_with_super_same (n : One_to_N) : with_super (super n) n = n.
Proof. by destruct n. Qed.

Lemma One_to_K_with_super_same (k : One_to_K) : with_super (super k) k = k.
Proof. by destruct k. Qed.

Lemma mem_getitem_mono (d : DefaultDict.t) (k k' : Key) :
  DefaultDict.mem d k' = true →
  DefaultDict.mem (DefaultDict.getitem d k).2 k' = true.
Proof.
  intros Hk'. unfold DefaultDict.getitem.
  destruct (DefaultDict.mem d k) eqn:E; [done|].
  cbn [snd]. by rewrite mem_app, Hk'.
Qed.

Lemma mem_getitem_self (d : DefaultDict.t) (k : Key) :
  DefaultDict.mem (DefaultDict.getitem d k).2 k = true.
Proof.
  unfold DefaultDict.getitem.
  destruct (DefaultDict.mem d k) eqn:E; [done|].
  cbn [snd]. rewrite mem_app. apply orb_true_iff. right.
  apply mem_elem_of. cbn. by left.
Qed.

(** X5: label construction on any sample array, whether its keys are
    in the index or not and whether numpy has turned them into strings
    or not: when the buckets read hold entities of [0, num_ents) only,
    it returns one row per sample, the row of the key as numpy hands
    it back (1 at the entities of its bucket, 0 elsewhere, all zeros
    for a key that is not in the index), and it leaves the sampler as
    it was apart from the index, in which every key read is now
    present. *)
Theorem get_labels_any_array (n : One_to_N) (w : World) (a : NpArray) :
  0 ≤ num_ents (super n) →
  Forall (λ x, Forall (λ e, 0 ≤ e < num_ents (super n))
                 (DefaultDict.peek (index (super n)) (np_tuple a x))) a →
  _get_labels a (n, w) =
    (Ok ((λ x, label_row (index (super n)) (num_ents (super n))
                         (np_tuple a x)) <$> a),
     (with_super (set_index (index_after_reads a (index (super n))) (super n))
                 n, w)) ∧
  Forall (λ x, DefaultDict.mem (index_after_reads a (index (super n)))
                               (np_tuple a x) = true) a.
Proof.
  intros Hne Hrange. split.
  - rewrite (get_labels_run (T:=One_to_N)); [| done | done |
      apply One_to_N_with_super_same | done |].
    + f_equal. f_equal. apply list_fmap_ext. intros i x Hx. cbn.
      apply ones_at_label_row; [done|].
      by apply (proj1 (Forall_lookup _ _) Hrange i).
    + eapply Forall_impl; [exact Hrange|]. intros x Hx. cbn.
      eapply Forall_impl; [exact Hx|]. cbn. lia.
  - unfold index_after_reads. generalize (index (super n)). clear Hrange.
    generalize a at 1 3. intros a0.
    induction a as [|x a' IH] using rev_ind; intros d; [constructor|].
    rewrite foldl_app. cbn [foldl]. apply Forall_app. split.
    + eapply Forall_impl; [apply (IH d)|]. intros y Hy.
      by apply mem_getitem_mono.
    + constructor; [|constructor]. apply mem_getitem_self.
Qed.

(** An int key of the index and an int key that is not in it. *)
Lemma get_labels_any_array_witness :
  _get_labels [[PInt 0; PInt 0]; [PInt 5; PInt 5]]
              (example_multilabel, example_world) =
    (Ok [[0; 1; 0]; [0; 0; 0]],
     (with_super
        (set_index
           (index_after_reads [[PInt 0; PInt 0]; [PInt 5; PInt 5]]
                              (index (super example_multilabel)))
           (super example_multilabel))
        example_multilabel, example_world)).
Proof.
  refine (proj1 (get_labels_any_array example_multilabel example_world
                   [[PInt 0; PInt 0]; [PInt 5; PInt 5]] _ _)).
  - simpl. lia.
  - repeat constructor; simpl; lia.
Defined.

(** X6: what label construction raises. With a negative num_ents it
    raises RuntimeError before reading the index. Otherwise it returns
    (one row per sample) exactly when every bucket it reads holds
    entities of [-num_ents, num_ents) only, a negative entity counting
    from the end of the row; and it raises IndexError as soon as a
    bucket holds an entity outside that range. *)
Theorem get_labels_index_error (n : One_to_N) (w : World) (a : NpArray) :
  (num_ents (super n) < 0 →
   _get_labels a (n, w) = (Raise RuntimeError, (n, w))) ∧
  (0 ≤ num_ents (super n) →
   Forall (λ x, indexable (num_ents (super n))
                  (DefaultDict.peek (index (super n)) (np_tuple a x))) a →
   ∃ y s', _get_labels a (n, w) = (Ok y, s') ∧
           length y = length a ∧
           Forall (λ row, py_len row = num_ents (super n)) y) ∧
  (0 ≤ num_ents (super n) →
   ¬ Forall (λ x, indexable (num_ents (super n))
                    (DefaultDict.peek (index (super n)) (np_tuple a x))) a →
   ∃ s', _get_labels a (n, w) = (Raise IndexError, s')).
Proof.
  split; [|split].
  - intros Hne. unfold _get_labels. rewrite bind_unfold. unfold self at 1.
    cbn [fst]. apply bind_raise. unfold zeros.
    by destruct (num_ents (super n) <? 0) eqn:E; [|lia].
  - intros Hne Hall. eexists _, _. split; [|split].
    + by apply (get_labels_run (T:=One_to_N));
        [| |apply One_to_N_with_super_same| |].
    + by rewrite length_fmap.
    + apply Forall_fmap, Forall_true. intros x. cbn. unfold py_len.
      rewrite length_ones_at, length_replicate. by apply Z2Nat.id.
  - intros Hne Hbad.
    apply not_Forall_split in Hbad as (l1 & x & l2 & Ha & Hl1 & Hx);
      [|intros x; unfold indexable; apply _].
    eexists.
    eapply (get_labels_raises (T:=One_to_N));
      [done|done|apply One_to_N_with_super_same|done|exact Ha|exact Hl1
      |exact Hx].
Qed.

(** Entity 2 in a sampler of two entities: the key (0,1), whose bucket
    is [2], makes label construction raise. *)
Lemma get_labels_index_error_witness :
  ∃ s', _get_labels [[PInt 0; PInt 1]]
                    (example_short_multilabel, example_world) =
          (Raise IndexError, s').
Proof.
  refine (proj2 (proj2 (get_labels_index_error example_short_multilabel
                          example_world [[PInt 0; PInt 1]])) _ _).
  - simpl. lia.
  - intros Hall. apply Forall_cons in Hall as [Hrow _].
    unfold indexable in Hrow.
    replace (DefaultDict.peek (index (super example_short_multilabel))
               (np_tuple [[PInt 0; PInt 1]] [PInt 0; PInt 1]))
      with [2] in Hrow by reflexivity.
    apply Forall_cons in Hrow as [Hrow _]. simpl in Hrow. lia.
Defined.

(** ** What a call can change *)

Lemma One_to_K_shuffle_run (k : One_to_K) (w : World) :
  ∃ l' g',
    _shuffle (k, w) =
      (Ok tt,
       (with_super (set_triplets l' (super k)) k,
        mkWorld g' (py_random w) (store w))) ∧
    l' ≡ₚ triplets (super k).
Proof.
  destruct (np_random_shuffle_perm (triplets (super k)) (np_random w))
    as (l' & g' & Hrun & Hperm).
  exists l', g'. split; [|done].
  cbn [_shuffle One_to_K_class]. rewrite bind_unfold. unfold self at 1.
  cbn [fst].
  by rewrite (bind_ok _ _ _ _ _ (in_world_ok _ _ _ _ _ (with_np_ok _ _ _ _ Hrun))).
Qed.

Lemma One_to_N_shuffle_run (n : One_to_N) (w : World) :
  ∃ l' g',
    _shuffle (n, w) =
      (Ok tt,
       (with_super (set_keys l' (super n)) n,
        mkWorld g' (py_random w) (store w))) ∧
    l' ≡ₚ keys (super n).
Proof.
  destruct (np_random_shuffle_perm (keys (super n)) (np_random w))
    as (l' & g' & Hrun & Hperm).
  exists l', g'. split; [|done].
  cbn [_shuffle One_to_N_class]. rewrite bind_unfold. unfold self at 1.
  cbn [fst].
  by rewrite (bind_ok _ _ _ _ _ (in_world_ok _ _ _ _ _ (with_np_ok _ _ _ _ Hrun))).
Qed.

(** Negative sampling works on the tensors and the generator only. *)
Lemma One_to_K_sample_negative_object (samples : Tensor) (k : One_to_K)
    (w : World) :
  (One_to_K._sample_negative samples (k, w)).2.1 = k.
Proof.
  assert (keeps (λ s : One_to_K * World, s.1 = k)
                (One_to_K._sample_negative samples)) as Hkeeps.
  { unfold One_to_K._sample_negative.
    apply keeps_bind; [by intros s Hs|]. intros s.
    apply keeps_bind; [|intros ts; apply (keeps_in_world (λ k', k' = k))].
    apply keeps_for_each. intros _ acc.
    apply keeps_for_each. intros t acc'.
    apply keeps_bind; [apply (keeps_in_world (λ k', k' = k))|].
    intros new. apply keeps_ret. }
  by apply (Hkeeps (k, w)).
Qed.

Section One_to_K_effects.
Context (J : One_to_K → Prop).
Hypothesis J_closed :
  ∀ k s', One_to_K_effect (super k) s' → J k → J (with_super s' k).

Let obj : One_to_K * World → Prop := λ s, J s.1.

Lemma One_to_K_effect_iter : keeps obj __iter__.
Proof.
  apply (keeps_update J). intros k Hk. apply J_closed; [constructor|done].
Qed.

Lemma One_to_K_effect_shuffle : keeps obj _shuffle.
Proof.
  intros [k w] Hk.
  destruct (One_to_K_shuffle_run k w) as (l' & g' & -> & Hperm).
  cbn [snd fst]. apply J_closed; [by constructor|done].
Qed.

Lemma One_to_K_effect_next : keeps obj One_to_K.__next__.
Proof.
  intros [k w] Hk. unfold obj in *. cbn [fst] in Hk.
  unfold One_to_K.__next__.
  destruct (trip_iter (super k)) as [i|] eqn:Hi.
  - rewrite (bind_ok _ _ _ _ _ (get_trip_iter_ok _ _ _ Hi)).
    rewrite bind_unfold. unfold self at 1. cbn [fst].
    destruct (decide _) as [Hstop|Hgo]; [done|].
    rewrite bind_unfold, in_world_run.
    destruct (with_store _ w) as [[pos|e] w1]; [|done].
    rewrite bind_unfold.
    pose proof (One_to_K_sample_negative_object pos k w1) as Hobj.
    destruct (One_to_K._sample_negative pos (k, w1)) as [[neg|e] [k2 w2]];
      cbn [fst snd] in Hobj; subst k2; [|done].
    rewrite (bind_ok _ _ _ _ _ (One_to_K_increment_iter_ok _ _ _ Hi)).
    cbn [mret Py_ret snd fst].
    apply J_closed; [|done]. constructor; [done|lia].
  - by rewrite (bind_raise _ _ _ _ _ (get_trip_iter_unset _ _ Hi)).
Qed.

Lemma One_to_K_effect_index_getitem (key : Key) :
  keeps obj (index_getitem key).
Proof.
  intros [k w] Hk. rewrite index_getitem_run. cbn [snd fst].
  apply J_closed; [constructor|done].
Qed.

(** Every call keeps what the elementary changes keep. *)
Lemma One_to_K_effect_call (c : call) : keeps obj (call_K c).
Proof.
  destruct c as [| | | |a]; cbn [call_K].
  - apply keeps_bind; [apply One_to_K_effect_iter|].
    intros _. apply One_to_K_effect_shuffle.
  - apply One_to_K_effect_iter.
  - apply keeps_bind; [apply One_to_K_effect_next|]. intros _.
    apply keeps_ret.
  - apply keeps_bind; [|intros _; apply keeps_ret].
    apply keeps_bind; [apply (keeps_self J)|].
    intros s. destruct (decide _); [apply keeps_raise|apply keeps_ret].
  - apply keeps_bind; [|intros _; apply keeps_ret].
    apply (keeps_get_labels J). apply One_to_K_effect_index_getitem.
Qed.

Lemma One_to_K_effect_calls (cs : list call) (k : One_to_K) (w : World) :
  J k → J (run_calls call_K cs (k, w)).1.
Proof.
  intros Hk. apply (keeps_run_calls obj); [|done].
  apply One_to_K_effect_call.
Qed.

End One_to_K_effects.

Section One_to_N_effects.
Context (J : One_to_N → Prop).
Hypothesis J_closed :
  ∀ n s', One_to_N_effect (super n) s' → J n → J (with_super s' n).

Let obj : One_to_N * World → Prop := λ s, J s.1.

Lemma One_to_N_effect_iter : keeps obj __iter__.
Proof.
  apply (keeps_update J). intros n Hn. apply J_closed; [constructor|done].
Qed.

Lemma One_to_N_effect_shuffle : keeps obj _shuffle.
Proof.
  intros [n w] Hn.
  destruct (One_to_N_shuffle_run n w) as (l' & g' & -> & Hperm).
  cbn [snd fst]. apply J_closed; [by constructor|done].
Qed.

Lemma One_to_N_effect_index_getitem (key : Key) :
  keeps obj (index_getitem key).
Proof.
  intros [n w] Hn. rewrite index_getitem_run. cbn [snd fst].
  apply J_closed; [constructor|done].
Qed.

Lemma One_to_N_effect_next : keeps obj One_to_N.__next__.
Proof.
  assert (∀ a, keeps obj (_get_labels a)) as Hlabels.
  { intros a. apply (keeps_get_labels J).
    apply One_to_N_effect_index_getitem. }
  intros [n w] Hn. unfold obj in *. cbn [fst] in Hn.
  unfold One_to_N.__next__.
  destruct (trip_iter (super n)) as [i|] eqn:Hi.
  - rewrite (bind_ok _ _ _ _ _ (get_trip_iter_ok _ _ _ Hi)).
    rewrite bind_unfold. unfold self at 1. cbn [fst].
    destruct (decide _) as [Hstop|Hgo]; [done|].
    rewrite (bind_ok _ _ _ _ _ (One_to_N_increment_iter_ok _ _ _ Hi)).
    match goal with
    | |- J (?m (?n1, w)).2.1 =>
        assert (keeps obj m) as Hrest; [|apply (Hrest (n1, w))]
    end.
    + destruct (inverse (super n)).
      * apply keeps_bind.
        { apply keeps_mapM. intros r. apply keeps_mapM. intros v.
          apply (keeps_int_cell_to_long J). }
        intros ix. apply keeps_bind; [apply Hlabels|]. intros y.
        apply keeps_ret.
      * apply keeps_bind; [apply (keeps_np_column0 J)|].
        intros tt. apply keeps_bind.
        { apply keeps_mapM. intros r. apply keeps_mapM. intros v.
          apply (keeps_cell_to_long J). }
        intros ix. apply keeps_bind; [apply Hlabels|]. intros y.
        apply keeps_ret.
    + cbn [fst]. apply J_closed; [|done]. constructor; [done|lia].
  - by rewrite (bind_raise _ _ _ _ _ (get_trip_iter_unset _ _ Hi)).
Qed.

Lemma One_to_N_effect_call (c : call) : keeps obj (call_N c).
Proof.
  destruct c as [| | | |a]; cbn [call_N].
  - apply keeps_bind; [apply One_to_N_effect_iter|].
    intros _. apply One_to_N_effect_shuffle.
  - apply One_to_N_effect_iter.
  - apply keeps_bind; [apply One_to_N_effect_next|]. intros _.
    apply keeps_ret.
  - apply keeps_bind; [|intros _; apply keeps_ret].
    apply keeps_bind; [apply (keeps_self J)|].
    intros s. destruct (decide _); [apply keeps_raise|apply keeps_ret].
  - apply keeps_bind; [|intros _; apply keeps_ret].
    apply (keeps_get_labels J). apply One_to_N_effect_index_getitem.
Qed.

Lemma One_to_N_effect_calls (cs : list call) (n : One_to_N) (w : World) :
  J n → J (run_calls call_N cs (n, w)).1.
Proof.
  intros Hn. apply (keeps_run_calls obj); [|done].
  apply One_to_N_effect_call.
Qed.

End One_to_N_effects.

(** ** Invariants over any sequence of calls *)

(** X7: no call changes the configuration or loses data. On a
    pairwise sampler, after any sequence of calls (reset, __iter__,
    batch requests, len, label construction, whether they return or
    raise), the triplet list is a permutation of what it was and
    batch_size, num_ents, inverse, device, keys and num_negative are
    unchanged; on a multi-label sampler the key list is a permutation
    of what it was and batch_size, num_ents, inverse, device and
    triplets are unchanged. *)
Theorem calls_preserve_configuration (cs : list call) :
  (∀ (k : One_to_K) (w : World),
     let k' := (run_calls call_K cs (k, w)).1 in
     triplets (super k') ≡ₚ triplets (super k) ∧
     keys (super k') = keys (super k) ∧
     bs (super k') = bs (super k) ∧
     num_ents (super k') = num_ents (super k) ∧
     inverse (super k') = inverse (super k) ∧
     device (super k') = device (super k) ∧
     num_negative k' = num_negative k) ∧
  (∀ (n : One_to_N) (w : World),
     let n' := (run_calls call_N cs (n, w)).1 in
     keys (super n') ≡ₚ keys (super n) ∧
     triplets (super n') = triplets (super n) ∧
     bs (super n') = bs (super n) ∧
     num_ents (super n') = num_ents (super n) ∧
     inverse (super n') = inverse (super n) ∧
     device (super n') = device (super n)).
Proof.
  split.
  - intros k w.
    apply (One_to_K_effect_calls
             (λ k', triplets (super k') ≡ₚ triplets (super k) ∧
                    keys (super k') = keys (super k) ∧
                    bs (super k') = bs (super k) ∧
                    num_ents (super k') = num_ents (super k) ∧
                    inverse (super k') = inverse (super k) ∧
                    device (super k') = device (super k) ∧
                    num_negative k' = num_negative k)); [|done].
    intros k1 s' Heff (Hperm & Hrest).
    destruct Heff; cbn; (split; [|exact Hrest]); try done.
    by etrans.
  - intros n w.
    apply (One_to_N_effect_calls
             (λ n', keys (super n') ≡ₚ keys (super n) ∧
                    triplets (super n') = triplets (super n) ∧
                    bs (super n') = bs (super n) ∧
                    num_ents (super n') = num_ents (super n) ∧
                    inverse (super n') = inverse (super n) ∧
                    device (super n') = device (super n))); [|done].
    intros n1 s' Heff (Hperm & Hrest).
    destruct Heff; cbn; (split; [|exact Hrest]); try done.
    by etrans.
Qed.

(** X8: the position stays inside the sequence. With a non-negative
    batch_size, if the position is unset or within [0, len] before a
    sequence of calls, it is unset or within [0, len] after it, on
    either sampler (len being the number of triplets, respectively of
    keys, which no call changes). *)
Theorem position_stays_in_bounds (cs : list call) :
  (∀ (k : One_to_K) (w : World),
     0 ≤ bs (super k) →
     match trip_iter (super k) with
     | Some i => 0 ≤ i ≤ py_len (triplets (super k))
     | None => True
     end →
     match trip_iter (super (run_calls call_K cs (k, w)).1) with
     | Some i => 0 ≤ i ≤ py_len (triplets (super k))
     | None => True
     end) ∧
  (∀ (n : One_to_N) (w : World),
     0 ≤ bs (super n) →
     match trip_iter (super n) with
     | Some i => 0 ≤ i ≤ py_len (keys (super n))
     | None => True
     end →
     match trip_iter (super (run_calls call_N cs (n, w)).1) with
     | Some i => 0 ≤ i ≤ py_len (keys (super n))
     | None => True
     end).
Proof.
  split.
  - intros k w Hbs Hpos.
    apply (One_to_K_effect_calls
             (λ k', 0 ≤ bs (super k') ∧
                    py_len (triplets (super k')) =
                      py_len (triplets (super k)) ∧
                    match trip_iter (super k') with
                    | Some i => 0 ≤ i ≤ py_len (triplets (super k))
                    | None => True
                    end)); [|done].
    intros k1 s' Heff (Hbs1 & Hlen & Hpos1).
    destruct Heff as [|l' Hperm|i Hi Hlt|key]; cbn in *.
    + repeat split; try done; unfold py_len in *; lia.
    + repeat split; [done| |done].
      unfold py_len in *. by rewrite Hperm.
    + rewrite Hi in Hpos1.
      repeat split; try done; unfold py_len in *; lia.
    + done.
  - intros n w Hbs Hpos.
    apply (One_to_N_effect_calls
             (λ n', 0 ≤ bs (super n') ∧
                    py_len (keys (super n')) = py_len (keys (super n)) ∧
                    match trip_iter (super n') with
                    | Some i => 0 ≤ i ≤ py_len (keys (super n))
                    | None => True
                    end)); [|done].
    intros n1 s' Heff (Hbs1 & Hlen & Hpos1).
    destruct Heff as [|l' Hperm|i Hi Hlt|key]; cbn in *.
    + repeat split; try done; unfold py_len in *; lia.
    + repeat split; [done| |done].
      unfold py_len in *. by rewrite Hperm.
    + rewrite Hi in Hpos1.
      repeat split; try done; unfold py_len in *; lia.
    + done.
Qed.

(** Two batch requests on three triplets in batches of two. *)
Lemma position_stays_in_bounds_witness :
  match trip_iter
          (super (run_calls call_K [CallNext; CallNext]
                            (example_sampler, example_world)).1) with
  | Some i => 0 ≤ i ≤ 3
  | None => True
  end.
Proof.
  refine (proj1 (position_stays_in_bounds [CallNext; CallNext])
                example_sampler example_world _ _).
  - simpl. lia.
  - simpl. unfold py_len. simpl. lia.
Defined.

(** X9: the index always agrees with the data. After construction
    from any triplets and any sequence of later calls, what any key
    reads from the index (a missing key reading as empty) is the
    bucket [_build_index] computes from the triplets the sampler holds
    at that moment, although the pairwise sampler has shuffled them in
    place and label construction may have inserted keys. *)
Theorem index_agrees_with_triplets (l : list Triplet) (b ne : Z)
    (dev : string) (nn : Z) (inv : bool) (w : World) (cs : list call)
    (key : Key) :
  (∃ k w1,
     One_to_K.__init__ l b ne dev nn inv w = (Ok k, w1) ∧
     let k' := (run_calls call_K cs (k, w1)).1 in
     bucket (index (super k')) key =
       bucket (_build_index (triplets (super k')) (inverse (super k'))) key) ∧
  (∃ n w1,
     One_to_N.__init__ l b ne dev inv w = (Ok n, w1) ∧
     let n' := (run_calls call_N cs (n, w1)).1 in
     bucket (index (super n')) key =
       bucket (_build_index (triplets (super n')) (inverse (super n'))) key).
Proof.
  split.
  - destruct (One_to_K_init_run l b ne dev nn inv w)
      as (l' & g' & Hrun & Hperm).
    eexists _, _. split; [exact Hrun|]. cbn zeta.
    set (k := mkOne_to_K _ _).
    assert (triplets (super (run_calls call_K cs (k, mkWorld g' (py_random w)
                                                     (store w))).1) ≡ₚ l ∧
            inverse (super (run_calls call_K cs (k, mkWorld g' (py_random w)
                                                    (store w))).1) = inv ∧
            DefaultDict.peek
              (index (super (run_calls call_K cs (k, mkWorld g' (py_random w)
                                                    (store w))).1)) key =
              DefaultDict.peek (_build_index l inv) key)
      as (Hperm' & -> & Hpeek).
    { apply (One_to_K_effect_calls
               (λ k', triplets (super k') ≡ₚ l ∧
                      inverse (super k') = inv ∧
                      DefaultDict.peek (index (super k')) key =
                        DefaultDict.peek (_build_index l inv) key));
        [|done].
      intros k1 s' Heff (Hp & Hi & Hk).
      destruct Heff; cbn; repeat split; try done.
      - by etrans.
      - by rewrite peek_getitem. }
    unfold bucket. rewrite Hpeek. apply set_eq. intros e.
    rewrite !elem_of_list_to_set, !elem_of_peek_build_index.
    by setoid_rewrite Hperm'.
  - destruct (One_to_N_init_run l b ne dev inv w)
      as (ks & g' & Hrun & Hperm).
    eexists _, _. split; [exact Hrun|]. cbn zeta.
    set (n := mkOne_to_N _).
    assert (triplets (super (run_calls call_N cs (n, mkWorld g' (py_random w)
                                                     (store w))).1) = l ∧
            inverse (super (run_calls call_N cs (n, mkWorld g' (py_random w)
                                                    (store w))).1) = inv ∧
            DefaultDict.peek
              (index (super (run_calls call_N cs (n, mkWorld g' (py_random w)
                                                    (store w))).1)) key =
              DefaultDict.peek (_build_index l inv) key)
      as (-> & -> & Hpeek).
    { apply (One_to_N_effect_calls
               (λ n', triplets (super n') = l ∧
                      inverse (super n') = inv ∧
                      DefaultDict.peek (index (super n')) key =
                        DefaultDict.peek (_build_index l inv) key));
        [|done].
      intros n1 s' Heff (Hp & Hi & Hk).
      destruct Heff; cbn; repeat split; try done.
      by rewrite peek_getitem. }
    unfold bucket. by rewrite Hpeek.
Qed.

(** ** Batches of a multi-label sampler, from construction on *)

Lemma peek_inverse_key (l : list Triplet) (r h e : Z) :
  e ∈ DefaultDict.peek (_build_index l true) (inverse_key r h) ↔
  mkTriplet h r e ∈ l.
Proof.
  rewrite elem_of_peek_build_index. unfold emits, inverse_key. split.
  - intros ([h' r' t'] & Hin & Hem%list_elem_of_singleton). cbn in Hem.
    by simplify_eq.
  - intros Hin. exists (mkTriplet h r e). split; [done|]. cbn. by left.
Qed.

Section inverse_from_construction.
Context (l : list Triplet) (b ne : Z).
Hypothesis Hb : 0 < b.

(** What construction in inverse mode establishes and every call
    keeps. *)
Let J (n : One_to_N) : Prop :=
  inverse_ready n ∧
  bs (super n) = b ∧
  num_ents (super n) = ne ∧
  keys (super n) ≡ₚ DefaultDict.keys (_build_index l true) ∧
  (∀ key, DefaultDict.peek (index (super n)) key =
          DefaultDict.peek (_build_index l true) key) ∧
  match trip_iter (super n) with Some i => 0 ≤ i | None => True end.

Lemma inverse_ready_closed (n : One_to_N) (s' : Sampler) :
  One_to_N_effect (super n) s' → J n → J (with_super s' n).
Proof.
  intros Heff ((Hinv & Hne & Hkeys & Hrange) & Hbs & Hnum & Hperm & Hpeek
               & Hpos).
  unfold J, inverse_ready.
  destruct Heff as [|l' Hl'|i Hi Hlt|key]; cbn in *.
  - done.
  - repeat split; try done; [by rewrite Hl'|by etrans].
  - rewrite Hi in Hpos. repeat split; try done. unfold py_len. lia.
  - repeat split; try done.
    + eapply Forall_impl; [exact Hkeys|]. intros k' [? ?]. split; [done|].
      by apply mem_getitem_mono.
    + intros k'. rewrite peek_getitem. apply Hrange.
    + intros k'. rewrite peek_getitem. apply Hpeek.
Qed.

Lemma inverse_ready_calls (dev : string) (w w1 : World) (n : One_to_N)
    (cs : list call) :
  0 ≤ ne → Forall (λ t, 0 ≤ t2 t < ne) l →
  One_to_N.__init__ l b ne dev true w = (Ok n, w1) →
  J (run_calls call_N cs (n, w1)).1.
Proof.
  intros Hne Hl Hinit.
  apply (One_to_N_effect_calls J inverse_ready_closed).
  split; [by eapply inverse_ready_init|].
  destruct (One_to_N_init_run l b ne dev true w) as (ks & g' & Hrun & Hperm).
  rewrite Hrun in Hinit. injection Hinit as <- <-. by cbn.
Qed.

End inverse_from_construction.



Lemma non_inverse_next_batch (n : One_to_N) (w : World) (i : Z) :
  non_inverse_ready n →
  trip_iter (super n) = Some i →
  0 ≤ i < py_len (keys (super n)) - 1 →
  0 < bs (super n) →
  let j := Z.min (i + bs (super n)) (py_len (keys (super n))) in
  let batch_keys := py_slice (keys (super n)) i j in
  One_to_N.__next__ (n, w) =
    (Ok (One_to_N.mkBatch
           (key_query <$> batch_keys)
           (replicate (length batch_keys)
                      (replicate (Z.to_nat (num_ents (super n))) 0))
           (Some (key_flag <$> batch_keys))),
     (with_super
        (set_index (index_after_reads batch_keys (index (super n)))
                   (set_trip_iter j (super n))) n, w)).
Proof.
  intros (Hinv & Hne & Hkeys & Hidx) Hi Hi_range Hbs j batch_keys.
  set (n1 := with_super (set_trip_iter j (super n)) n).
  assert (batch_keys = take (Z.to_nat (j - i))
                            (drop (Z.to_nat i) (keys (super n)))) as Hslice.
  { apply py_slice_inside; unfold j, py_len in *; lia. }
  assert (Forall tagged batch_keys) as Hbatch.
  { apply Forall_forall. intros key Hkey. rewrite Forall_forall in Hkeys.
    apply Hkeys. rewrite Hslice in Hkey.
    by apply subseteq_take, subseteq_drop in Hkey. }
  assert (batch_keys ≠ []) as Hnonempty.
  { intros Hnil. apply (f_equal length) in Hnil.
    rewrite Hslice, length_take, length_drop in Hnil. cbn [length] in Hnil.
    unfold j, py_len in *. lia. }
  assert (unicode_dtype batch_keys = true) as Hu.
  { destruct batch_keys as [|x l]; [done|].
    apply Forall_cons in Hbatch as [Hx _].
    cbn [unicode_dtype existsb]. by rewrite (tagged_has_str x Hx). }
  unfold One_to_N.__next__.
  rewrite (bind_ok _ _ _ _ _ (get_trip_iter_ok n w i Hi)).
  rewrite bind_unfold. unfold self at 1. cbn [fst].
  rewrite decide_False by lia. fold j. fold batch_keys.
  rewrite (bind_ok _ _ _ _ _ (One_to_N_increment_iter_ok n w i Hi)).
  fold j. fold n1. rewrite Hinv.
  rewrite bind_unfold. unfold np_column0.
  destruct batch_keys as [|x l] eqn:Ek; [done|]. rewrite <- Ek in *.
  cbn [mret Py_ret].
  rewrite (bind_ok _ _ _ _ _ (tagged_cells_ok batch_keys (n1, w) Hbatch)).
  rewrite (bind_ok _ _ _ _ _
             (get_labels_unicode_run batch_keys w Hu n1 Hne Hidx)).
  unfold mret, Py_ret.
  assert ((fmap float_tensor_long
           ∘ fmap (λ v : pyval, match v with PInt z => z | PStr _ => 0 end))
            <$> (drop 1 <$> batch_keys) = key_query <$> batch_keys) as ->.
  { rewrite <- list_fmap_compose. by apply list_fmap_ext. }
  assert ((λ x0 : list pyval,
             np_cell batch_keys (default (PInt 0) (head x0))) <$> batch_keys =
          key_flag <$> batch_keys) as ->.
  { apply list_fmap_ext. intros k x' _. unfold key_flag, np_cell.
    by rewrite Hu. }
  done.
Qed.

Section non_inverse_from_construction.
Context (l : list Triplet) (b ne : Z).
Hypothesis Hb : 0 < b.

Let J (n : One_to_N) : Prop :=
  non_inverse_ready n ∧
  bs (super n) = b ∧
  num_ents (super n) = ne ∧
  keys (super n) ≡ₚ DefaultDict.keys (_build_index l false) ∧
  match trip_iter (super n) with Some i => 0 ≤ i | None => True end.

Lemma non_inverse_ready_closed (n : One_to_N) (s' : Sampler) :
  One_to_N_effect (super n) s' → J n → J (with_super s' n).
Proof.
  intros Heff ((Hinv & Hne & Hkeys & Hidx) & Hbs & Hnum & Hperm & Hpos).
  unfold J, non_inverse_ready.
  destruct Heff as [|l' Hl'|i Hi Hlt|key]; cbn in *.
  - done.
  - repeat split; try done; [by rewrite Hl'|by etrans].
  - rewrite Hi in Hpos. repeat split; try done. unfold py_len. lia.
  - repeat split; try done. by apply no_str_bucket_getitem.
Qed.

Lemma non_inverse_ready_calls (dev : string) (w w1 : World) (n : One_to_N)
    (cs : list call) :
  0 ≤ ne →
  One_to_N.__init__ l b ne dev false w = (Ok n, w1) →
  J (run_calls call_N cs (n, w1)).1.
Proof.
  intros Hne Hinit.
  apply (One_to_N_effect_calls J non_inverse_ready_closed).
  destruct (ready_init l b ne dev false w w1 n Hne ltac:(done) Hinit)
    as [[Hready|Hready] _].
  { destruct Hready as (Hinv & _).
    destruct (One_to_N_init_run l b ne dev false w)
      as (ks & g' & Hrun & Hperm).
    rewrite Hrun in Hinit. injection Hinit as <- <-. by cbn in Hinv. }
  split; [done|].
  destruct (One_to_N_init_run l b ne dev false w) as (ks & g' & Hrun & Hperm).
  rewrite Hrun in Hinit. injection Hinit as <- <-. by cbn.
Qed.

End non_inverse_from_construction.



(** ** An epoch of the pairwise sampler *)

Lemma rows_of_storage_bound (st : Store) (t : Tensor) (r : list Z)
    (rs : list (list Z)) :
  rows_of st t = r :: rs → r ≠ [] → (storage t < length st)%nat.
Proof.
  intros Hrows Hr.
  destruct (decide (storage t < length st)%nat) as [|Hge]; [done|].
  exfalso. apply Hr. unfold rows_of, contents in Hrows.
  rewrite lookup_ge_None_2 in Hrows by lia.
  cbn [default from_option] in Hrows.
  rewrite drop_nil, take_nil in Hrows.
  destruct (shape t) as [|b [|c [|? ?]]]; try done.
  destruct b; [done|]. cbn [chunks] in Hrows.
  injection Hrows as <- _. by rewrite take_nil.
Qed.

Lemma rows_of_app (st ext : Store) (t : Tensor) :
  (storage t < length st)%nat → rows_of (st ++ ext) t = rows_of st t.
Proof. intros Hlt. unfold rows_of. by rewrite contents_app. Qed.

(** From any position, the batch requests of an epoch: they return
    until the position reaches [len - 1], and what they return are the
    triplets from the position on, in order. *)
Lemma One_to_K_epoch_from_position (fuel : nat) (k : One_to_K) (w : World) (i : Z) :
  trip_iter (super k) = Some i → 0 ≤ i →
  py_len (triplets (super k)) - i ≤ Z.of_nat fuel →
  0 < bs (super k) → 2 ≤ num_ents (super k) → 1 ≤ num_negative k →
  ∃ batches gp' ext p,
    repeatM (length batches) One_to_K.__next__ (k, w) =
      (Ok batches,
       (with_super (set_trip_iter p (super k)) k,
        mkWorld (np_random w) gp' (store w ++ ext))) ∧
    i ≤ p ∧ p >= py_len (triplets (super k)) - 1 ∧
    (i >= py_len (triplets (super k)) - 1 → p = i) ∧
    (i < py_len (triplets (super k)) - 1 →
     (p = py_len (triplets (super k)) - 1 ∨
      p = py_len (triplets (super k))) ∧
     (p = py_len (triplets (super k)) - 1 ↔
      (py_len (triplets (super k)) - 1 - i) `mod` bs (super k) = 0)) ∧
    concat ((λ b, rows_of (store w ++ ext) b.1) <$> batches) =
      long_row <$>
        (list_of_triplet <$>
           take (Z.to_nat (p - i)) (drop (Z.to_nat i) (triplets (super k)))) ∧
    Forall (λ b, (storage b.1 < length (store w ++ ext))%nat ∧
                 ∃ r : nat,
                   shape b.1 = [r; 3%nat] ∧
                   shape b.2 = [(Z.to_nat (num_negative k) * r)%nat; 3%nat] ∧
                   Z.min 2 (bs (super k)) ≤ Z.of_nat r ≤ bs (super k))
           batches.
Proof.
  revert k w i. induction fuel as [|fuel IH];
    intros k w i Hi Hi0 Hfuel Hbs Hne Hnn;
    (destruct (decide (i >= py_len (triplets (super k)) - 1)) as [Hstop|Hgo];
     [exists [], (py_random w), [], i; cbn [length repeatM];
      split; [by rewrite set_trip_iter_same, world_store_nil|];
      split; [lia|]; split; [lia|]; split; [done|]; split; [lia|];
      split; [by rewrite Z.sub_diag|constructor]
     |]); [lia|].
  set (len := py_len (triplets (super k))) in *.
  destruct (One_to_K_next_spec k w i Hi ltac:(lia) Hbs Hne Hnn)
    as (pos & neg & gp1 & ext1 & Hrun & Hpsh & Hnsh & Hpos & _).
  fold len in Hrun, Hpsh, Hnsh, Hpos.
  set (j := Z.min (i + bs (super k)) len) in *.
  set (batch := take (Z.to_nat (j - i))
                     (drop (Z.to_nat i) (triplets (super k)))) in *.
  set (k1 := with_super (set_trip_iter j (super k)) k) in *.
  set (w1 := mkWorld (np_random w) gp1 (store w ++ ext1)) in *.
  assert (length batch = Z.to_nat (j - i)) as Hblen.
  { unfold batch. rewrite length_take, length_drop.
    unfold j, len, py_len in *. lia. }
  destruct (IH k1 w1 j) as (batches & gp' & ext & p & Hrest & Hjp & Hpstop
                            & Hpj & Hpgo & Hrows & Hall);
    [done|unfold j; lia
    |change (py_len (triplets (super k1))) with len; unfold j; lia|done..|].
  unfold k1, w1 in Hrest, Hpstop, Hpj, Hpgo, Hrows, Hall.
  cbn [super One_to_K_extends with_super K_super set_trip_iter triplets bs
       store np_random num_negative] in Hrest, Hpstop, Hpj, Hpgo, Hrows, Hall.
  change (K_super k) with (super k) in Hrest, Hpstop, Hpj, Hpgo, Hrows, Hall.
  fold len in Hpstop, Hpj, Hpgo.
  assert (rows_of (store w ++ ext1) pos ≠ []) as Hnonempty.
  { rewrite Hpos. intros Hnil. apply (f_equal length) in Hnil.
    rewrite !length_fmap, Hblen in Hnil. cbn in Hnil. unfold j in *. lia. }
  assert (storage pos < length (store w ++ ext1))%nat as Hbound.
  { destruct (rows_of (store w ++ ext1) pos) as [|r rs] eqn:Er; [done|].
    apply (rows_of_storage_bound _ _ r rs Er).
    destruct batch as [|t batch']; [done|].
    cbn in Hpos. injection Hpos as -> _. by destruct t. }
  exists ((pos, neg) :: batches), gp', (ext1 ++ ext), p.
  split; [|split; [|split; [|split; [|split; [|split]]]]].
  - cbn [length]. rewrite repeatM_S, (bind_ok _ _ _ _ _ Hrun).
    fold k1 w1. rewrite (bind_ok _ _ _ _ _ Hrest).
    cbn [mret Py_ret]. by rewrite <- app_assoc.
  - unfold j in *. lia.
  - done.
  - lia.
  - intros _. destruct (decide (j >= len - 1)) as [Hj|Hj].
    + rewrite (Hpj Hj). unfold j in *.
      destruct (decide (i + bs (super k) = len - 1)) as [Heq|Hneq].
      * split; [lia|]. split; [intros _|lia].
        replace (len - 1 - i) with (bs (super k)) by lia.
        apply Z_mod_same_full.
      * split; [lia|]. split; [lia|].
        rewrite Z.mod_small by lia. lia.
    + unfold j in *. destruct (Hpgo ltac:(lia)) as [Hp Hiff]. split; [done|].
      rewrite Hiff.
      replace (len - 1 - Z.min (i + bs (super k)) len)
        with (len - 1 - i + (-1) * bs (super k)) by lia.
      by rewrite Z_mod_plus_full.
  - cbn [fmap list_fmap concat fst]. rewrite app_assoc.
    rewrite (rows_of_app (store w ++ ext1) ext pos Hbound).
    rewrite <- (app_assoc (store w)) in Hrows. rewrite <- app_assoc.
    rewrite Hrows, Hpos. rewrite <- !fmap_app. do 2 f_equal.
    unfold batch.
    replace (drop (Z.to_nat j) (triplets (super k)))
      with (drop (Z.to_nat (j - i)) (drop (Z.to_nat i) (triplets (super k)))).
    + rewrite take_take_drop. f_equal. lia.
    + rewrite drop_drop. f_equal. unfold j in *. lia.
  - constructor.
    + cbn [fst snd]. split.
      * rewrite length_app in *. rewrite length_app. lia.
      * exists (length batch). split; [done|]. split; [done|].
        rewrite Hblen. unfold j, len in *. lia.
    + rewrite app_assoc. exact Hall.
Qed.

(** X12: an epoch of the pairwise sampler. From position 0, with
    batch_size > 0, num_ents >= 2 and num_negative >= 1, the batch
    requests return until one signals exhaustion, which it does after
    finitely many batches; the positive rows of the returned batches,
    read in order after the last request, are exactly the first p
    triplets of the sequence in order (as long tensors), where p is
    len - 1 when len >= 1 and batch_size divides len - 1 (the last
    triplet is then never yielded), and len otherwise. Each batch has
    between min(2, batch_size) and batch_size rows and num_negative
    times as many negatives. *)
Theorem pairwise_epoch (k : One_to_K) (w : World) :
  trip_iter (super k) = Some 0 →
  0 < bs (super k) → 2 ≤ num_ents (super k) → 1 ≤ num_negative k →
  let len := py_len (triplets (super k)) in
  let p := if decide (1 ≤ len ∧ (len - 1) `mod` bs (super k) = 0)
           then len - 1 else len in
  ∃ batches s,
    repeatM (length batches) One_to_K.__next__ (k, w) = (Ok batches, s) ∧
    One_to_K.__next__ s = (Raise StopIteration, s) ∧
    trip_iter (super s.1) = Some p ∧
    concat ((λ b, rows_of (store s.2) b.1) <$> batches) =
      long_row <$> (list_of_triplet <$> take (Z.to_nat p) (triplets (super k))) ∧
    Forall (λ b, ∃ r : nat,
                   shape b.1 = [r; 3%nat] ∧
                   shape b.2 = [(Z.to_nat (num_negative k) * r)%nat; 3%nat] ∧
                   Z.min 2 (bs (super k)) ≤ Z.of_nat r ≤ bs (super k))
           batches.
Proof.
  intros Hi Hbs Hne Hnn len p.
  destruct (One_to_K_epoch_from_position (length (triplets (super k))) k w 0 Hi)
    as (batches & gp' & ext & p' & Hrun & Hp0 & Hpstop & Hpi & Hpgo & Hrows
        & Hall); [lia|unfold py_len; lia|done..|].
  fold len in Hpstop, Hpi, Hpgo.
  assert (p' = p) as ->.
  { unfold p. destruct (decide (0 >= len - 1)) as [Hsmall|Hbig].
    - rewrite (Hpi Hsmall). destruct (decide _) as [[H1 _]|Hno]; [lia|].
      assert (len = 0 ∨ len = 1) as [->| ->] by (unfold len, py_len in *; lia);
        [done|].
      destruct Hno. split; [done|]. apply Z.mod_0_l. lia.
    - destruct (Hpgo ltac:(lia)) as [Hp Hiff].
      rewrite Z.sub_0_r in Hiff.
      destruct (decide _) as [[_ Hmod]|Hno]; [by apply Hiff|].
      destruct Hp as [Hp|Hp]; [|done].
      destruct Hno. split; [lia|]. by apply Hiff. }
  eexists batches, _. split; [exact Hrun|]. cbn [fst snd store].
  split; [|split; [done|split]].
  - apply (One_to_K_next_exhausted _ _ p); [done|].
    change (p >= len - 1). lia.
  - rewrite Hrows. replace (Z.to_nat 0) with 0%nat by lia.
    by rewrite drop_0, Z.sub_0_r.
  - eapply Forall_impl; [exact Hall|]. by intros b [_ Hb].
Qed.

(** Three triplets in batches of two: one batch, holding the first two
    triplets. *)
Lemma pairwise_epoch_witness :
  ∃ batches s,
    repeatM (length batches) One_to_K.__next__
            (example_sampler, example_world) = (Ok batches, s) ∧
    One_to_K.__next__ s = (Raise StopIteration, s) ∧
    trip_iter (super s.1) = Some 2 ∧
    concat ((λ b, rows_of (store s.2) b.1) <$> batches) =
      [[0; 0; 1]; [1; 0; 2]].
Proof.
  destruct (pairwise_epoch example_sampler example_world)
    as (batches & s & Hrun & Hstop & Hpos & Hrows & _).
  - reflexivity.
  - simpl. lia.
  - simpl. lia.
  - simpl. lia.
  - exists batches, s. split; [exact Hrun|]. split; [exact Hstop|].
    split; [exact Hpos|exact Hrows].
Defined.

(** ** Edge cases of the batch requests *)

(** X13: a batch request before the first [__iter__] or [reset]
    fails. Whatever the arguments, construction returns a sampler on
    which the position is not set (neither constructor sets it), so
    an immediate batch request raises AttributeError and leaves the
    sampler and the generators as they are, on both samplers. *)
Theorem next_before_iter_raises (l : list Triplet) (b ne : Z) (dev : string)
    (nn : Z) (inv : bool) (w : World) :
  (∃ k w1,
     One_to_K.__init__ l b ne dev nn inv w = (Ok k, w1) ∧
     One_to_K.__next__ (k, w1) = (Raise AttributeError, (k, w1))) ∧
  (∃ n w1,
     One_to_N.__init__ l b ne dev inv w = (Ok n, w1) ∧
     One_to_N.__next__ (n, w1) = (Raise AttributeError, (n, w1))).
Proof.
  split.
  - destruct (One_to_K_init_run l b ne dev nn inv w) as (l' & g' & Hrun & _).
    eexists _, _. split; [exact Hrun|].
    unfold One_to_K.__next__. apply bind_raise.
    by apply get_trip_iter_unset.
  - destruct (One_to_N_init_run l b ne dev inv w) as (ks & g' & Hrun & _).
    eexists _, _. split; [exact Hrun|].
    unfold One_to_N.__next__. apply bind_raise.
    by apply get_trip_iter_unset.
Qed.

Lemma tensor_of_rows_allocates (rows : list (list Z)) (st : Store) :
  ∃ t, tensor_of_rows rows st = (Ok t, st ++ [long_row (concat rows)]).
Proof. destruct rows as [|r rows]; by eexists. Qed.

(** X14: a pairwise sampler with num_negative <= 0 never yields a
    batch. A batch request below the exhaustion boundary builds the
    positive tensor, collects no corrupted triplet, and fails in
    [torch.stack] on the empty list with RuntimeError; the position is
    not advanced, so the next request fails the same way. *)
Theorem next_without_negatives_raises (k : One_to_K) (w : World) (i : Z) :
  trip_iter (super k) = Some i →
  i < py_len (triplets (super k)) - 1 →
  num_negative k ≤ 0 →
  ∃ data,
    One_to_K.__next__ (k, w) =
      (Raise RuntimeError,
       (k, mkWorld (np_random w) (py_random w) (store w ++ [data]))).
Proof.
  intros Hi Hlt Hnn.
  set (rows := list_of_triplet <$>
                 py_slice (triplets (super k)) i
                   (Z.min (i + bs (super k)) (py_len (triplets (super k))))).
  destruct (tensor_of_rows_allocates rows (store w)) as (t & Ht).
  exists (long_row (concat rows)).
  unfold One_to_K.__next__.
  rewrite (bind_ok _ _ _ _ _ (get_trip_iter_ok k w i Hi)).
  rewrite bind_unfold. unfold self at 1. cbn [fst].
  rewrite decide_False by lia. fold rows.
  rewrite (bind_ok _ _ _ _ _
             (in_world_ok _ _ _ _ _ (with_store_ok _ w _ _ Ht))).
  apply bind_raise. unfold One_to_K._sample_negative.
  rewrite bind_unfold. unfold get at 1. cbn [fst].
  unfold range. replace (Z.to_nat (num_negative k)) with 0%nat by lia.
  cbn [seq fmap list_fmap for_each]. rewrite bind_unfold.
  cbn [mret Py_ret]. by rewrite in_world_run.
Qed.

(** The example sampler with num_negative = 0. *)
Lemma next_without_negatives_raises_witness :
  ∃ data,
    One_to_K.__next__ (example_sampler_no_negatives, example_world) =
      (Raise RuntimeError,
       (example_sampler_no_negatives,
        mkWorld (np_random example_world) (py_random example_world)
                (store example_world ++ [data]))).
Proof.
  refine (next_without_negatives_raises example_sampler_no_negatives
            example_world 0 _ _ _).
  - reflexivity.
  - simpl. unfold py_len. simpl. lia.
  - simpl. lia.
Defined.

Lemma take_min_length {A} (l : list A) (b : Z) :
  take (Z.to_nat (Z.min b (py_len l))) l = take (Z.to_nat b) l.
Proof.
  unfold py_len. destruct (decide (b ≤ Z.of_nat (length l))).
  - by rewrite Z.min_l by lia.
  - rewrite Z.min_r by lia. by rewrite !take_ge by lia.
Qed.

Lemma One_to_K_first_batch (k : One_to_K) (w : World) :
  trip_iter (super k) = Some 0 →
  2 ≤ py_len (triplets (super k)) →
  0 < bs (super k) → 2 ≤ num_ents (super k) → 1 ≤ num_negative k →
  ∃ pos neg s',
    One_to_K.__next__ (k, w) = (Ok (pos, neg), s') ∧
    triplets (super s'.1) = triplets (super k) ∧
    rows_of (store s'.2) pos =
      long_row <$>
        (list_of_triplet <$> take (Z.to_nat (bs (super k))) (triplets (super k))).
Proof.
  intros Hi Hlen Hbs Hne Hnn.
  destruct (One_to_K_next_spec k w 0 Hi ltac:(lia) Hbs Hne Hnn)
    as (pos & neg & gp' & ext & Hrun & _ & _ & Hpos & _).
  eexists pos, neg, _. split; [exact Hrun|]. split; [done|].
  cbn [snd store]. rewrite Hpos.
  replace (Z.to_nat 0) with 0%nat by lia.
  by rewrite drop_0, Z.add_0_l, Z.sub_0_r, take_min_length.
Qed.



(** ** The ambient state across calls *)

Section world_invariants.
Context {T : Type} `{Extends T}.
Context (Q : World → Prop).

(** An invariant of the generators and the tensor store alone. *)
Let amb : T * World → Prop := λ s, Q s.2.

Lemma keeps_amb_unchanged {A} (m : Py (T * World) A) :
  (∀ s, (m s).2 = s) → keeps amb m.
Proof. intros Hm s Hs. by rewrite Hm. Qed.

Lemma keeps_amb_self : keeps amb self.
Proof. by apply keeps_amb_unchanged. Qed.

Lemma keeps_amb_update (f : Sampler → Sampler) : keeps amb (update f).
Proof. by intros [k w] Hw. Qed.

Lemma keeps_amb_in_world {A} (m : Py World A) :
  keeps Q m → keeps amb (in_world m).
Proof.
  intros Hm [k w] Hw. rewrite in_world_run. specialize (Hm w Hw).
  by destruct (m w).
Qed.

Lemma keeps_amb_get_trip_iter : keeps amb get_trip_iter.
Proof.
  apply keeps_amb_unchanged. intros [k w]. unfold get_trip_iter.
  rewrite bind_unfold. unfold self at 1. cbn [fst].
  by destruct (trip_iter (super k)).
Qed.

Lemma keeps_amb_set_ones (lbls row : list Z) : keeps amb (set_ones row lbls).
Proof.
  revert row. induction lbls as [|l lbls IH]; intros row; cbn [set_ones].
  - apply keeps_ret.
  - destruct (decide _); [apply IH|apply keeps_raise].
Qed.

Lemma keeps_amb_get_labels (a : NpArray) : keeps amb (_get_labels a).
Proof.
  unfold _get_labels.
  apply keeps_bind; [apply keeps_amb_self|]. intros s.
  apply keeps_bind.
  { unfold zeros. destruct (_ <? 0); [apply keeps_raise|apply keeps_ret]. }
  intros y. apply keeps_for_each. intros [i x] y'.
  apply keeps_bind.
  { unfold index_getitem. apply keeps_bind; [apply keeps_amb_self|].
    intros s'. destruct (DefaultDict.getitem _ _).
    apply keeps_bind; [apply keeps_amb_update|]. intros _. apply keeps_ret. }
  intros lbls. apply keeps_bind; [apply keeps_amb_set_ones|].
  intros row. apply keeps_ret.
Qed.

End world_invariants.

Lemma One_to_N_next_world (w0 : World) :
  keeps (λ s : One_to_N * World, s.2 = w0) One_to_N.__next__.
Proof.
  assert (∀ {A B} (f : A → Py (One_to_N * World) B) l,
            (∀ x s, (f x s).2 = s) → ∀ s, (mapM f l s).2 = s) as HmapM.
  { intros A B f l Hf s. by apply mapM_state. }
  unfold One_to_N.__next__.
  apply keeps_bind; [apply (keeps_amb_get_trip_iter (λ w, w = w0))|].
  intros i. apply keeps_bind; [apply (keeps_amb_self (λ w, w = w0))|].
  intros s. destruct (decide _); [apply keeps_raise|].
  apply keeps_bind.
  { cbn [_increment_iter One_to_N_class].
    apply keeps_bind; [apply (keeps_amb_get_trip_iter (λ w, w = w0))|].
    intros i'. apply keeps_bind; [apply (keeps_amb_self (λ w, w = w0))|].
    intros s'. apply (keeps_amb_update (λ w, w = w0)). }
  intros _. destruct (inverse s).
  - apply keeps_bind.
    { apply (keeps_amb_unchanged (λ w, w = w0)). intros s'. apply HmapM. intros r s''.
      apply HmapM. intros v s3. destruct v; cbn [int_cell_to_long]; [|done].
      by destruct (unicode_dtype _). }
    intros ix. apply keeps_bind; [|intros y; apply keeps_ret].
    apply (keeps_amb_get_labels (λ w, w = w0)).
  - apply keeps_bind.
    { apply (keeps_amb_unchanged (λ w, w = w0)). intros s'.
      unfold np_column0.
      by destruct (py_slice _ _ _). }
    intros tt. apply keeps_bind.
    { apply (keeps_amb_unchanged (λ w, w = w0)). intros s'. apply HmapM. intros r s''.
      apply HmapM. intros v s3. by destruct v. }
    intros ix. apply keeps_bind; [|intros y; apply keeps_ret].
    apply (keeps_amb_get_labels (λ w, w = w0)).
Qed.

(** X16: what never touches the generators and the tensors. A batch
    request or a label construction of the multi-label sampler,
    whether it returns or raises, leaves both generators and every
    tensor as they are; and [reset], on either sampler, draws from
    numpy's generator only, leaving Python's [random] and the tensors
    untouched. *)
Theorem ambient_state_untouched :
  (∀ (n : One_to_N) (w : World), (One_to_N.__next__ (n, w)).2.2 = w) ∧
  (∀ (a : NpArray) (n : One_to_N) (w : World),
     (_get_labels a (n, w)).2.2 = w) ∧
  (∀ (k : One_to_K) (w : World),
     py_random (reset (k, w)).2.2 = py_random w ∧
     store (reset (k, w)).2.2 = store w) ∧
  (∀ (n : One_to_N) (w : World),
     py_random (reset (n, w)).2.2 = py_random w ∧
     store (reset (n, w)).2.2 = store w).
Proof.
  split; [|split; [|split]].
  - intros n w. by apply (One_to_N_next_world w (n, w)).
  - intros a n w.
    by apply (keeps_amb_get_labels (λ w', w' = w) a (n, w)).
  - intros k w. by destruct (One_to_K_reset_run k w) as (l' & g' & -> & _).
  - intros n w. by destruct (One_to_N_reset_run n w) as (l' & g' & -> & _).
Qed.

(** X17: len() of a pairwise sampler is fixed at construction. After
    construction from a list l with batch size b, and after any
    sequence of later calls, len() raises ZeroDivisionError when b is
    0 and otherwise returns the floor quotient len(l) // b and leaves
    the sampler as it is: the shuffles do not change the count. *)
Theorem pairwise_len_is_stable (l : list Triplet) (b ne : Z) (dev : string)
    (nn : Z) (inv : bool) (w : World) (cs : list call) :
  ∃ k w1,
    One_to_K.__init__ l b ne dev nn inv w = (Ok k, w1) ∧
    let s := run_calls call_K cs (k, w1) in
    One_to_K.__len__ s =
      (if decide (b = 0) then Raise ZeroDivisionError
       else Ok (py_len l / b), s).
Proof.
  destruct (One_to_K_init_run l b ne dev nn inv w) as (l' & g' & Hrun & Hperm).
  eexists _, _. split; [exact Hrun|]. cbn zeta.
  set (k := mkOne_to_K _ _). set (w1 := mkWorld _ _ _).
  assert (triplets (super (run_calls call_K cs (k, w1)).1) ≡ₚ l ∧
          bs (super (run_calls call_K cs (k, w1)).1) = b) as [Hp Hb].
  { apply (One_to_K_effect_calls
             (λ k', triplets (super k') ≡ₚ l ∧ bs (super k') = b)); [|done].
    intros k1 s' Heff [Hp Hb]. destruct Heff; cbn; split; try done.
    by etrans. }
  destruct (run_calls call_K cs (k, w1)) as [k' w'] eqn:Es. cbn [fst] in *.
  destruct (decide (b = 0)) as [->|Hb0].
  - by apply One_to_K_len_zero_batch_size.
  - rewrite One_to_K_len_ok by (by rewrite Hb).
    unfold py_len. by rewrite Hp, Hb.
Qed.

(** ** An epoch of the multi-label sampler in inverse mode *)

Lemma One_to_N_set_trip_iter_same (n : One_to_N) (i : Z) :
  trip_iter (super n) = Some i →
  with_super (set_trip_iter i (super n)) n = n.
Proof. destruct n as [[]]. cbn. by intros ->. Qed.

(** From any position, the batch requests of an epoch in inverse
    mode: they return until the position reaches [len - 1], and what
    they return are the query rows and label rows of the keys from the
    position on, in order. *)
Lemma One_to_N_epoch_from_position (fuel : nat) (n : One_to_N) (w : World)
    (i : Z) :
  inverse_ready n →
  trip_iter (super n) = Some i → 0 ≤ i →
  py_len (keys (super n)) - i ≤ Z.of_nat fuel →
  0 < bs (super n) →
  ∃ batches p,
    repeatM (length batches) One_to_N.__next__ (n, w) =
      (Ok batches, (with_super (set_trip_iter p (super n)) n, w)) ∧
    i ≤ p ∧ p >= py_len (keys (super n)) - 1 ∧
    (i >= py_len (keys (super n)) - 1 → p = i) ∧
    (i < py_len (keys (super n)) - 1 →
     (p = py_len (keys (super n)) - 1 ∨ p = py_len (keys (super n))) ∧
     (p = py_len (keys (super n)) - 1 ↔
      (py_len (keys (super n)) - 1 - i) `mod` bs (super n) = 0)) ∧
    concat (One_to_N.batch_ix <$> batches) =
      int_row <$> take (Z.to_nat (p - i)) (drop (Z.to_nat i) (keys (super n))) ∧
    concat (One_to_N.batch_lbls <$> batches) =
      label_row (index (super n)) (num_ents (super n)) <$>
        take (Z.to_nat (p - i)) (drop (Z.to_nat i) (keys (super n))) ∧
    Forall (λ b, One_to_N.trip_type b = None ∧
                 Z.min 2 (bs (super n)) ≤
                   Z.of_nat (length (One_to_N.batch_lbls b)) ≤ bs (super n))
           batches.
Proof.
  revert n w i. induction fuel as [|fuel IH];
    intros n w i Hready Hi Hi0 Hfuel Hbs;
    (destruct (decide (i >= py_len (keys (super n)) - 1)) as [Hstop|Hgo];
     [exists [], i; cbn [length repeatM];
      split; [by rewrite One_to_N_set_trip_iter_same|];
      split; [lia|]; split; [lia|]; split; [done|]; split; [lia|];
      split; [by rewrite Z.sub_diag|]; split; [by rewrite Z.sub_diag|];
      constructor
     |]); [lia|].
  set (len := py_len (keys (super n))) in *.
  destruct (inverse_labels_correct n w i Hready Hi ltac:(lia) Hbs)
    as (batch & Hrun & Htt & Hix & Hlbls & _).
  fold len in Hrun, Hix, Hlbls.
  set (j := Z.min (i + bs (super n)) len) in *.
  assert (py_slice (keys (super n)) i j =
          take (Z.to_nat (j - i)) (drop (Z.to_nat i) (keys (super n))))
    as Hslice.
  { apply py_slice_inside; unfold j, len, py_len in *; lia. }
  rewrite Hslice in Hix, Hlbls.
  set (n1 := with_super (set_trip_iter j (super n)) n) in *.
  assert (inverse_ready n1) as Hready1 by (by destruct Hready).
  destruct (IH n1 w j) as (batches & p & Hrest & Hjp & Hpstop & Hpj & Hpgo
                           & Hixs & Hlbs & Hall);
    [done|done|unfold j; lia
    |change (py_len (keys (super n1))) with len; unfold j; lia|done|].
  change (keys (super n1)) with (keys (super n)) in *.
  change (bs (super n1)) with (bs (super n)) in *.
  change (index (super n1)) with (index (super n)) in *.
  change (num_ents (super n1)) with (num_ents (super n)) in *.
  change (with_super (set_trip_iter p (super n1)) n1)
    with (with_super (set_trip_iter p (super n)) n) in *.
  fold len in Hpstop, Hpj, Hpgo.
  assert (take (Z.to_nat (j - i)) (drop (Z.to_nat i) (keys (super n))) ++
          take (Z.to_nat (p - j)) (drop (Z.to_nat j) (keys (super n))) =
          take (Z.to_nat (p - i)) (drop (Z.to_nat i) (keys (super n))))
    as Htake.
  { replace (drop (Z.to_nat j) (keys (super n)))
      with (drop (Z.to_nat (j - i)) (drop (Z.to_nat i) (keys (super n)))).
    - rewrite take_take_drop. f_equal. unfold j in *. lia.
    - rewrite drop_drop. f_equal. unfold j in *. lia. }
  exists (batch :: batches), p.
  split; [|split; [|split; [|split; [|split; [|split; [|split]]]]]].
  - cbn [length]. rewrite repeatM_S, (bind_ok _ _ _ _ _ Hrun).
    by rewrite (bind_ok _ _ _ _ _ Hrest).
  - unfold j in *. lia.
  - done.
  - lia.
  - intros _. destruct (decide (j >= len - 1)) as [Hj|Hj].
    + rewrite (Hpj Hj). unfold j in *.
      destruct (decide (i + bs (super n) = len - 1)) as [Heq|Hneq].
      * split; [lia|]. split; [intros _|lia].
        replace (len - 1 - i) with (bs (super n)) by lia.
        apply Z_mod_same_full.
      * split; [lia|]. split; [lia|].
        rewrite Z.mod_small by lia. lia.
    + unfold j in *. destruct (Hpgo ltac:(lia)) as [Hp Hiff]. split; [done|].
      rewrite Hiff.
      replace (len - 1 - Z.min (i + bs (super n)) len)
        with (len - 1 - i + (-1) * bs (super n)) by lia.
      by rewrite Z_mod_plus_full.
  - cbn [fmap list_fmap concat]. rewrite Hix, Hixs, <- fmap_app.
    f_equal. exact Htake.
  - cbn [fmap list_fmap concat]. rewrite Hlbls, Hlbs, <- fmap_app.
    f_equal. exact Htake.
  - constructor; [|done]. split; [done|].
    rewrite Hlbls, length_fmap, length_take, length_drop.
    unfold j, len, py_len in *. lia.
Qed.



(** ** The tensor store is append-only *)

Lemma keeps_store_with_py {A} (P : Store → Prop) (m : Py Rng A) :
  keeps (λ w, P (store w)) (with_py m).
Proof.
  intros w Hw. unfold with_py, zoom. by destruct (m (py_random w)).
Qed.

Lemma keeps_store_with_store {A} (P : Store → Prop) (m : Py Store A) :
  keeps P m → keeps (λ w, P (store w)) (with_store m).
Proof.
  intros Hm w Hw. unfold with_store, zoom. specialize (Hm (store w) Hw).
  by destruct (m (store w)).
Qed.

Lemma keeps_tensor_get (P : Store → Prop) (t : Tensor) (j : nat) :
  keeps P (tensor_get t j).
Proof.
  intros st Hst. unfold tensor_get.
  destruct (shape t) as [|n [|? ?]]; try done.
  destruct (decide _); [|done]. by destruct (_ !! j).
Qed.

(** Writing into the last storage leaves the ones before it alone. *)
Lemma keeps_tensor_set_last (st : Store) (t : Tensor) (j : nat) (v : Z) :
  storage t = length st →
  keeps (λ st', ∃ c, st' = st ++ [c]) (tensor_set t j v).
Proof.
  intros Hloc st' [c ->]. unfold tensor_set.
  destruct (shape t) as [|n [|? ?]]; try by eexists.
  destruct (decide _); [|by eexists]. cbn [snd].
  rewrite Hloc, alter_last. by eexists.
Qed.

(** One corruption clones the triplet into a new storage and writes
    into the clone only. *)
Lemma corrupt_appends (ne : Z) (t : Tensor) (w : World) :
  ∃ c, store (One_to_K.corrupt ne t w).2 = store w ++ [c].
Proof.
  unfold One_to_K.corrupt. rewrite bind_unfold.
  unfold with_store at 1, zoom, deepcopy. cbn [fst snd store].
  set (new := mkTensor (length (store w)) (offset t) (shape t)).
  set (w1 := mkWorld _ _ _).
  match goal with
  | |- ∃ c, store (?m w1).2 = _ =>
      assert (keeps (λ w', ∃ c, store w' = store w ++ [c]) m) as Hrest
  end.
  { apply keeps_bind;
      [apply (keeps_store_with_py (λ st', ∃ c, st' = store w ++ [c]))|].
    intros ht. apply keeps_bind.
    { apply (keeps_store_with_store (λ st', ∃ c, st' = store w ++ [c])).
      apply keeps_tensor_get. }
    intros orig. apply keeps_bind;
      [apply (keeps_store_with_py (λ st', ∃ c, st' = store w ++ [c]))|].
    intros repl. apply keeps_bind; [|intros _; apply keeps_ret].
    apply (keeps_store_with_store (λ st', ∃ c, st' = store w ++ [c])).
    by apply keeps_tensor_set_last. }
  apply (Hrest w1). by eexists.
Qed.

Lemma keeps_prefix_corrupt (st0 : Store) (ne : Z) (t : Tensor) :
  keeps (λ w, st0 `prefix_of` store w) (One_to_K.corrupt ne t).
Proof.
  intros w Hw. destruct (corrupt_appends ne t w) as [c ->].
  by apply prefix_app_r.
Qed.

Lemma keeps_prefix_stack (st0 : Store) (ts : list Tensor) :
  keeps (λ st, st0 `prefix_of` st) (stack ts).
Proof.
  intros st Hst. unfold stack. destruct ts as [|t ts]; [done|].
  destruct (forallb _ _); [|done]. cbn. by apply prefix_app_r.
Qed.

Lemma keeps_prefix_tensor_of_rows (st0 : Store) (rows : list (list Z)) :
  keeps (λ st, st0 `prefix_of` st) (tensor_of_rows rows).
Proof.
  intros st Hst. destruct (tensor_of_rows_allocates rows st) as [t ->].
  by apply prefix_app_r.
Qed.

Lemma keeps_prefix_sample_negative (st0 : Store) (samples : Tensor) :
  keeps (λ s : One_to_K * World, st0 `prefix_of` store s.2)
        (One_to_K._sample_negative samples).
Proof.
  unfold One_to_K._sample_negative.
  apply keeps_bind; [by intros s' Hs'|]. intros s'.
  apply keeps_bind.
  - apply keeps_for_each. intros _ acc.
    apply keeps_for_each. intros t acc'.
    apply keeps_bind; [|intros new; apply keeps_ret].
    apply (keeps_amb_in_world (λ w, st0 `prefix_of` store w)).
    apply keeps_prefix_corrupt.
  - intros ts. apply (keeps_amb_in_world (λ w, st0 `prefix_of` store w)).
    apply (keeps_store_with_store (λ st, st0 `prefix_of` st)).
    apply keeps_prefix_stack.
Qed.

(** X19: the pairwise sampler never overwrites a tensor. Negative
    sampling deep-copies each positive row and writes the replacement
    into the copy, so a call to [_sample_negative] or a batch request,
    whether it returns or raises, only appends storages: every tensor
    that existed before the call (the positive batch, the batches
    returned earlier) reads afterwards exactly as it did before. *)
Theorem pairwise_never_overwrites (k : One_to_K) (w : World) :
  (∀ samples, ∃ ext,
     store (One_to_K._sample_negative samples (k, w)).2.2 = store w ++ ext) ∧
  (∃ ext, store (One_to_K.__next__ (k, w)).2.2 = store w ++ ext) ∧
  (∀ (t : Tensor) (data : list Z),
     store w !! storage t = Some data →
     contents (store (One_to_K.__next__ (k, w)).2.2) t =
       contents (store w) t).
Proof.
  assert (store w `prefix_of` store (One_to_K.__next__ (k, w)).2.2) as Hnext.
  { assert (keeps (λ s : One_to_K * World, store w `prefix_of` store s.2)
                  One_to_K.__next__) as Hkeeps.
    { unfold One_to_K.__next__.
      apply keeps_bind;
        [apply (keeps_amb_get_trip_iter (λ w', store w `prefix_of` store w'))|].
      intros i.
      apply keeps_bind;
        [apply (keeps_amb_self (λ w', store w `prefix_of` store w'))|].
      intros s. destruct (decide _); [apply keeps_raise|].
      apply keeps_bind.
      { apply (keeps_amb_in_world (λ w', store w `prefix_of` store w')).
        apply (keeps_store_with_store (λ st, store w `prefix_of` st)).
        apply keeps_prefix_tensor_of_rows. }
      intros pos.
      apply keeps_bind; [apply keeps_prefix_sample_negative|].
      intros neg. apply keeps_bind; [|intros _; apply keeps_ret].
      cbn [_increment_iter One_to_K_class].
      apply keeps_bind;
        [apply (keeps_amb_get_trip_iter (λ w', store w `prefix_of` store w'))|].
      intros i'.
      apply keeps_bind;
        [apply (keeps_amb_self (λ w', store w `prefix_of` store w'))|].
      intros s'.
      apply (keeps_amb_update (λ w', store w `prefix_of` store w')). }
    by apply (Hkeeps (k, w)). }
  split; [|split].
  - intros samples.
    by apply (keeps_prefix_sample_negative (store w) samples (k, w)).
  - exact Hnext.
  - intros t data Ht. destruct Hnext as [ext ->].
    apply contents_app. by eapply lookup_lt_Some.
Qed.

(** ** The negatives of a batch *)


